(** * Shape inference of Slice-8, the IR serializer and a matcher callback
      of the nGraph core

    A shallow embedding of
    - [src/ngraph/core/src/op/slice.cpp]: ranged slicing (module [Slice]);
    - [src/ngraph/core/src/pass/serialize.cpp]: the constant writer (module
      [ConstWriter]) and the XML serializer with its file handling, its
      output paths and the streaming container (module [Serializer]);
    - [add_fake_quantize_fusion.cpp]: the matcher callback of
      AddFakeQuantizeFusion (module [AddFQFusion]);
    followed by the properties the specification states about them (modules
    [SliceFacts], [ConstWriterFacts], [SerializerFacts], [AddFQFusionFacts]).

    Integers of the source are mathematical integers here, except in the
    content hash of the constant writer, whose wrap-around is written out. *)

From Stdlib Require Import ZArith Lia DecimalString DecimalZ DecimalPos.
From stdpp Require Import base gmap strings list fin_maps sorting.

(** ** Results of checked operations

    The exception classes are declared outside the sources at hand.  As in
    nGraph's headers, [ngraph_error] is the base class, [CheckFailure]
    (thrown by [NGRAPH_CHECK]) derives from it and [NodeValidationFailure]
    (thrown by [NODE_VALIDATION_CHECK]) derives from [CheckFailure].  A
    value of [exception] is the dynamic class of the thrown object. *)
Inductive exception : Type :=
| ngraph_error (msg : string)
| CheckFailure (msg : string)
| NodeValidationFailure (msg : string).

(** [catch (const ngraph::CheckFailure&)] *)
Definition is_CheckFailure (e : exception) : bool :=
  match e with
  | ngraph_error _ => false
  | CheckFailure _ | NodeValidationFailure _ => true
  end.

Inductive result (A : Type) : Type :=
| Ok (a : A)
| Raise (e : exception).
Arguments Ok {A} a.
Arguments Raise {A} e.

Definition rbind {A B} (r : result A) (k : A → result B) : result B :=
  match r with
  | Ok a => k a
  | Raise e => Raise e
  end.

(** [NODE_VALIDATION_CHECK(this, cond, msg)] *)
Definition node_validation_check (cond : bool) (msg : string) : result unit :=
  if cond then Ok tt else Raise (NodeValidationFailure msg).

(** ** Stateful code that may throw

    The state reached so far survives a throw: what was written or
    allocated before the exception stays written or allocated. *)
Definition ST (S A : Type) : Type := S → result A * S.

Definition ret {S A} (a : A) : ST S A := λ s, (Ok a, s).
Definition throw {S A} (e : exception) : ST S A := λ s, (Raise e, s).
Definition bind {S A B} (m : ST S A) (k : A → ST S B) : ST S B :=
  λ s, match m s with
       | (Ok a, s') => k a s'
       | (Raise e, s') => (Raise e, s')
       end.
Definition lift {S A} (r : result A) : ST S A := λ s, (r, s).

Notation "'mlet' x := m 'in' k" := (bind m (λ x, k))
  (at level 10, x name, m at level 100, k at level 200).
Notation "'rlet' x := m 'in' k" := (rbind m (λ x, k))
  (at level 10, x name, m at level 100, k at level 200).

Module Slice.
Local Open Scope Z_scope.

Definition INT32_MAX : Z := 2147483647.
Definition INT64_MAX : Z := 9223372036854775807.

(** Modelled from the spec: the [Dimension] class (its header is not part
    of the sources at hand).  A dimension is an interval of lengths; the
    upper bound [INT64_MAX] stands for "unbounded", a static dimension has
    equal bounds, and the length [-1] given to the one-argument constructor
    denotes the fully dynamic dimension. *)
Record Dimension : Type := mkDimension {
  get_min_length : Z;
  get_max_val : Z
}.

Global Instance Dimension_eq_dec : EqDecision Dimension.
Proof. solve_decision. Defined.

Global Instance Dimension_inhabited : Inhabited Dimension :=
  populate (mkDimension 0 INT64_MAX).

(** [Dimension(value_type)] *)
Definition Dimension_of (d : Z) : Dimension :=
  if d =? -1 then mkDimension 0 INT64_MAX else mkDimension d d.

(** [Dimension(min, max)] *)
Definition Dimension_range (lo hi : Z) : Dimension := mkDimension lo hi.

Definition is_static (d : Dimension) : bool :=
  get_min_length d =? get_max_val d.

Definition has_upper_bound (d : Dimension) : bool :=
  negb (get_max_val d =? INT64_MAX).

(** The invariant the data model asks of a dimension. *)
Definition well_formed (d : Dimension) : Prop :=
  get_min_length d ≤ get_max_val d.

Inductive PartialShape : Type :=
| RankDynamic
| Ranked (dims : list Dimension).

(** [std::ceil(a / std::fabs(b))] for [0 <= a], [b <> 0], on integers.  The
    source divides in double precision, which is exact as long as both
    operands stay below 2^53. *)
Definition ceil_div (a b : Z) : Z := (a + Z.abs b - 1) / Z.abs b.

Definition get_sliced_dim_size (start stop step dim_size : Z) : Z :=
  (* Normalize index *)
  let start := if start <? 0 then dim_size + start else start in
  let stop := if stop <? 0 then dim_size + stop else stop in
  (* Clip normalized bounds according to the dim size *)
  let start := Z.max 0 (Z.min start dim_size) in
  let stop := Z.max (-1) (Z.min stop dim_size) in
  let elements_in_range :=
    if step <? 0
    then Z.max 0 (Z.min (dim_size - 1) start - stop)
    else Z.max 0 (Z.min dim_size stop - start) in
  ceil_div elements_in_range step.

(** The body of the loop of [calculate_output_shape] once the axis and
    the step are validated: the dimension stored at [output_shape[norm_axis]]. *)
Definition sliced_dimension (start stop step : Z) (axis_dim : Dimension)
  : Dimension :=
  let axis_min_dim_length := get_min_length axis_dim in
  let min_dim_size := get_sliced_dim_size start stop step axis_min_dim_length in
  if is_static axis_dim then Dimension_of min_dim_size
  else
    let bounded :=
      let axis_max_dim_length := get_max_val axis_dim in
      let max_dim_size := get_sliced_dim_size start stop step axis_max_dim_length in
      Dimension_range min_dim_size max_dim_size in
    (* Avoid negative index normalization without upper bounds *)
    if negb (has_upper_bound axis_dim) then
      if ((step <? 0) && (start <? 0) && (0 <? stop))
         || ((0 <? step) && (stop <? 0) && (0 <? start))
      then Dimension_of (-1)
      else if (step <? 0) && (0 <? start) && (stop <? 0) then
        let max_out_dim := if INT32_MAX <=? start then INT64_MAX else start + 1 in
        Dimension_range 0 max_out_dim
      else if (0 <? step) && (0 <? stop) && (start <? 0) then
        let max_out_dim := if INT32_MAX <=? stop then INT64_MAX else stop in
        Dimension_range 0 max_out_dim
      else bounded
    else bounded.

Definition normalize_axis (data_static_rank axis : Z) : Z :=
  if axis <? 0 then data_static_rank + axis else axis.

(** One element of the index vectors: [starts[i]], [stops[i]], [steps[i]],
    [axes[i]]. *)
Record SliceIndex : Type := mkSliceIndex {
  si_start : Z; si_stop : Z; si_step : Z; si_axis : Z
}.

Fixpoint zip_indices (starts stops steps axes : list Z) : list SliceIndex :=
  match starts, stops, steps, axes with
  | a :: starts, b :: stops, c :: steps, d :: axes =>
      mkSliceIndex a b c d :: zip_indices starts stops steps axes
  | _, _, _, _ => []
  end.

(** The [for] loop over [i < axes.size()]. *)
Fixpoint slice_loop (data_shape : list Dimension) (ixs : list SliceIndex)
    (output_shape : list Dimension) : result (list Dimension) :=
  match ixs with
  | [] => Ok output_shape
  | ix :: ixs =>
      let data_static_rank := Z.of_nat (length data_shape) in
      let norm_axis := normalize_axis data_static_rank (si_axis ix) in
      rbind (node_validation_check ((0 <=? norm_axis) && (norm_axis <? data_static_rank))
               "Values in the `axes` input must be in range of the `data` input rank")
        (λ _,
      rbind (node_validation_check (negb (si_step ix =? 0)) "Slice 'step' value can't be zero.")
        (λ _,
      let axis_dim := data_shape !!! Z.to_nat norm_axis in
      slice_loop data_shape ixs
        (<[Z.to_nat norm_axis :=
             sliced_dimension (si_start ix) (si_stop ix) (si_step ix) axis_dim]>
           output_shape)))
  end.

Definition calculate_output_shape (starts stops steps axes : list Z)
    (data_shape : PartialShape) : result PartialShape :=
  let ind_size := length starts in
  rbind (node_validation_check (bool_decide (length stops = ind_size)
                && bool_decide (length steps = ind_size)
                && bool_decide (length axes = ind_size))
           "Slice `start`, `stop`, `step`, `axes` inputs need to have the same size.")
    (λ _,
  let axes_set : gset Z := list_to_set axes in
  rbind (node_validation_check (bool_decide (size axes_set = length axes))
           "Slice values in `axes` input must be unique.")
    (λ _,
  match data_shape with
  | RankDynamic => Ok RankDynamic
  | Ranked dims =>
      rbind (slice_loop dims (zip_indices starts stops steps axes) dims)
        (λ out, Ok (Ranked out))
  end)).

(** *** The closed form of the specification

    Written after the words of the specification: negative values are
    normalised by adding the axis length, [start] is clipped into
    [[0, dim_size]], [stop] into [[-1, dim_size]], and the elements are
    counted according to the sign of the step. *)
Definition spec_normalize (v dim_size : Z) : Z :=
  if v <? 0 then v + dim_size else v.

Definition spec_clip (lo hi v : Z) : Z := Z.max lo (Z.min hi v).

Definition spec_count (start stop step dim_size : Z) : Z :=
  let start' := spec_clip 0 dim_size (spec_normalize start dim_size) in
  let stop' := spec_clip (-1) dim_size (spec_normalize stop dim_size) in
  if step <? 0
  then Z.max 0 (Z.min (dim_size - 1) start' - stop')
  else Z.max 0 (Z.min dim_size stop' - start').

(** [n] is the ceiling of [count / k], for [0 < k]. *)
Definition is_ceil_quotient (n count k : Z) : Prop :=
  k * (n - 1) < count ≤ k * n.

(** What the loop stores for one index. *)
Definition axis_slot (dims : list Dimension) (ix : SliceIndex) : nat :=
  Z.to_nat (normalize_axis (Z.of_nat (length dims)) (si_axis ix)).

Definition axis_value (dims : list Dimension) (ix : SliceIndex) : Dimension :=
  sliced_dimension (si_start ix) (si_stop ix) (si_step ix)
    (dims !!! axis_slot dims ix).

Definition index_valid (dims : list Dimension) (ix : SliceIndex) : Prop :=
  (0 ≤ normalize_axis (Z.of_nat (length dims)) (si_axis ix) < Z.of_nat (length dims))
  ∧ si_step ix ≠ 0.

(** [get_default_const_axes]: the axes of a Slice that has no [axes] input,
    from the shape of its [start] input.  The result is the content of the
    constant ([std::iota] from 0), [None] stands for [nullptr]. *)
Definition get_default_const_axes (start_pshape : PartialShape) : option (list Z) :=
  match start_pshape with
  | Ranked [d] =>
      (* Static case *)
      if is_static d then
        let axes_length := get_min_length d in
        Some (seqZ 0 axes_length)
      else None
  | _ =>
      (* Dynamic case *)
      None
  end.

End Slice.

Module ConstWriter.
Local Open Scope Z_scope.

Abbreviation byte := Byte.byte.

Global Instance byte_eq_dec : EqDecision byte := Byte.byte_eq_dec.

(** [size_t] is the 64-bit unsigned word of the supported targets; its
    arithmetic wraps. *)
Definition cel_size : nat := 8.
Definition size_t_wrap (z : Z) : Z := z mod 2 ^ 64.

(** The value of a [size_t] read from (at most eight) bytes of a
    little-endian memory; missing high bytes are zero, as after the
    [memcpy] into [last_bytes{0}]. *)
Fixpoint load_size_t (bs : list byte) : Z :=
  match bs with
  | [] => 0
  | b :: bs => Z.of_N (Byte.to_N b) + 256 * load_size_t bs
  end.

(** [seed ^= d + 0x9e3779b9 + (seed << 6) + (seed >> 2)] *)
Definition hash_step (seed d : Z) : Z :=
  Z.lxor seed
    (size_t_wrap (d + 0x9e3779b9 + Z.shiftl seed 6 + Z.shiftr seed 2)).

(** The loop [for (d = data; d != d_end; ++d)] over [n] whole cells. *)
Fixpoint hash_cells (n : nat) (data : list byte) (seed : Z) : Z :=
  match n with
  | O => seed
  | S n => hash_cells n (drop cel_size data)
             (hash_step seed (load_size_t (take cel_size data)))
  end.

Definition hash_combine (v : list byte) : Z :=
  let size := length v in
  let seed := size_t_wrap (Z.of_nat size) in
  let cells := (size / cel_size)%nat in
  let seed := hash_cells cells v seed in
  let last_bytes := load_size_t (drop (cells * cel_size) v) in
  hash_step seed last_bytes.

(** [memcmp(ptr, retained, size) == 0], [size] being the length of the new
    payload.  The map keeps a pointer to the bytes of the constant written
    first; the model keeps those bytes.  When the retained buffer is
    shorter than [size] the source reads past its end; the model takes
    that comparison to fail. *)
Definition memcmp_equal (ptr retained : list byte) : bool :=
  bool_decide (take (length ptr) retained = ptr).

Record ConstantWriter : Type := mkConstantWriter {
  m_hash_to_file_positions : gmap Z (Z * list byte);
  m_binary_output : list byte;       (* the stream; [tellp] is its length *)
  m_enable_compression : bool;
  m_blob_offset : Z
}.

(** [ConstantWriter(bin_data, enable_compression)] *)
Definition new (bin_data : list byte) (enable_compression : bool)
  : ConstantWriter :=
  mkConstantWriter ∅ bin_data enable_compression (Z.of_nat (length bin_data)).

Definition tellp (w : ConstantWriter) : Z := Z.of_nat (length (m_binary_output w)).

(** [m_binary_output.write(ptr, size)] *)
Definition stream_write (w : ConstantWriter) (ptr : list byte) : ConstantWriter :=
  mkConstantWriter (m_hash_to_file_positions w) (m_binary_output w ++ ptr)
    (m_enable_compression w) (m_blob_offset w).

(** [std::unordered_map::insert]: an existing key keeps its value. *)
Definition map_insert (h : Z) (e : Z * list byte) (m : gmap Z (Z * list byte))
  : gmap Z (Z * list byte) :=
  match m !! h with
  | Some _ => m
  | None => <[h := e]> m
  end.

Definition write (w : ConstantWriter) (ptr : list byte) : Z * ConstantWriter :=
  let write_pos := tellp w in
  let offset := write_pos - m_blob_offset w in
  if negb (m_enable_compression w) then (offset, stream_write w ptr)
  else
    let hash := hash_combine ptr in
    let found := m_hash_to_file_positions w !! hash in
    let reused :=
      match found with
      | Some (pos, retained) => if memcmp_equal ptr retained then Some pos else None
      | None => None
      end in
    match reused with
    | Some pos => (pos, w)
    | None =>
        let w' := stream_write w ptr in
        (offset,
         mkConstantWriter
           (map_insert hash (offset, ptr) (m_hash_to_file_positions w'))
           (m_binary_output w') (m_enable_compression w') (m_blob_offset w'))
    end.

(** A run of writes: the offsets handed back, in order, and the final
    writer. *)
Fixpoint write_all (w : ConstantWriter) (ps : list (list byte))
  : list Z * ConstantWriter :=
  match ps with
  | [] => ([], w)
  | p :: ps =>
      let '(o, w1) := write w p in
      let '(os, w2) := write_all w1 ps in
      (o :: os, w2)
  end.

(** The bytes of the payload stream at [offset], [n] of them. *)
Definition payload_at (w : ConstantWriter) (offset : Z) (n : nat) : list byte :=
  take n (drop (Z.to_nat (m_blob_offset w + offset)) (m_binary_output w)).

(** Offset of the end of the payload stream. *)
Definition end_offset (w : ConstantWriter) : Z := tellp w - m_blob_offset w.

(** Every retained entry is filed under its own hash and describes bytes
    that are in the payload stream at the recorded offset. *)
Definition retained_ok (w : ConstantWriter) : Prop :=
  0 ≤ m_blob_offset w ≤ tellp w
  ∧ ∀ h off buf, m_hash_to_file_positions w !! h = Some (off, buf) →
      hash_combine buf = h ∧ 0 ≤ off
      ∧ off + Z.of_nat (length buf) ≤ end_offset w
      ∧ payload_at w off (length buf) = buf.

(** The two arrays named in the source, as 64-bit little-endian integers:
    [{2, 2}] and [{0, 128}]. *)
Definition array_2_2 : list byte :=
  [Byte.x02; Byte.x00; Byte.x00; Byte.x00; Byte.x00; Byte.x00; Byte.x00; Byte.x00;
   Byte.x02; Byte.x00; Byte.x00; Byte.x00; Byte.x00; Byte.x00; Byte.x00; Byte.x00].
Definition array_0_128 : list byte :=
  [Byte.x00; Byte.x00; Byte.x00; Byte.x00; Byte.x00; Byte.x00; Byte.x00; Byte.x00;
   Byte.x80; Byte.x00; Byte.x00; Byte.x00; Byte.x00; Byte.x00; Byte.x00; Byte.x00].

End ConstWriter.

Module Serializer.
Import ConstWriter.

(** *** The XML document (pugixml) *)
#[warnings="-register-all"]
Inductive xml_node : Type :=
| Element (name : string) (attributes : list (string * string))
          (children : list xml_node)
| PCData (value : string).

Definition xml_name (x : xml_node) : string :=
  match x with Element n _ _ => n | PCData _ => "" end.
Definition xml_attributes (x : xml_node) : list (string * string) :=
  match x with Element _ a _ => a | PCData _ => [] end.
Definition xml_children (x : xml_node) : list xml_node :=
  match x with Element _ _ c => c | PCData _ => [] end.

(** [node.attribute(name)]: the first attribute of that name. *)
Fixpoint attribute (name : string) (attrs : list (string * string))
  : option string :=
  match attrs with
  | [] => None
  | (k, v) :: attrs => if String.eqb k name then Some v else attribute name attrs
  end.

(** [node.append_attribute(name).set_value(value)] *)
Definition append_attribute (name value : string)
    (attrs : list (string * string)) : list (string * string) :=
  attrs ++ [(name, value)].

(** [node.attribute(name).set_value(value)]; nothing happens when there is
    no such attribute. *)
Fixpoint set_attribute (name value : string) (attrs : list (string * string))
  : list (string * string) :=
  match attrs with
  | [] => []
  | (k, v) :: attrs =>
      if String.eqb k name then (k, value) :: attrs
      else (k, v) :: set_attribute name value attrs
  end.

(** [node.remove_attribute(name)] *)
Fixpoint remove_attribute (name : string) (attrs : list (string * string))
  : list (string * string) :=
  match attrs with
  | [] => []
  | (k, v) :: attrs =>
      if String.eqb k name then attrs else (k, v) :: remove_attribute name attrs
  end.

(** [node.child(name)]: the first child element of that name. *)
Definition child (name : string) (x : xml_node) : option xml_node :=
  List.find (λ c, String.eqb (xml_name c) name) (xml_children x).

(** [std::to_string] and pugixml's [set_value] on integers. *)
Definition to_string (z : Z) : string := NilZero.string_of_int (Z.to_int z).

(** [join(c, ", ")] *)
Fixpoint join (c : list string) : string :=
  match c with
  | [] => ""
  | [v] => v
  | v :: c => v +:+ ", " +:+ join c
  end.

(** *** Serializer effects: the constant writer is threaded through, and a
    throw keeps what was already written to the binary stream. *)
Abbreviation M := (ST ConstantWriter).

(** [NGRAPH_CHECK(cond, msg)] *)
Definition ngraph_check (cond : bool) (msg : string) : result unit :=
  if cond then Ok tt else Raise (CheckFailure msg).

(** *** The graph *)
Inductive Type_t : Type :=
| undefined | dynamic | boolean | bf16 | f16 | f32 | f64
| i4 | i8 | i16 | i32 | i64 | u1 | u4 | u8 | u16 | u32 | u64.

(** What an attribute visitor is handed by [on_adapter]: the kinds of value
    accessors the two visitors of the serializer distinguish.  Doubles and
    floats appear as the text the XML library prints for them.  Sub-graph
    bodies and their port descriptions (TensorIterator, Loop, If) are outside
    this model. *)
Inductive Adapter : Type :=
| AdBool (b : bool)
| AdString (s : string)
| AdInt64 (z : Z)
| AdDouble (text : string)
| AdIntVector (l : list Z)
| AdFloatVector (texts : list string)
| AdStringVector (l : list string)
| AdStringSet (l : list string)
| AdVariable (variable_id : string)
| AdAlignedBuffer (bytes : list byte)
| AdFrameworkNodeAttrs (type_name opset_name : string)
                       (attrs : list (string * string))
| AdTypeVector (names : list string)
| AdOther.

Global Instance Type_t_eq_dec : EqDecision Type_t.
Proof. solve_decision. Defined.

Global Instance Adapter_eq_dec : EqDecision Adapter.
Proof. solve_decision. Defined.

(** A runtime-info attribute ([ngraph::Variant]): its type info, its value
    when it is a [VariantImpl<std::string>], and its [visit_attributes]:
    the adapters it hands to the visitor and the boolean it returns. *)
Record Variant : Type := mkVariant {
  variant_type_name : string;
  variant_type_version : string;
  variant_string : option string;
  variant_adapters : list (string * Adapter);
  variant_visitable : bool
}.

Global Instance Variant_eq_dec : EqDecision Variant.
Proof. solve_decision. Defined.

(** [RTMap] is a [std::map]: the entries in key order. *)
Definition RTMap : Type := list (string * Variant).

Fixpoint rt_find (name : string) (rt : RTMap) : option Variant :=
  match rt with
  | [] => None
  | (k, v) :: rt => if String.eqb k name then Some v else rt_find name rt
  end.

(** An input port of a node: the output it reads, and the element type,
    shape and runtime info its accessors return. *)
Record Input : Type := mkInput {
  in_source_node : nat;
  in_source_index : nat;
  in_element_type : Type_t;
  in_partial_shape : Slice.PartialShape;
  in_rt_info : RTMap
}.

Record Output : Type := mkOutput {
  out_element_type : Type_t;
  out_partial_shape : Slice.PartialShape;
  out_tensor_names : list string;
  out_rt_info : RTMap
}.

Global Instance PartialShape_eq_dec : EqDecision Slice.PartialShape.
Proof. solve_decision. Defined.

Global Instance Input_eq_dec : EqDecision Input.
Proof. solve_decision. Defined.

Global Instance Output_eq_dec : EqDecision Output.
Proof. solve_decision. Defined.

(** The dynamic class of a node, as far as the serializer asks for it:
    [is_parameter], [is_output], [is_sink] and
    [dynamic_cast<opset1::LSTMCell*>]. *)
Inductive NodeClass : Type :=
| ParameterOp | ResultOp | SinkOp | LSTMCell_v0 | OtherOp.

Global Instance NodeClass_eq_dec : EqDecision NodeClass.
Proof. solve_decision. Defined.

(** A node.  [node_ptr] is its address, the key of [layer_ids].  The shapes
    are the ones in place after [resolve_dynamic_shapes], the attributes the
    ones visited after [auto_pad_resolving]. *)
Record Node : Type := mkNode {
  node_ptr : nat;
  m_unique_name : string;
  m_friendly_name : option string;
  node_class : NodeClass;
  type_info_name : string;
  type_info_version : Z;
  type_info_version_id : option string;
  node_inputs : list Input;
  node_outputs : list Output;
  node_rt_info : RTMap;
  node_adapters : list (string * Adapter);
  node_visitable : bool
}.

Global Instance Node_eq_dec : EqDecision Node.
Proof. solve_decision. Defined.

Definition get_name (n : Node) : string := m_unique_name n.

(** "If no friendly name has been set via set_friendly_name then the node's
    unique name is returned." *)
Definition get_friendly_name (n : Node) : string :=
  match m_friendly_name n with
  | Some name => name
  | None => get_name n
  end.

Definition get_type_name (n : Node) : string := type_info_name n.
Definition get_input_size (n : Node) : nat := length (node_inputs n).
Definition get_output_size (n : Node) : nat := length (node_outputs n).
Definition is_parameter (n : Node) : bool := bool_decide (node_class n = ParameterOp).
Definition is_output (n : Node) : bool := bool_decide (node_class n = ResultOp).
Definition is_sink (n : Node) : bool := bool_decide (node_class n = SinkOp).
Definition is_LSTMCell_v0 (n : Node) : bool := bool_decide (node_class n = LSTMCell_v0).

Record Function : Type := mkFunction {
  f_unique_name : string;
  f_friendly_name : option string;
  f_ordered_ops : list Node;       (* get_ordered_ops() *)
  f_parameters : list Node;        (* get_parameters() *)
  f_sinks : list Node;             (* get_sinks() *)
  f_results : list Node;           (* get_results() *)
  f_rt_version : option Z          (* rt_info["version"] *)
}.

Definition f_get_friendly_name (f : Function) : string :=
  match f_friendly_name f with
  | Some name => name
  | None => f_unique_name f
  end.

Record Edge : Type := mkEdge {
  from_layer : nat; from_port : nat; to_layer : nat; to_port : nat
}.

(** *** Helpers of the serializer *)

(** Operation type names are translated from the nGraph convention to the
    IR convention. *)
Definition translate_type_name_translator : list (string * string) :=
  [("Constant", "Const"); ("PRelu", "PReLU"); ("Relu", "ReLU");
   ("Softmax", "SoftMax")].

Definition translate_type_name (name : string) : string :=
  match attribute name translate_type_name_translator with
  | Some found => found
  | None => name
  end.

(** An opset, as far as [contains_op_type] is concerned: the type infos
    (name, version) it holds.  [custom_opsets] is a [std::map], given in key
    order. *)
Definition OpSet : Type := list (string * Z).

Definition contains_op_type (opset : OpSet) (n : Node) : bool :=
  bool_decide ((type_info_name n, type_info_version n) ∈ opset).

Fixpoint opset_find (name : string) (custom_opsets : list (string * OpSet))
  : option OpSet :=
  match custom_opsets with
  | [] => None
  | (k, o) :: rest => if String.eqb k name then Some o else opset_find name rest
  end.

Definition get_opset_name (n : Node) (custom_opsets : list (string * OpSet))
  : string :=
  match type_info_version_id n with
  | Some version_id => version_id
  | None =>
      (* Try to find opset name from RT info *)
      let from_rt :=
        match rt_find "opset" (node_rt_info n) with
        | Some variant =>
            match variant_string variant with
            | Some opset_name =>
                match opset_find opset_name custom_opsets with
                | Some _ => Some opset_name
                | None => None
                end
            | None => None
            end
        | None => None
        end in
      match from_rt with
      | Some opset_name => opset_name
      | None =>
          match List.find (λ custom_opset, contains_op_type custom_opset.2 n)
                  custom_opsets with
          | Some custom_opset => custom_opset.1
          | None => "experimental"
          end
      end
  end.

Definition get_precision_name (elem_type : Type_t) : string :=
  match elem_type with
  | undefined | dynamic => "UNSPECIFIED"
  | f16 => "FP16"
  | f32 => "FP32"
  | bf16 => "BF16"
  | f64 => "FP64"
  | i4 => "I4"
  | i8 => "I8"
  | i16 => "I16"
  | i32 => "I32"
  | i64 => "I64"
  | u4 => "U4"
  | u8 => "U8"
  | u16 => "U16"
  | u32 => "U32"
  | u64 => "U64"
  | u1 => "BIN"
  | boolean => "BOOL"
  end.

Definition comma : Ascii.ascii := Ascii.ascii_of_nat 44.
Definition backslash : Ascii.ascii := Ascii.ascii_of_nat 92.

(** [escape_delim(name, ',')]: every delimiter gets a backslash. *)
Fixpoint escape_delim (name : string) : string :=
  match name with
  | EmptyString => EmptyString
  | String c rest =>
      if Ascii.eqb c comma
      then String backslash (String comma (escape_delim rest))
      else String c (escape_delim rest)
  end.

(** [generate_unique_name]: the first suffix, counting up, that gives an
    unused name.  The recursion of the source ends because [unique_names]
    is finite; [tries] bounds it here, and [size unique_names + 1] tries
    are enough. *)
Fixpoint generate_unique_name_from (tries : nat) (unique_names : gset string)
    (base_name : string) (suffix : Z) : string :=
  let new_name := base_name +:+ to_string suffix in
  match tries with
  | O => new_name
  | S tries =>
      if bool_decide (new_name ∈ unique_names)
      then generate_unique_name_from tries unique_names base_name (suffix + 1)
      else new_name
  end.

Definition generate_unique_name (unique_names : gset string)
    (base_name : string) (suffix : Z) : string :=
  generate_unique_name_from (size unique_names) unique_names base_name suffix.

Definition is_name_auto_generated (n : Node) : bool :=
  String.eqb (get_friendly_name n) (get_name n).

Definition f_is_name_auto_generated (f : Function) : bool :=
  String.eqb (f_get_friendly_name f) (f_unique_name f).

(** Returns the name and the updated [unique_names]. *)
Definition get_node_unique_name (unique_names : gset string) (n : Node)
  : string * gset string :=
  let name := get_friendly_name n in
  let name :=
    if bool_decide (name ∈ unique_names)
    then generate_unique_name unique_names name 0
    else name in
  (name, {[name]} ∪ unique_names).

Definition is_exec_graph (f : Function) : bool :=
  existsb (λ op, bool_decide (is_Some (rt_find "execTimeMcs" (node_rt_info op))))
    (f_ordered_ops f).

(** [layer_ids[node.get()] = id++] over the ordered operations. *)
Fixpoint create_layer_ids_from (id : nat) (ops : list Node)
    (layer_ids : gmap nat nat) : gmap nat nat :=
  match ops with
  | [] => layer_ids
  | node :: ops => create_layer_ids_from (S id) ops (<[node_ptr node := id]> layer_ids)
  end.

Definition create_layer_ids (f : Function) : gmap nat nat :=
  create_layer_ids_from 0 (f_ordered_ops f) ∅.

(** The node an [Output<Node>] points to, found by its address. *)
Definition node_at (ptr : nat) (ops : list Node) : option Node :=
  List.find (λ n, Nat.eqb (node_ptr n) ptr) ops.

(** The edges into one node, in input order: the body of the inner loop
    of [create_edge_mapping]. *)
Fixpoint node_edges (layer_ids : gmap nat nat) (ops : list Node)
    (current_node : Node) (index : nat) (inputs : list Input)
  : result (list Edge) :=
  match inputs with
  | [] => Ok []
  | i :: inputs =>
      match layer_ids !! in_source_node i, node_at (in_source_node i) ops,
            layer_ids !! node_ptr current_node with
      | Some from, Some source_node, Some to =>
          let e := mkEdge from (get_input_size source_node + in_source_index i)
                     to index in
          rlet rest := node_edges layer_ids ops current_node (S index) inputs in
          Ok (e :: rest)
      | _, _, _ => Raise (CheckFailure "Internal error")
      end
  end.

Fixpoint all_edges (layer_ids : gmap nat nat) (ops : list Node)
    (nodes : list Node) : result (list Edge) :=
  match nodes with
  | [] => Ok []
  | node :: nodes =>
      if is_parameter node then all_edges layer_ids ops nodes
      else
        rlet edges := node_edges layer_ids ops node 0 (node_inputs node) in
        rlet rest := all_edges layer_ids ops nodes in
        Ok (edges ++ rest)
  end.

Definition edge_le (a b : Edge) : Prop := from_layer a ≤ from_layer b.

Global Instance edge_le_dec : RelDecision edge_le.
Proof. intros a b. unfold edge_le. apply _. Defined.

(** [std::sort] by [from_layer] leaves the order of edges with the same
    source unspecified; the model sorts stably. *)
Definition create_edge_mapping (layer_ids : gmap nat nat) (f : Function)
  : result (list Edge) :=
  rlet edges := all_edges layer_ids (f_ordered_ops f) (f_ordered_ops f) in
  Ok (merge_sort edge_le edges).

(** *** Runtime info: [rt_info::RTInfoSerializer] and [append_runtime_info] *)

Definition check_attribute_name (name : string) : result unit :=
  if String.eqb name "name" || String.eqb name "version"
  then Raise (ngraph_error ("Attribute key with name: " +:+ name
                            +:+ " is not allowed. Please use another name"))
  else Ok tt.

Definition bool_text (b : bool) : string := if b then "true" else "false".

Definition rt_on_adapter (name : string) (adapter : Adapter)
    (m_node : list (string * string)) : result (list (string * string)) :=
  rlet checked := check_attribute_name name in
  match adapter with
  | AdStringSet l => Ok (append_attribute name (join l) m_node)
  | AdBool b => Ok (append_attribute name (bool_text b) m_node)
  | AdString v => Ok (append_attribute name v m_node)
  | AdInt64 z => Ok (append_attribute name (to_string z) m_node)
  | AdDouble text => Ok (append_attribute name text m_node)
  | AdIntVector l => Ok (append_attribute name (join (to_string <$> l)) m_node)
  | AdFloatVector texts => Ok (append_attribute name (join texts) m_node)
  | AdStringVector l => Ok (append_attribute name (join l) m_node)
  | AdVariable _ | AdAlignedBuffer _ | AdFrameworkNodeAttrs _ _ _
  | AdTypeVector _ | AdOther =>
      Raise (ngraph_error ("Unsupported attribute type for serialization: " +:+ name))
  end.

Fixpoint rt_visit_attributes (adapters : list (string * Adapter))
    (m_node : list (string * string)) : result (list (string * string)) :=
  match adapters with
  | [] => Ok m_node
  | (name, adapter) :: adapters =>
      rlet m_node := rt_on_adapter name adapter m_node in
      rt_visit_attributes adapters m_node
  end.

(** The [attribute] children kept under [rt_info]. *)
Fixpoint rt_attribute_nodes (attributes : RTMap) : result (list xml_node) :=
  match attributes with
  | [] => Ok []
  | (key, item) :: attributes =>
      let attribute_node :=
        [("name", variant_type_name item); ("version", variant_type_version item)] in
      rlet visited := rt_visit_attributes (variant_adapters item) attribute_node in
      rlet rest := rt_attribute_nodes attributes in
      if variant_visitable item
      then Ok (Element "attribute" visited [] :: rest)
      else Ok rest
  end.

(** [append_runtime_info(node, attributes)]: the children it leaves under
    [node]; the [rt_info] element is removed again when it stays empty. *)
Definition append_runtime_info (attributes : RTMap) : result (list xml_node) :=
  rlet nodes := rt_attribute_nodes attributes in
  match nodes with
  | [] => Ok []
  | _ => Ok [Element "rt_info" [] nodes]
  end.

Definition versioned_runtime_info (version : Z) (attributes : RTMap)
  : result (list xml_node) :=
  if (11 <=? version)%Z then append_runtime_info attributes else Ok [].

(** *** Ports *)

Definition dim_node (d : Slice.Dimension) : xml_node :=
  Element "dim" []
    [PCData (if Slice.is_static d then to_string (Slice.get_min_length d)
             else "-1")].

Definition dim_nodes (shape : Slice.PartialShape) : list xml_node :=
  match shape with
  | Slice.RankDynamic => []
  | Slice.Ranked dims => dim_node <$> dims
  end.

(** The loop over [node->inputs()]: the ports and the port counter after
    it.  [index] is [i.get_index()]. *)
Fixpoint input_ports (version : Z) (is_lstm : bool) (index port_id : nat)
    (inputs : list Input) : result (list xml_node * nat) :=
  match inputs with
  | [] => Ok ([], port_id)
  | i :: inputs =>
      (* WA for LSTMCellv0, peephole input shall not be serialized *)
      if Nat.eqb index 6 && is_lstm
      then input_ports version is_lstm (S index) (S port_id) inputs
      else
        rlet rt := versioned_runtime_info version (in_rt_info i) in
        let port :=
          Element "port"
            [("id", to_string (Z.of_nat port_id));
             ("precision", get_precision_name (in_element_type i))]
            (dim_nodes (in_partial_shape i) ++ rt) in
        rlet rest := input_ports version is_lstm (S index) (S port_id) inputs in
        Ok (port :: rest.1, rest.2)
  end.

Definition string_le (a b : string) : Prop := String.leb a b = true.

Global Instance string_le_dec : RelDecision string_le.
Proof. intros a b. unfold string_le. apply _. Defined.

(** [names += ","] between the escaped, sorted tensor names. *)
Fixpoint concat_names (vector_names : list string) (names : string) : string :=
  match vector_names with
  | [] => names
  | name :: vector_names =>
      let names := if String.eqb names "" then names else names +:+ "," in
      concat_names vector_names (names +:+ escape_delim name)
  end.

Fixpoint output_ports (version : Z) (port_id : nat) (outputs : list Output)
  : result (list xml_node) :=
  match outputs with
  | [] => Ok []
  | o :: outputs =>
      let vector_names := merge_sort string_le (out_tensor_names o) in
      let names := concat_names vector_names "" in
      let attrs :=
        [("id", to_string (Z.of_nat port_id));
         ("precision", get_precision_name (out_element_type o))] in
      let attrs :=
        if String.eqb names "" then attrs else append_attribute "names" names attrs in
      rlet rt := versioned_runtime_info version (out_rt_info o) in
      let port := Element "port" attrs (dim_nodes (out_partial_shape o) ++ rt) in
      rlet rest := output_ports version (S port_id) outputs in
      Ok (port :: rest)
  end.

(** *** Attributes: [XmlSerializer::on_adapter] *)

(** The visitor works on the [data] element and, for framework nodes, on
    the attributes of the enclosing layer. *)
Record VisitorTarget : Type := mkVisitorTarget {
  vt_layer : list (string * string);
  vt_data : list (string * string)
}.

Definition data_append (name value : string) (t : VisitorTarget) : VisitorTarget :=
  mkVisitorTarget (vt_layer t) (append_attribute name value (vt_data t)).

Definition on_adapter (m_node_type_name : string) (name : string)
    (adapter : Adapter) (t : VisitorTarget) : M VisitorTarget :=
  match adapter with
  | AdBool b => ret (data_append name (bool_text b) t)
  | AdString v => ret (data_append name v t)
  | AdInt64 z => ret (data_append name (to_string z) t)
  | AdDouble text => ret (data_append name text t)
  | AdIntVector l => ret (data_append name (join (to_string <$> l)) t)
  | AdFloatVector texts => ret (data_append name (join texts) t)
  | AdStringVector l => ret (data_append name (join l) t)
  | AdVariable variable_id => ret (data_append name variable_id t)
  | AdAlignedBuffer bytes =>
      if String.eqb name "value"
         && String.eqb (translate_type_name m_node_type_name) "Const"
      then
        let size := Z.of_nat (length bytes) in
        λ w, let '(offset, w') := write w bytes in
             (Ok (data_append "size" (to_string size)
                    (data_append "offset" (to_string offset) t)), w')
      else ret t
  | AdFrameworkNodeAttrs type_name opset_name attrs =>
      (* Update type and version attributes *)
      let layer := set_attribute "type" type_name (vt_layer t) in
      let layer :=
        if negb (String.eqb opset_name "")
        then set_attribute "version" opset_name layer
        else remove_attribute "version" layer in
      (* Update node attributes in data field *)
      ret (mkVisitorTarget layer (vt_data t ++ attrs))
  | AdTypeVector names => ret (data_append name (join names) t)
  | AdStringSet _ | AdOther =>
      throw (ngraph_error ("Unsupported attribute type for serialization: " +:+ name))
  end.

Fixpoint visit_attributes (m_node_type_name : string)
    (adapters : list (string * Adapter)) (t : VisitorTarget) : M VisitorTarget :=
  match adapters with
  | [] => ret t
  | (name, adapter) :: adapters =>
      mlet t := on_adapter m_node_type_name name adapter t in
      visit_attributes m_node_type_name adapters t
  end.

(** [rt_info::XmlSerializer::serialize] *)
Definition list_of_names : list string := ["PrimitivesPriority"; "alt_width"].

Fixpoint rt_xml_serialize (names : list string) (rt_info : RTMap)
    (data : list (string * string)) : list (string * string) :=
  match names with
  | [] => data
  | rt_info_name :: names =>
      let data :=
        match rt_find rt_info_name rt_info with
        | Some found_rt_info =>
            match variant_string found_rt_info with
            | Some value => append_attribute rt_info_name value data
            | None => data
            end
        | None => data
        end in
      rt_xml_serialize names rt_info data
  end.

Fixpoint visit_exec_graph_node (rt_info : RTMap) (t : VisitorTarget)
  : VisitorTarget :=
  match rt_info with
  | [] => t
  | (name, param) :: rt_info =>
      let t :=
        match variant_string param with
        | Some value =>
            if String.eqb name "layerType"
            then mkVisitorTarget (set_attribute "type" value (vt_layer t)) (vt_data t)
            else data_append name value t
        | None => t
        end in
      visit_exec_graph_node rt_info t
  end.

(** *** Layers *)

Definition is_body_op (node_type_name : string) : bool :=
  String.eqb node_type_name "TensorIterator" || String.eqb node_type_name "Loop".

Definition option_nodes (x : option xml_node) : list xml_node :=
  match x with Some x => [x] | None => [] end.

(** The children of a layer after all appends and moves.  [data] is
    appended first and removed at the end when it has no attribute;
    [rt_info] follows (version 11), then [input] and [output].  For
    TensorIterator and Loop, [input] is moved to the front and [output]
    right after the first child. *)
Definition layer_children (node_type_name : string)
    (data : list (string * string)) (rt_info : list xml_node)
    (input output : option xml_node) : list xml_node :=
  let data_node :=
    match data with
    | [] => []
    | _ => [Element "data" data []]
    end in
  if is_body_op node_type_name then
    match input with
    | Some i => i :: option_nodes output ++ data_node ++ rt_info
    | None => data_node ++ option_nodes output ++ rt_info
    end
  else data_node ++ rt_info ++ option_nodes input ++ option_nodes output.

(** The [input] block of a layer, if any, and the port counter after it. *)
Definition input_block (version : Z) (node : Node)
  : result (option xml_node * nat) :=
  if Nat.ltb 0 (get_input_size node)
  then rlet ports := input_ports version (is_LSTMCell_v0 node) 0 0
                       (node_inputs node) in
       Ok (Some (Element "input" [] ports.1), ports.2)
  else Ok (None, 0%nat).

(** The [output] block of a layer, if any. *)
Definition output_block (version : Z) (node : Node) (port_id : nat)
  : result (option xml_node) :=
  if Nat.ltb 0 (get_output_size node) && negb (is_output node)
  then rlet ports := output_ports version port_id (node_outputs node) in
       Ok (Some (Element "output" [] ports))
  else Ok None.

(** The body of the loop over [sorted_ops]: one [layer] element.  The set
    of names in use is handed on. *)
Definition layer_xml (layer_ids : gmap nat nat)
    (custom_opsets : list (string * OpSet)) (version : Z)
    (deterministic exec_graph : bool) (unique_names : gset string) (node : Node)
  : M (xml_node * gset string) :=
  let node_type_name := get_type_name node in
  mlet id := lift (match layer_ids !! node_ptr node with
                   | Some id => Ok id
                   | None => Raise (CheckFailure "Internal error")
                   end) in
  let layer := [("id", to_string (Z.of_nat id))] in
  (* If determinism is not required, include auto-generated names into xml *)
  let named :=
    if negb deterministic || negb (is_name_auto_generated node)
    then
      let unique := get_node_unique_name unique_names node in
      (append_attribute "name" unique.1 layer, unique.2)
    else (layer, unique_names) in
  let layer := append_attribute "type" (translate_type_name node_type_name) named.1 in
  let layer :=
    if negb exec_graph
    then append_attribute "version" (get_opset_name node custom_opsets) layer
    else layer in
  mlet rt_info := lift (versioned_runtime_info version (node_rt_info node)) in
  (* <layers/input> *)
  mlet inputs := lift (input_block version node) in
  let port_id := inputs.2 in
  (* <layers/output> *)
  mlet output := lift (output_block version node port_id) in
  (* fill <data> general attributes *)
  mlet visited := visit_attributes node_type_name (node_adapters node)
                    (mkVisitorTarget layer []) in
  mlet supported :=
    lift (ngraph_check (node_visitable node) "Visitor API is not supported in ") in
  let data := rt_xml_serialize list_of_names (node_rt_info node) (vt_data visited) in
  let target := mkVisitorTarget (vt_layer visited) data in
  let target :=
    if exec_graph then visit_exec_graph_node (node_rt_info node) target
    else target in
  ret (Element "layer" (vt_layer target)
         (layer_children node_type_name (vt_data target) rt_info inputs.1 output),
       named.2).

Fixpoint layers_loop (layer_ids : gmap nat nat)
    (custom_opsets : list (string * OpSet)) (version : Z)
    (deterministic exec_graph : bool) (unique_names : gset string)
    (sorted_ops : list Node) : M (list xml_node) :=
  match sorted_ops with
  | [] => ret []
  | n :: sorted_ops =>
      mlet layer := layer_xml layer_ids custom_opsets version deterministic
                      exec_graph unique_names n in
      mlet rest := layers_loop layer_ids custom_opsets version deterministic
                     exec_graph layer.2 sorted_ops in
      ret (layer.1 :: rest)
  end.

(** The order in which layers are written. *)
Definition sorted_ops (f : Function) (version : Z) : list Node :=
  if (11 <=? version)%Z then
    f_parameters f
    ++ filter (λ node, is_parameter node = false ∧ is_output node = false
                       ∧ is_sink node = false) (f_ordered_ops f)
    ++ f_sinks f
    ++ f_results f
  else f_ordered_ops f.

(** WA for LSTMCellv0, peephole input shall not be serialized *)
Definition edge_skipped (f : Function) (e : Edge) : bool :=
  Nat.eqb (to_port e) 6
  && match f_ordered_ops f !! to_layer e with
     | Some node => String.eqb (type_info_name node) "LSTMCell"
                    && (type_info_version node =? 0)%Z
     | None => false
     end.

Definition edge_node (e : Edge) : xml_node :=
  Element "edge"
    [("from-layer", to_string (Z.of_nat (from_layer e)));
     ("from-port", to_string (Z.of_nat (from_port e)));
     ("to-layer", to_string (Z.of_nat (to_layer e)));
     ("to-port", to_string (Z.of_nat (to_port e)))] [].

(** The edges that are written. *)
Definition emitted_edges (f : Function) (edge_mapping : list Edge) : list Edge :=
  filter (λ e, edge_skipped f e = false) edge_mapping.

(** [ngfunction_2_ir]: fills [netXml], an element without attributes and
    children so far. *)
Definition ngfunction_2_ir (netXml : string) (f : Function)
    (custom_opsets : list (string * OpSet)) (version : Z) (deterministic : bool)
  : M xml_node :=
  let net :=
    if negb deterministic || negb (f_is_name_auto_generated f)
    then [("name", f_get_friendly_name f)]
    else [] in
  let net := append_attribute "version" (to_string version) net in
  let layer_ids := create_layer_ids f in
  let exec_graph := is_exec_graph f in
  mlet layers := layers_loop layer_ids custom_opsets version deterministic
                   exec_graph ∅ (sorted_ops f version) in
  mlet edge_mapping := lift (create_edge_mapping layer_ids f) in
  ret (Element netXml net
         [Element "layers" [] layers;
          Element "edges" [] (edge_node <$> emitted_edges f edge_mapping)]).

(** *** Entry points *)

(** [pass::Serialize::Version] *)
Definition UNSPECIFIED : Z := 0.
Definition IR_V10 : Z := 10.
Definition IR_V11 : Z := 11.

(** [serializeFunc]: what the XML stream receives (the document, once it
    is saved) and the contents of the binary stream, which starts out as
    [bin_file]. *)
Definition serializeFunc (bin_file : list byte) (f : Function) (ver : Z)
    (custom_opsets : list (string * OpSet)) (deterministic : bool)
  : result xml_node * list byte :=
  let version := ver in
  let version :=
    match f_rt_version f with
    | Some version_var => version_var
    | None => version
    end in
  if negb (version =? ver)%Z && negb (ver =? UNSPECIFIED)%Z
  then (Raise (ngraph_error "Cannot serialize function to incompatible IR version"),
        bin_file)
  else
    let version := if (version =? UNSPECIFIED)%Z then IR_V11 else version in
    if negb (version =? IR_V10)%Z && negb (version =? IR_V11)%Z
    then (Raise (ngraph_error "Unsupported version"), bin_file)
    else
      let constant_write_handler := new bin_file true in
      let done := ngfunction_2_ir "net" f custom_opsets version deterministic
                    constant_write_handler in
      (done.1, m_binary_output done.2).

(** The files of the host: path to contents.  An XML file holds the saved
    document. *)
Inductive file_content : Type :=
| FileBytes (bytes : list byte)
| FileXml (document : xml_node).

(** [pass::Serialize::run_on_function] with output paths.  [can_open] tells
    which paths an [std::ofstream] can be opened on; opening creates or
    truncates the file. *)
Definition run_on_function (can_open : string → bool)
    (m_xmlPath m_binPath : string) (m_version : Z)
    (m_custom_opsets : list (string * OpSet)) (f : Function)
    (files : gmap string file_content)
  : result bool * gmap string file_content :=
  if negb (can_open m_binPath)
  then (Raise (CheckFailure ("Can't open bin file: " +:+ m_binPath)), files)
  else
    let files := <[m_binPath := FileBytes []]> files in
    (* create xml file *)
    if negb (can_open m_xmlPath)
    then (Raise (CheckFailure ("Can't open xml file: " +:+ m_xmlPath)), files)
    else
      let files := <[m_xmlPath := FileBytes []]> files in
      match serializeFunc [] f m_version m_custom_opsets false with
      | (Ok document, bin) =>
          (* Return false because we didn't change nGraph Function *)
          (Ok false, <[m_xmlPath := FileXml document]> (<[m_binPath := FileBytes bin]> files))
      | (Raise e, bin) =>
          if is_CheckFailure e
          then (Raise e, delete m_binPath (delete m_xmlPath files))
          else (Raise e, <[m_binPath := FileBytes bin]> files)
      end.

(** *** The output paths of [pass::Serialize] *)

Definition quote : string := String (Ascii.ascii_of_nat 34) EmptyString.

(** [std::string::rfind(pattern)] on the rest [s] of a string that starts
    at position [pos]: the position of the last occurrence, [None] for
    [npos]. *)
Fixpoint rfind_from (pattern s : string) (pos : nat) : option nat :=
  match s with
  | EmptyString => if String.prefix pattern s then Some pos else None
  | String _ rest =>
      match rfind_from pattern rest (S pos) with
      | Some found => Some found
      | None => if String.prefix pattern s then Some pos else None
      end
  end.

Definition rfind (pattern s : string) : option nat := rfind_from pattern s 0.

Definition valid_xml_path (path : string) : result string :=
  rlet long_enough :=
    ngraph_check (Nat.ltb 4 (String.length path))
      ("Path for xml file is to short: " +:+ quote +:+ path +:+ quote) in
  let extension := ".xml" in
  let has_xml_extension :=
    bool_decide (rfind extension path
                 = Some (String.length path - String.length extension)%nat) in
  rlet has_extension :=
    ngraph_check has_xml_extension
      ("Path for xml file doesn't contains file name with 'xml' extension: "
       +:+ quote +:+ path +:+ quote) in
  Ok path.

(** [provide_bin_path]; the source asserts [xmlPath.size() > 4], which
    [valid_xml_path] has checked before.  [bestPath.replace(pos, n, s)]
    with [pos + n] the size of [bestPath] keeps the first [pos]
    characters and appends [s]. *)
Definition provide_bin_path (xmlPath binPath : string) : string :=
  if negb (String.eqb binPath "") then binPath
  else
    let bestPath := xmlPath in
    let extension := "bin" in
    let ext_size := String.length extension in
    String.substring 0 (String.length bestPath - ext_size) bestPath +:+ extension.

(** [pass::Serialize::Serialize(xmlPath, binPath, ...)]: the members
    [m_xmlPath] and [m_binPath], initialised in this order. *)
Definition Serialize_paths (xmlPath binPath : string) : result (string * string) :=
  rlet m_xmlPath := valid_xml_path xmlPath in
  let m_binPath := provide_bin_path xmlPath binPath in
  Ok (m_xmlPath, m_binPath).

(** *** [pass::StreamSerialize]: one stream for header, custom data,
    constants and document *)

(** Modelled from the spec: the header of the streaming container, its
    fields in the order in which they are written, each an offset or a
    size in bytes (a [size_t]).  The structure is declared in a header
    that is not part of the sources at hand. *)
Record DataHeader : Type := mkDataHeader {
  custom_data_offset : Z;
  custom_data_size : Z;
  consts_offset : Z;
  consts_size : Z;
  model_offset : Z;
  model_size : Z
}.

(** The [n] low bytes of a value in little-endian memory. *)
Fixpoint store_bytes (n : nat) (z : Z) : list byte :=
  match n with
  | O => []
  | S n =>
      default Byte.x00 (Byte.of_N (Z.to_N (z mod 256))) :: store_bytes n (z / 256)
  end.

Definition store_size_t (z : Z) : list byte := store_bytes cel_size z.

(** The object representation [(const char* )&hdr], [sizeof hdr] bytes. *)
Definition header_bytes (hdr : DataHeader) : list byte :=
  store_size_t (custom_data_offset hdr) ++ store_size_t (custom_data_size hdr)
  ++ store_size_t (consts_offset hdr) ++ store_size_t (consts_size hdr)
  ++ store_size_t (model_offset hdr) ++ store_size_t (model_size hdr).

Definition sizeof_hdr : nat := 6 * cel_size.

(** [m_stream.seekp(pos); writeHeader(hdr)]: the bytes at [pos] are
    replaced, the stream grows when they reach past its end. *)
Definition writeHeader (hdr : DataHeader) (pos : nat) (m_stream : list byte)
  : list byte :=
  take pos m_stream ++ header_bytes hdr ++ drop (pos + sizeof_hdr) m_stream.

(** [StreamSerialize::StreamSerialize]: the check of the constructor. *)
Definition StreamSerialize_new (version : Z) : result unit :=
  if negb (version =? UNSPECIFIED)%Z && negb (version =? IR_V10)%Z
     && negb (version =? IR_V11)%Z
  then Raise (ngraph_error "Unsupported version")
  else Ok tt.

Section StreamSerialize.
(** [xml_doc.save(m_stream)]: the bytes pugixml prints for a document. *)
Variable save : xml_node → list byte.

(** [StreamSerialize::run_on_function].  The stream is written from its
    end ([tellp] is its length); [m_custom_data_serializer], when set,
    appends the bytes [data]. *)
Definition StreamSerialize_run_on_function (m_version : Z)
    (m_custom_opsets : list (string * OpSet))
    (m_custom_data_serializer : option (list byte)) (f : Function)
    (m_stream : list byte) : result bool * list byte :=
  let hdr := mkDataHeader 0 0 0 0 0 0 in
  let version := m_version in
  let version :=
    match f_rt_version f with
    | Some version_var => version_var
    | None => version
    end in
  if negb (version =? m_version)%Z && negb (m_version =? UNSPECIFIED)%Z
  then (Raise (ngraph_error "Cannot serialize function to incompatible IR version"),
        m_stream)
  else
    let version := if (version =? UNSPECIFIED)%Z then IR_V11 else version in
    (* Header *)
    let header_offset := length m_stream in
    let m_stream := writeHeader hdr header_offset m_stream in
    (* Custom data *)
    let hdr_custom_data_offset := length m_stream in
    let m_stream :=
      match m_custom_data_serializer with
      | Some data => m_stream ++ data
      | None => m_stream
      end in
    (* Blobs *)
    let hdr_consts_offset := length m_stream in
    let constant_write_handler := new m_stream true in
    match ngfunction_2_ir "net" f m_custom_opsets version false
            constant_write_handler with
    | (Raise e, written) => (Raise e, m_binary_output written)
    | (Ok xml_doc, written) =>
        let m_stream := m_binary_output written in
        (* IR *)
        let hdr_model_offset := length m_stream in
        let m_stream := m_stream ++ save xml_doc in
        let file_size := length m_stream in
        let hdr :=
          mkDataHeader (Z.of_nat hdr_custom_data_offset)
            (Z.of_nat hdr_consts_offset - Z.of_nat hdr_custom_data_offset)
            (Z.of_nat hdr_consts_offset)
            (Z.of_nat hdr_model_offset - Z.of_nat hdr_consts_offset)
            (Z.of_nat hdr_model_offset)
            (Z.of_nat file_size - Z.of_nat hdr_model_offset) in
        let m_stream := writeHeader hdr header_offset m_stream in
        (* Return false because we didn't change nGraph Function *)
        (Ok false, m_stream)
    end.

End StreamSerialize.

(** *** Reading the written document back *)

Fixpoint has_element (name : string) (x : xml_node) : bool :=
  match x with
  | Element n _ children => String.eqb n name || existsb (has_element name) children
  | PCData _ => false
  end.

Definition id_attribute (x : xml_node) : option string :=
  attribute "id" (xml_attributes x).

(** The ports of the [input] or [output] block of a layer. *)
Definition block_ports (block : string) (layer : xml_node) : list xml_node :=
  match child block layer with
  | Some b => xml_children b
  | None => []
  end.

(** The inputs that get a port, with their index: all but the peephole
    input (index 6) of a version-0 LSTMCell. *)
Fixpoint serialized_inputs (is_lstm : bool) (index : nat) (inputs : list Input)
  : list (nat * Input) :=
  match inputs with
  | [] => []
  | i :: inputs =>
      if Nat.eqb index 6 && is_lstm
      then serialized_inputs is_lstm (S index) inputs
      else (index, i) :: serialized_inputs is_lstm (S index) inputs
  end.

(** The outputs with their index. *)
Fixpoint indexed_outputs (index : nat) (outputs : list Output)
  : list (nat * Output) :=
  match outputs with
  | [] => []
  | o :: outputs => (index, o) :: indexed_outputs (S index) outputs
  end.

(** [port] is a port element numbered [id] that holds the dimensions of
    [shape], followed by the children [rt]. *)
Definition port_of (id : nat) (shape : Slice.PartialShape) (rt : list xml_node)
    (port : xml_node) : Prop :=
  xml_name port = "port"
  ∧ id_attribute port = Some (to_string (Z.of_nat id))
  ∧ xml_children port = dim_nodes shape ++ rt.

(** [layer] is a layer element written for [node]: it carries the layer
    id of the node and the blocks computed from its inputs and outputs. *)
Definition written_layer (layer_ids : gmap nat nat) (version : Z) (node : Node)
    (layer : xml_node) : Prop :=
  ∃ id attrs data rt inputs port_id output,
    layer_ids !! node_ptr node = Some id
    ∧ layer = Element "layer" attrs
                (layer_children (get_type_name node) data rt inputs output)
    ∧ attribute "id" attrs = Some (to_string (Z.of_nat id))
    ∧ versioned_runtime_info version (node_rt_info node) = Ok rt
    ∧ input_block version node = Ok (inputs, port_id)
    ∧ output_block version node port_id = Ok output.

(** [layer] is the layer element carrying the layer id of [node]. *)
Definition layer_for (f : Function) (node : Node) (layer : xml_node) : Prop :=
  xml_name layer = "layer"
  ∧ ∃ id, create_layer_ids f !! node_ptr node = Some id
          ∧ id_attribute layer = Some (to_string (Z.of_nat id)).

(** The ports of [layer] are those of the serialized inputs and of the
    outputs of [node]; [rt_of] gives the children a port holds after its
    dimensions. *)
Definition layer_ports (rt_of : RTMap → list xml_node → Prop) (node : Node)
    (layer : xml_node) : Prop :=
  Forall2 (λ ki port, ∃ rt, rt_of (in_rt_info ki.2) rt
                            ∧ port_of ki.1 (in_partial_shape ki.2) rt port)
    (serialized_inputs (is_LSTMCell_v0 node) 0 (node_inputs node))
    (block_ports "input" layer)
  ∧ Forall2 (λ ko port, ∃ rt, rt_of (out_rt_info ko.2) rt
                              ∧ port_of ko.1 (out_partial_shape ko.2) rt port)
      (if is_output node then []
       else indexed_outputs (get_input_size node) (node_outputs node))
      (block_ports "output" layer).

(** Ports with embedded runtime info, and ports without. *)
Definition embedded_rt_info (rt_info : RTMap) (rt : list xml_node) : Prop :=
  append_runtime_info rt_info = Ok rt.
Definition no_rt_info (rt_info : RTMap) (rt : list xml_node) : Prop := rt = [].

(** Interior nodes: neither parameter nor result nor sink. *)
Definition interior_ops (f : Function) : list Node :=
  filter (λ node, is_parameter node = false ∧ is_output node = false
                  ∧ is_sink node = false) (f_ordered_ops f).

(** Where an edge comes from: the input [index] of a consumer that is not
    a parameter reads output [in_source_index] of [source]. *)
Definition edge_of (layer_ids : gmap nat nat) (ops : list Node) (e : Edge) : Prop :=
  ∃ consumer i source,
    consumer ∈ ops ∧ is_parameter consumer = false
    ∧ node_inputs consumer !! to_port e = Some i
    ∧ node_at (in_source_node i) ops = Some source
    ∧ layer_ids !! in_source_node i = Some (from_layer e)
    ∧ from_port e = (get_input_size source + in_source_index i)%nat
    ∧ layer_ids !! node_ptr consumer = Some (to_layer e).

(** Well-formed graphs: nodes have distinct addresses, every input reads
    an output that exists, and the declared parameters and sinks cover the
    nodes of those classes. *)
Definition reads_existing_output (ops : list Node) (i : Input) : Prop :=
  match node_at (in_source_node i) ops with
  | Some source => (in_source_index i < get_output_size source)%nat
  | None => True
  end.

Global Instance reads_existing_output_dec ops i :
  Decision (reads_existing_output ops i).
Proof. unfold reads_existing_output. destruct (node_at _ _); apply _. Defined.

Record well_formed_function (f : Function) : Prop := {
  wf_identity : NoDup (node_ptr <$> f_ordered_ops f);
  wf_outputs :
    Forall (λ consumer,
      Forall (λ i,
        reads_existing_output (f_ordered_ops f) i) (node_inputs consumer))
      (f_ordered_ops f);
  wf_parameters :
    Forall (λ n, is_parameter n = true → n ∈ f_parameters f) (f_ordered_ops f);
  wf_sinks :
    Forall (λ n, is_sink n = true → n ∈ f_sinks f) (f_ordered_ops f)
}.

Global Instance well_formed_function_dec (f : Function) :
  Decision (well_formed_function f).
Proof.
  destruct (decide (
    NoDup (node_ptr <$> f_ordered_ops f)
    ∧ Forall (λ consumer,
        Forall (λ i,
          reads_existing_output (f_ordered_ops f) i) (node_inputs consumer))
        (f_ordered_ops f)
    ∧ Forall (λ n, is_parameter n = true → n ∈ f_parameters f) (f_ordered_ops f)
    ∧ Forall (λ n, is_sink n = true → n ∈ f_sinks f) (f_ordered_ops f)))
    as [H|H]; [left|right].
  - by destruct H as (? & ? & ? & ?).
  - intros [? ? ? ?]. by apply H.
Defined.

(** The layers and the edges of a written document. *)
Definition document_layers (net : xml_node) : list xml_node :=
  match child "layers" net with Some l => xml_children l | None => [] end.
Definition document_edges (net : xml_node) : list xml_node :=
  match child "edges" net with Some l => xml_children l | None => [] end.

Definition layer_with_id (id : string) (net : xml_node) : option xml_node :=
  List.find (λ layer, bool_decide (id_attribute layer = Some id))
    (document_layers net).

(** A graph in which the output of a Result is read again:
    Parameter -> Result -> Relu -> Result. *)
Definition example_shape : Slice.PartialShape :=
  Slice.Ranked [Slice.mkDimension 1 1; Slice.mkDimension 3 3].
Definition example_output : Output := mkOutput f32 example_shape [] [].
Definition example_input (source : nat) : Input :=
  mkInput source 0 f32 example_shape [].
Definition result_feeding_graph : Function :=
  let p := mkNode 1 "Parameter_1" None ParameterOp "Parameter" 0 (Some "opset1")
             [] [example_output] [] [] true in
  let r1 := mkNode 2 "Result_2" None ResultOp "Result" 0 (Some "opset1")
              [example_input 1] [example_output] [] [] true in
  let x := mkNode 3 "Relu_3" None OtherOp "Relu" 0 (Some "opset1")
             [example_input 2] [example_output] [] [] true in
  let r2 := mkNode 4 "Result_4" None ResultOp "Result" 0 (Some "opset1")
              [example_input 3] [example_output] [] [] true in
  mkFunction "Function_5" None [p; r1; x; r2] [p] [] [r1; r2] None.

(** A graph around a version-0 LSTMCell whose seven inputs read one
    parameter: Parameter -> LSTMCell -> two Results. *)
Definition lstm_node : Node :=
  mkNode 2 "LSTMCell_2" (Some "cell") LSTMCell_v0 "LSTMCell" 0 (Some "opset1")
    (replicate 7 (example_input 1)) [example_output; example_output] []
    [("hidden_size", AdInt64 3)] true.
Definition lstm_graph : Function :=
  let p := mkNode 1 "Parameter_1" None ParameterOp "Parameter" 0 (Some "opset1")
             [] [example_output] [] [] true in
  let r1 := mkNode 3 "Result_3" None ResultOp "Result" 0 (Some "opset1")
              [mkInput 2 0 f32 example_shape []] [example_output] [] [] true in
  let r2 := mkNode 4 "Result_4" None ResultOp "Result" 0 (Some "opset1")
              [mkInput 2 1 f32 example_shape []] [example_output] [] [] true in
  mkFunction "Function_5" None [p; lstm_node; r1; r2] [p] [] [r1; r2] None.

(** The same graph built a second time: other addresses, other instance
    ids in the unique names; the friendly name "cell" was set by hand. *)
Definition relabelled_lstm_graph : Function :=
  let p := mkNode 11 "Parameter_21" None ParameterOp "Parameter" 0 (Some "opset1")
             [] [example_output] [] [] true in
  let c := mkNode 12 "LSTMCell_22" (Some "cell") LSTMCell_v0 "LSTMCell" 0
             (Some "opset1") (replicate 7 (example_input 11))
             [example_output; example_output] [] [("hidden_size", AdInt64 3)] true in
  let r1 := mkNode 13 "Result_23" None ResultOp "Result" 0 (Some "opset1")
              [mkInput 12 0 f32 example_shape []] [example_output] [] [] true in
  let r2 := mkNode 14 "Result_24" None ResultOp "Result" 0 (Some "opset1")
              [mkInput 12 1 f32 example_shape []] [example_output] [] [] true in
  mkFunction "Function_25" None [p; c; r1; r2] [p] [] [r1; r2] None.

(** Two parameters that were given the same friendly name. *)
Definition same_name_graph : Function :=
  let p1 := mkNode 1 "Parameter_1" (Some "data") ParameterOp "Parameter" 0
              (Some "opset1") [] [example_output] [] [] true in
  let p2 := mkNode 2 "Parameter_2" (Some "data") ParameterOp "Parameter" 0
              (Some "opset1") [] [example_output] [] [] true in
  mkFunction "Function_3" None [p1; p2] [p1; p2] [] [] None.

(** Constant -> Result, the constant holding four bytes. *)
Definition constant_node : Node :=
  mkNode 1 "Constant_1" None OtherOp "Constant" 0 (Some "opset1") []
    [mkOutput u8 (Slice.Ranked [Slice.mkDimension 4 4]) [] []] []
    [("element_type", AdString "u8"); ("shape", AdIntVector [4%Z]);
     ("value", AdAlignedBuffer [Byte.x01; Byte.x02; Byte.x03; Byte.x04])] true.
Definition constant_graph : Function :=
  let r := mkNode 2 "Result_2" None ResultOp "Result" 0 (Some "opset1")
             [mkInput 1 0 u8 (Slice.Ranked [Slice.mkDimension 4 4]) []]
             [mkOutput u8 (Slice.Ranked [Slice.mkDimension 4 4]) [] []] [] [] true in
  mkFunction "Function_3" None [constant_node; r] [] [] [r] None.

(** A Result whose input reads a node that is not among the operations
    of the function. *)
Definition dangling_graph : Function :=
  let r := mkNode 2 "Result_2" None ResultOp "Result" 0 (Some "opset1")
             [example_input 7] [example_output] [] [] true in
  mkFunction "Function_3" None [r] [] [] [r] None.

(** A graph that carries execution statistics: its only node has the
    runtime attributes [execTimeMcs] and [layerType]. *)
Definition exec_graph_example : Function :=
  let p := mkNode 1 "Parameter_1" (Some "in") ParameterOp "Parameter" 0
             (Some "opset1") [] [example_output]
             [("execTimeMcs", mkVariant "execTimeMcs" "0" (Some "12") [] false);
              ("layerType", mkVariant "layerType" "0" (Some "Input") [] false)]
             [] true in
  mkFunction "Function_2" None [p] [p] [] [] None.

(** *** What the serializer does to the binary stream *)

(** The stream is changed through [ConstantWriter::write] only. *)
Definition only_writes {A} (m : M A) : Prop :=
  ∀ w r w', m w = (r, w') → ∃ ps, w' = (write_all w ps).2.

(** The same writer in front of a stream that already holds [pre]. *)
Definition shifted (pre : list byte) (w1 w2 : ConstantWriter) : Prop :=
  m_hash_to_file_positions w1 = m_hash_to_file_positions w2
  ∧ m_enable_compression w1 = m_enable_compression w2
  ∧ m_binary_output w1 = pre ++ m_binary_output w2
  ∧ m_blob_offset w1 = (Z.of_nat (length pre) + m_blob_offset w2)%Z.

Definition shift_invariant {A} (m : M A) : Prop :=
  ∀ pre w1 w2, shifted pre w1 w2 →
    (m w1).1 = (m w2).1 ∧ shifted pre (m w1).2 (m w2).2.

(** An attribute that is visited before the value of a constant and
    leaves the [offset] and [size] attributes alone. *)
Definition plain_adapter (na : string * Adapter) : Prop :=
  na.1 ≠ "offset" ∧ na.1 ≠ "size" ∧ na.1 ≠ "value"
  ∧ ∀ type_name opset_name attrs,
      na.2 ≠ AdFrameworkNodeAttrs type_name opset_name attrs.

(** The [data] element of [layer] designates the bytes [payload] in the
    stream of [w]. *)
Definition constant_at (w : ConstantWriter) (payload : list byte)
    (layer : xml_node) : Prop :=
  ∃ data o,
    child "data" layer = Some (Element "data" data [])
    ∧ attribute "offset" data = Some (to_string o)
    ∧ attribute "size" data = Some (to_string (Z.of_nat (length payload)))
    ∧ (0 ≤ o)%Z ∧ (o + Z.of_nat (length payload) ≤ end_offset w)%Z
    ∧ payload_at w o (length payload) = payload.

(** Splitting a [names] attribute at the delimiters that are not escaped;
    [current] is the name read so far. *)
Fixpoint split_names_from (s current : string) : list string :=
  match s with
  | EmptyString => [current]
  | String c rest =>
      if Ascii.eqb c backslash then
        match rest with
        | String c2 rest2 =>
            if Ascii.eqb c2 comma
            then split_names_from rest2 (current +:+ String comma EmptyString)
            else split_names_from rest (current +:+ String c EmptyString)
        | EmptyString => [current +:+ String c EmptyString]
        end
      else if Ascii.eqb c comma then current :: split_names_from rest EmptyString
      else split_names_from rest (current +:+ String c EmptyString)
  end.

Definition split_names (names : string) : list string :=
  if String.eqb names "" then [] else split_names_from names "".

(** The document of a run, when there is one. *)
Definition document_of (run : result xml_node * ConstantWriter) : xml_node :=
  match run.1 with
  | Ok net => net
  | Raise _ => PCData ""
  end.

(** *** Structurally identical graphs

    Two graphs built alike may differ in the addresses of their nodes
    ([sigma] maps the addresses of the first to those of the second), in
    the unique names derived from the instance ids, and in the names that
    are auto-generated. *)
Record input_rel (sigma : nat → nat) (i1 i2 : Input) : Prop := {
  ir_source : in_source_node i2 = sigma (in_source_node i1);
  ir_index : in_source_index i2 = in_source_index i1;
  ir_type : in_element_type i2 = in_element_type i1;
  ir_shape : in_partial_shape i2 = in_partial_shape i1;
  ir_rt_info : in_rt_info i2 = in_rt_info i1
}.

Record node_rel (sigma : nat → nat) (n1 n2 : Node) : Prop := {
  nr_ptr : node_ptr n2 = sigma (node_ptr n1);
  nr_class : node_class n2 = node_class n1;
  nr_type_name : type_info_name n2 = type_info_name n1;
  nr_type_version : type_info_version n2 = type_info_version n1;
  nr_type_version_id : type_info_version_id n2 = type_info_version_id n1;
  nr_inputs : Forall2 (input_rel sigma) (node_inputs n1) (node_inputs n2);
  nr_outputs : node_outputs n2 = node_outputs n1;
  nr_rt_info : node_rt_info n2 = node_rt_info n1;
  nr_adapters : node_adapters n2 = node_adapters n1;
  nr_visitable : node_visitable n2 = node_visitable n1;
  nr_auto : is_name_auto_generated n2 = is_name_auto_generated n1;
  nr_name : is_name_auto_generated n1 = false →
            get_friendly_name n2 = get_friendly_name n1
}.

Record function_rel (sigma : nat → nat) (f1 f2 : Function) : Prop := {
  fr_ordered_ops : Forall2 (node_rel sigma) (f_ordered_ops f1) (f_ordered_ops f2);
  fr_parameters : Forall2 (node_rel sigma) (f_parameters f1) (f_parameters f2);
  fr_sinks : Forall2 (node_rel sigma) (f_sinks f1) (f_sinks f2);
  fr_results : Forall2 (node_rel sigma) (f_results f1) (f_results f2);
  fr_rt_version : f_rt_version f2 = f_rt_version f1;
  fr_auto : f_is_name_auto_generated f2 = f_is_name_auto_generated f1;
  fr_name : f_is_name_auto_generated f1 = false →
            f_get_friendly_name f2 = f_get_friendly_name f1
}.

(** The same layer ids under the renaming of the addresses. *)
Definition ids_rel (sigma : nat → nat) (m1 m2 : gmap nat nat) : Prop :=
  ∀ p, m2 !! sigma p = m1 !! p.

(** A function without operations, with the given version hint. *)
Definition empty_function (version_hint : option Z) : Function :=
  mkFunction "Function_0" None [] [] [] [] version_hint.

End Serializer.

Module AddFQFusion.
Import Serializer.

(** The operation classes the callback asks for with [dynamic_pointer_cast]
    and [is_type]. *)
Inductive OpKind : Type :=
| FakeQuantize | Constant | Add | Subtract | Reshape
| Convolution | GroupConvolution | ConvolutionBackpropData
| GroupConvolutionBackpropData | MatMul | Concat | OtherKind.

Global Instance OpKind_eq_dec : EqDecision OpKind.
Proof. solve_decision. Defined.

Section callback.
(** [V] stands for the values held by constants. *)
Context {V : Type}.

(** A node of the graph under rewriting.  An input is the [Output<Node>]
    it reads: the id of the producer and the index of its output. *)
Record GNode : Type := mkGNode {
  gn_kind : OpKind;
  gn_inputs : list (nat * nat);
  gn_element_type : Type_t;
  gn_shape : list nat;              (* get_shape() *)
  gn_rank : option nat;             (* rank of the output shape, if static *)
  gn_data : list V;                 (* the values of a Constant *)
  gn_levels : nat;                  (* get_levels() of a FakeQuantize *)
  gn_friendly_name : string;
  gn_rt_info : list string
}.

(** The graph: the nodes by id, and the process-wide instance counter. *)
Record Graph : Type := mkGraph {
  g_nodes : gmap nat GNode;
  g_next_id : nat
}.

(** The values bound by the matcher: [pattern_value_map.at(...)]. *)
Record Match : Type := mkMatch {
  pm_input : nat * nat;
  pm_const : nat * nat;
  pm_add : nat * nat;
  pm_fq : nat * nat
}.

(** Code of the repository that is not among the sources at hand; the
    callback is modelled for any behaviour of these. *)
Variable bitwidth : Type_t → nat.
Variable get_single_value : GNode → option V.
Variable u64_values : list nat → list V.
Variable get_constant_from_source : nat → Graph → option nat * Graph.
Variable copy_runtime_info : list nat → list nat → Graph → Graph.
Variable replace_node : nat → nat → Graph → Graph.

Definition get_node (id : nat) : ST Graph GNode :=
  λ g, match g_nodes g !! id with
       | Some n => (Ok n, g)
       | None => (Raise (ngraph_error "dangling node"), g)
       end.

(** [std::make_shared<T>(...)]: the node takes the next instance id. *)
Definition make_node (n : GNode) : ST Graph nat :=
  λ g, (Ok (g_next_id g),
        mkGraph (<[g_next_id g := n]> (g_nodes g)) (S (g_next_id g))).

Definition update (f : Graph → Graph) : ST Graph unit := λ g, (Ok tt, f g).

Definition shape_size (shape : list nat) : nat := foldr Nat.mul 1%nat shape.

Definition is_conv_or_mm (k : OpKind) : bool :=
  match k with
  | Convolution | GroupConvolution | ConvolutionBackpropData
  | GroupConvolutionBackpropData | MatMul => true
  | _ => false
  end.

(** [std::any_of] over [add_node->input_values()]. *)
Definition add_parent_is_conv_or_mm (g : Graph) (add_node : GNode) : bool :=
  existsb (λ node, match g_nodes g !! node.1 with
                   | Some n => is_conv_or_mm (gn_kind n)
                   | None => false
                   end) (gn_inputs add_node).

(** [std::any_of] over [fq->get_users()]: the nodes reading an output of
    the FakeQuantize [fq]. *)
Definition fq_user_is_concat (g : Graph) (fq : nat) : bool :=
  existsb (λ entry, existsb (λ i, Nat.eqb i.1 fq) (gn_inputs entry.2)
                    && bool_decide (gn_kind entry.2 = Concat))
    (map_to_list (g_nodes g)).

Definition input_value (n : GNode) (index : nat) : ST Graph (nat * nat) :=
  match gn_inputs n !! index with
  | Some v => ret v
  | None => throw (ngraph_error "input index out of range")
  end.

(** The tail of the callback, from [input_low_sub] on. *)
Definition fuse (m : Match) (fq add_const : GNode) (new_const : nat)
  : ST Graph bool :=
  let input := pm_input m in
  mlet low := input_value fq 1 in
  mlet input_low_sub :=
    make_node (mkGNode Subtract [low; (new_const, 0%nat)] (gn_element_type fq)
                 [] None [] 0 "" []) in
  mlet folded_low := (λ g, let r := get_constant_from_source input_low_sub g in
                           (Ok r.1, r.2)) in
  let new_input_low := default input_low_sub folded_low in
  mlet high := input_value fq 2 in
  mlet input_high_sub :=
    make_node (mkGNode Subtract [high; (new_const, 0%nat)] (gn_element_type fq)
                 [] None [] 0 "" []) in
  mlet folded_high := (λ g, let r := get_constant_from_source input_high_sub g in
                            (Ok r.1, r.2)) in
  let new_input_high := default input_high_sub folded_high in
  mlet output_low := input_value fq 3 in
  mlet output_high := input_value fq 4 in
  mlet new_fq :=
    make_node (mkGNode FakeQuantize
                 [input; (new_input_low, 0%nat); (new_input_high, 0%nat);
                  output_low; output_high]
                 (gn_element_type fq) (gn_shape fq) (gn_rank fq) []
                 (gn_levels fq) (gn_friendly_name fq) []) in
  mlet copied := update (copy_runtime_info [(pm_add m).1; (pm_fq m).1]
                           [new_input_low; new_input_high; new_fq]) in
  mlet replaced := update (replace_node (pm_fq m).1 new_fq) in
  ret true.

(** The matcher callback of [AddFakeQuantizeFusion]. *)
Definition callback (m : Match) : ST Graph bool :=
  mlet input := get_node (pm_input m).1 in
  let type := gn_element_type input in
  if Nat.ltb (bitwidth type) (bitwidth f32) then ret false
  else
    mlet fq := get_node (pm_fq m).1 in
    if negb (bool_decide (gn_kind fq = FakeQuantize)) then ret false
    else
      mlet add_node := get_node (pm_add m).1 in
      mlet add_const := get_node (pm_const m).1 in
      if negb (bool_decide (gn_kind add_const = Constant)) then ret false
      else
        let const_shape := gn_shape add_const in
        let const_shape_size := shape_size const_shape in
        let is_single_value := Nat.eqb const_shape_size 1 in
        mlet single :=
          (if negb is_single_value then
             match get_single_value add_const with
             | Some v =>
                 mlet new_const :=
                   make_node (mkGNode Constant [] (gn_element_type add_const)
                                [1%nat] (Some 1%nat) [v] 0 "" []) in
                 ret (new_const, true)
             | None => ret ((pm_const m).1, false)
             end
           else ret ((pm_const m).1, true)) in
        let new_const := single.1 in
        let is_single_value := single.2 in
        if negb is_single_value then
          (* disallow constant shapes other than (N, 1, 1, ..., 1) or (1, C, 1, ..., 1) *)
          if negb (Nat.ltb 1 (nth 0 const_shape 0%nat)
                   && Nat.eqb (nth 0 const_shape 0%nat) const_shape_size)
             && negb (Nat.ltb 1 (length const_shape)
                      && Nat.eqb (nth 1 const_shape 0%nat) const_shape_size)
          then ret false
          else
            (* Convolution+Add or MatMul+Add can be fused later
               so don't fuse Add+FQ in that situation *)
            mlet conv_parent := (λ g, (Ok (add_parent_is_conv_or_mm g add_node), g)) in
            if (conv_parent : bool) then ret false
            else
              (* Concat LPT transformation supports per tensor quantization only *)
              mlet concat_user := (λ g, (Ok (fq_user_is_concat g (pm_fq m).1), g)) in
              if (concat_user : bool) then ret false
              else
                mlet fq_input := input_value fq 0 in
                mlet producer := get_node fq_input.1 in
                match gn_rank producer with
                | None => throw (ngraph_error "Cannot get length of dynamic dimension")
                | Some rank =>
                    let diff := (Z.of_nat rank - Z.of_nat (length const_shape))%Z in
                    if (0 <? diff)%Z then
                      (* Reshape constants like (C, 1, 1) to (1, C, 1, 1) *)
                      let const_shape := replicate (Z.to_nat diff) 1%nat ++ const_shape in
                      mlet target :=
                        make_node (mkGNode Constant [] u64 [length const_shape]
                                     (Some 1%nat) (u64_values const_shape) 0 "" []) in
                      mlet reshaped :=
                        make_node (mkGNode Reshape
                                     [(new_const, 0%nat); (target, 0%nat)]
                                     (gn_element_type add_const) const_shape
                                     (Some (length const_shape)) [] 0 "" []) in
                      fuse m fq add_const reshaped
                    else fuse m fq add_const new_const
                end
        else fuse m fq add_const new_const.

End callback.

(** *** An instance: integer constants, helpers that fold nothing *)

Definition example_bitwidth (t : Type_t) : nat :=
  match t with
  | undefined | dynamic => 0
  | u1 => 1
  | i4 | u4 => 4
  | boolean | i8 | u8 => 8
  | bf16 | f16 | i16 | u16 => 16
  | f32 | i32 | u32 => 32
  | f64 | i64 | u64 => 64
  end%nat.

Definition example_get_single_value (n : @GNode Z) : option Z :=
  match gn_data n with
  | [] => None
  | v :: rest => if forallb (Z.eqb v) rest then Some v else None
  end.

Definition example_replace_node (target replacement : nat) (g : @Graph Z)
  : @Graph Z :=
  mkGraph
    ((λ n, mkGNode (gn_kind n)
             ((λ i : nat * nat, if Nat.eqb i.1 target then (replacement, i.2) else i)
                <$> gn_inputs n)
             (gn_element_type n) (gn_shape n) (gn_rank n) (gn_data n)
             (gn_levels n) (gn_friendly_name n) (gn_rt_info n))
       <$> g_nodes g)
    (g_next_id g).

Definition example_callback : Match → ST (@Graph Z) bool :=
  callback example_bitwidth example_get_single_value (map Z.of_nat)
    (λ _ g, (None, g)) (λ _ _ g, g) example_replace_node.

(** input -> Add(input, const) -> FakeQuantize, the constant of shape
    [shape] holding [data]. *)
Definition example_graph (shape : list nat) (data : list Z) : @Graph Z :=
  mkGraph
    (list_to_map
       [(0%nat, mkGNode OtherKind [] f32 [1; 6]%nat (Some 2%nat) [] 0 "input" []);
        (1%nat, mkGNode Constant [] f32 shape (Some (length shape)) data 0 "const" []);
        (2%nat, mkGNode Add [(0, 0); (1, 0)]%nat f32 [1; 6]%nat (Some 2%nat) [] 0 "add" []);
        (3%nat, mkGNode FakeQuantize [(2, 0); (0, 0); (0, 0); (0, 0); (0, 0)]%nat
                  f32 [1; 6]%nat (Some 2%nat) [] 256 "fq" ["fused"])])
    4.

Definition example_match : Match := mkMatch (0, 0)%nat (1, 0)%nat (2, 0)%nat (3, 0)%nat.

End AddFQFusion.

(** ** Inversion of the effectful combinators *)

Lemma rbind_ok {A B} (r : result A) (k : A → result B) (b : B) :
  rbind r k = Ok b → ∃ a, r = Ok a ∧ k a = Ok b.
Proof. destruct r as [a|e]; simpl; [eauto | discriminate]. Qed.

Lemma bind_ok {S A B} (m : ST S A) (k : A → ST S B) (w w' : S) (b : B) :
  bind m k w = (Ok b, w') → ∃ a w1, m w = (Ok a, w1) ∧ k a w1 = (Ok b, w').
Proof.
  unfold bind. destruct (m w) as [[a|e] w1]; [eauto | discriminate].
Qed.

Lemma lift_ok {S A} (r : result A) (w w' : S) (a : A) :
  lift r w = (Ok a, w') → r = Ok a ∧ w' = w.
Proof. unfold lift. by intros [= -> ->]. Qed.

Lemma ret_ok {S A} (x a : A) (w w' : S) :
  ret x w = (Ok a, w') → a = x ∧ w' = w.
Proof. unfold ret. by intros [= -> ->]. Qed.

Ltac inv_m :=
  repeat match goal with
  | H : bind _ _ _ = (Ok _, _) |- _ =>
      let a := fresh "a" in let w := fresh "w" in
      let H1 := fresh "Hstep" in let H2 := fresh "Hrest" in
      apply bind_ok in H as (a & w & H1 & H2)
  | H : rbind _ _ = Ok _ |- _ =>
      let a := fresh "a" in
      let H1 := fresh "Hstep" in let H2 := fresh "Hrest" in
      apply rbind_ok in H as (a & H1 & H2)
  | H : lift _ _ = (Ok _, _) |- _ =>
      let H1 := fresh "Hval" in apply lift_ok in H as [H1 ->]
  | H : ret _ _ = (Ok _, _) |- _ => apply ret_ok in H as [H ->]
  end.

Module SliceFacts.
Import Slice.
Local Open Scope Z_scope.

Lemma ceil_div_is_ceil (a b : Z) :
  b ≠ 0 → is_ceil_quotient (ceil_div a b) a (Z.abs b).
Proof.
  intros Hb. unfold is_ceil_quotient, ceil_div.
  assert (Hk : 0 < Z.abs b) by lia.
  generalize dependent (Z.abs b). intros k Hk.
  pose proof (Z.div_mod (a + k - 1) k ltac:(lia)) as Hdm.
  pose proof (Z.mod_pos_bound (a + k - 1) k Hk) as Hm.
  nia.
Qed.

Lemma get_sliced_dim_size_spec (start stop step dim_size : Z) :
  get_sliced_dim_size start stop step dim_size
  = ceil_div (spec_count start stop step dim_size) step.
Proof.
  unfold get_sliced_dim_size, spec_count, spec_clip, spec_normalize.
  f_equal.
  destruct (start <? 0) eqn:Hs, (stop <? 0) eqn:Ht, (step <? 0) eqn:Hp; lia.
Qed.

Lemma get_sliced_dim_size_nonneg (start stop step dim_size : Z) :
  step ≠ 0 → 0 ≤ get_sliced_dim_size start stop step dim_size.
Proof.
  intros Hstep. rewrite get_sliced_dim_size_spec.
  pose proof (ceil_div_is_ceil (spec_count start stop step dim_size) step Hstep) as [Hlo Hhi].
  assert (0 ≤ spec_count start stop step dim_size).
  { unfold spec_count. destruct (step <? 0); lia. }
  nia.
Qed.

(** The index vectors seen as one vector of quadruples. *)
Lemma zip_indices_lookup (starts stops steps axes : list Z) (i : nat) a b c d :
  starts !! i = Some a → stops !! i = Some b →
  steps !! i = Some c → axes !! i = Some d →
  zip_indices starts stops steps axes !! i = Some (mkSliceIndex a b c d).
Proof.
  revert stops steps axes i.
  induction starts as [|a' starts IH]; intros [|b' stops] [|c' steps] [|d' axes] [|i];
    simpl; try discriminate; try congruence.
  apply IH.
Qed.

Lemma zip_indices_axes (starts stops steps axes : list Z) :
  length stops = length starts → length steps = length starts →
  length axes = length starts →
  si_axis <$> zip_indices starts stops steps axes = axes.
Proof.
  revert stops steps axes.
  induction starts as [|a starts IH]; intros [|b stops] [|c steps] [|d axes];
    simpl; try discriminate; try done.
  intros H1 H2 H3. f_equal. apply IH; lia.
Qed.

Lemma zip_indices_steps (starts stops steps axes : list Z) :
  length stops = length starts → length steps = length starts →
  length axes = length starts →
  si_step <$> zip_indices starts stops steps axes = steps.
Proof.
  revert stops steps axes.
  induction starts as [|a starts IH]; intros [|b stops] [|c steps] [|d axes];
    simpl; try discriminate; try done.
  intros H1 H2 H3. f_equal. apply IH; lia.
Qed.

Lemma slice_loop_ok (dims : list Dimension) (ixs : list SliceIndex) :
  Forall (index_valid dims) ixs →
  ∀ out, slice_loop dims ixs out
         = Ok (foldl (λ o ix, <[axis_slot dims ix := axis_value dims ix]> o) out ixs).
Proof.
  induction 1 as [|ix ixs [Hax Hstep] _ IH]; intros out; simpl; [done|].
  replace (0 <=? _) with true by lia.
  replace (_ <? Z.of_nat (length dims)) with true by lia.
  replace (si_step ix =? 0) with false by lia.
  simpl. apply IH.
Qed.

Lemma foldl_insert_length (dims : list Dimension) (ixs : list SliceIndex) (out : list Dimension) :
  length (foldl (λ o ix, <[axis_slot dims ix := axis_value dims ix]> o) out ixs)
  = length out.
Proof.
  revert out. induction ixs as [|ix ixs IH]; intros out; simpl; [done|].
  rewrite IH. apply length_insert.
Qed.

Lemma foldl_insert_other (dims : list Dimension) (ixs : list SliceIndex) (out : list Dimension) (k : nat) :
  k ∉ axis_slot dims <$> ixs →
  foldl (λ o ix, <[axis_slot dims ix := axis_value dims ix]> o) out ixs !! k
  = out !! k.
Proof.
  revert out. induction ixs as [|ix ixs IH]; intros out Hk; simpl; [done|].
  rewrite fmap_cons in Hk. apply not_elem_of_cons in Hk as [Hne Hk].
  rewrite IH by done. by apply list_lookup_insert_ne.
Qed.

Lemma foldl_insert_at (dims : list Dimension) (ixs : list SliceIndex) (out : list Dimension) (i : nat) ix :
  NoDup (axis_slot dims <$> ixs) →
  ixs !! i = Some ix →
  (axis_slot dims ix < length out)%nat →
  foldl (λ o ix, <[axis_slot dims ix := axis_value dims ix]> o) out ixs
    !! axis_slot dims ix = Some (axis_value dims ix).
Proof.
  revert out i. induction ixs as [|ix' ixs IH]; intros out i Hnd Hi Hlen; [done|].
  rewrite fmap_cons in Hnd. apply NoDup_cons in Hnd as [Hnotin Hnd].
  destruct i as [|i]; simpl in *.
  - simplify_eq. rewrite foldl_insert_other by done.
    by apply list_lookup_insert_eq.
  - eapply IH; eauto. by rewrite length_insert.
Qed.

Lemma normalize_axis_in_range (rank axis : Z) :
  - rank ≤ axis < rank → 0 ≤ normalize_axis rank axis < rank.
Proof. unfold normalize_axis. destruct (axis <? 0) eqn:E; lia. Qed.

(** Shape of the result of a valid call: every listed axis holds the
    dimension the loop body computes from the input dimension, every other
    axis is the input dimension. *)
Lemma calculate_output_shape_valid (starts stops steps axes : list Z)
    (dims : list Dimension) :
  let rank := Z.of_nat (length dims) in
  length stops = length starts → length steps = length starts →
  length axes = length starts →
  Forall (λ s, s ≠ 0) steps →
  Forall (λ a, - rank ≤ a < rank) axes →
  NoDup (normalize_axis rank <$> axes) →
  ∃ out : list Dimension,
    calculate_output_shape starts stops steps axes (Ranked dims) = Ok (Ranked out)
    ∧ length out = length dims
    ∧ (∀ (i : nat) start stop step axis,
         starts !! i = Some start → stops !! i = Some stop →
         steps !! i = Some step → axes !! i = Some axis →
         out !! Z.to_nat (normalize_axis rank axis)
         = Some (sliced_dimension start stop step
                   (dims !!! Z.to_nat (normalize_axis rank axis))))
    ∧ (∀ k : nat,
         (∀ axis, axis ∈ axes → Z.to_nat (normalize_axis rank axis) ≠ k) →
         out !! k = dims !! k).
Proof.
  intros rank Hl1 Hl2 Hl3 Hsteps Haxes Hnd.
  set (ixs := zip_indices starts stops steps axes).
  assert (Hax : si_axis <$> ixs = axes) by by apply zip_indices_axes.
  assert (Hst : si_step <$> ixs = steps) by by apply zip_indices_steps.
  assert (Hvalid : Forall (index_valid dims) ixs).
  { apply Forall_lookup_2. intros i ix Hix. split.
    - apply normalize_axis_in_range.
      rewrite Forall_lookup in Haxes. apply (Haxes i).
      by rewrite <- Hax, list_lookup_fmap, Hix.
    - rewrite Forall_lookup in Hsteps. apply (Hsteps i).
      by rewrite <- Hst, list_lookup_fmap, Hix. }
  assert (Hslots : axis_slot dims <$> ixs
                   = (λ a, Z.to_nat (normalize_axis rank a)) <$> axes).
  { rewrite <- Hax, <- list_fmap_compose. done. }
  assert (Hnd' : NoDup (axis_slot dims <$> ixs)).
  { rewrite Hslots.
    replace ((λ a, Z.to_nat (normalize_axis rank a)) <$> axes)
      with (Z.to_nat <$> (normalize_axis rank <$> axes))
      by (by rewrite <- list_fmap_compose).
    apply NoDup_fmap_2_strong; [|done].
    intros x y Hx Hy Hxy.
    apply list_elem_of_fmap in Hx as (a & -> & Ha), Hy as (b & -> & Hb).
    rewrite Forall_forall in Haxes.
    pose proof (normalize_axis_in_range rank a (Haxes a Ha)).
    pose proof (normalize_axis_in_range rank b (Haxes b Hb)). lia. }
  eexists. split; [|split; [|split]].
  - unfold calculate_output_shape.
    rewrite !bool_decide_eq_true_2 by done. simpl.
    rewrite bool_decide_eq_true_2.
    2:{ apply size_list_to_set. by eapply NoDup_fmap_1. }
    simpl. fold ixs. rewrite (slice_loop_ok dims ixs Hvalid). simpl. reflexivity.
  - apply foldl_insert_length.
  - intros i start stop step axis H1 H2 H3 H4.
    pose proof (zip_indices_lookup _ _ _ _ _ _ _ _ _ H1 H2 H3 H4) as Hix.
    fold ixs in Hix.
    apply (foldl_insert_at dims ixs dims i _ Hnd' Hix).
    unfold axis_slot. simpl.
    rewrite Forall_lookup in Hvalid. destruct (Hvalid _ _ Hix) as [Hr _].
    simpl in Hr. lia.
  - intros k Hk. apply foldl_insert_other.
    rewrite Hslots. intros Hin. apply list_elem_of_fmap in Hin as (a & -> & Ha).
    by apply (Hk a).
Qed.






(** C5: on the bounded axis [[4, 10]] with start [-3], stop [5], step [1]
    the source stores the pair (size at the lower bound, size at the upper
    bound) = (3, 0): the lower bound of the output exceeds its upper
    bound, so the stated invariant is broken by the code. *)
Theorem slice_bounded_interval_inverted :
  calculate_output_shape [-3] [5] [1] [0] (Ranked [Dimension_range 4 10])
    = Ok (Ranked [Dimension_range 3 0])
  ∧ ¬ well_formed (Dimension_range 3 0).
Proof. split; [vm_compute; reflexivity | unfold well_formed; simpl; lia]. Qed.

(** *** Further properties of the shape calculation *)

Lemma ceil_div_le (a b : Z) : 0 ≤ a → b ≠ 0 → 0 ≤ ceil_div a b ≤ a.
Proof.
  intros Ha Hb. pose proof (ceil_div_is_ceil a b Hb) as [Hlo Hhi].
  unfold is_ceil_quotient in *. nia.
Qed.

Lemma ceil_div_mono (a a' b : Z) : b ≠ 0 → a ≤ a' → ceil_div a b ≤ ceil_div a' b.
Proof.
  intros Hb Ha. unfold ceil_div. apply Z.div_le_mono; lia.
Qed.

Lemma spec_count_range (start stop step d : Z) :
  0 ≤ d → 0 ≤ spec_count start stop step d ≤ d.
Proof.
  intros Hd. unfold spec_count, spec_clip, spec_normalize.
  destruct (start <? 0), (stop <? 0), (step <? 0); lia.
Qed.

Lemma spec_count_mono (start stop step d d' : Z) :
  (0 < step ∧ (0 ≤ start ∨ stop < 0)) ∨ (step < 0 ∧ 0 ≤ stop) →
  0 ≤ d ≤ d' →
  spec_count start stop step d ≤ spec_count start stop step d'.
Proof.
  intros Hc Hd. unfold spec_count, spec_clip, spec_normalize.
  destruct (start <? 0) eqn:Hs, (stop <? 0) eqn:Ht, (step <? 0) eqn:Hp; lia.
Qed.

Lemma size_list_to_set_le (l : list Z) :
  (size (list_to_set l : gset Z) ≤ length l)%nat.
Proof.
  induction l as [|x l IH].
  - by rewrite list_to_set_nil, size_empty.
  - rewrite list_to_set_cons, size_union_alt, size_singleton. simpl.
    assert (Hsub : (list_to_set l ∖ {[x]} : gset Z) ⊆ list_to_set l)
      by by apply subseteq_difference_l.
    apply subseteq_size in Hsub. lia.
Qed.

Lemma size_list_to_set_NoDup (l : list Z) :
  size (list_to_set l : gset Z) = length l → NoDup l.
Proof.
  induction l as [|x l IH]; intros Hsz; [constructor|].
  rewrite list_to_set_cons in Hsz. simpl in Hsz.
  destruct (decide (x ∈ l)) as [Hin|Hnin].
  - exfalso. pose proof (size_list_to_set_le l).
    assert (Heq : ({[x]} ∪ list_to_set l : gset Z) = list_to_set l).
    { apply subseteq_union_1_L, singleton_subseteq_l, elem_of_list_to_set, Hin. }
    rewrite Heq in Hsz. lia.
  - constructor; [done|]. apply IH.
    rewrite size_union, size_singleton in Hsz; [lia|].
    apply disjoint_singleton_l. by rewrite elem_of_list_to_set.
Qed.

Lemma get_sliced_dim_size_mono (start stop step d d' : Z) :
  step ≠ 0 →
  (0 < step ∧ (0 ≤ start ∨ stop < 0)) ∨ (step < 0 ∧ 0 ≤ stop) →
  0 ≤ d ≤ d' →
  get_sliced_dim_size start stop step d ≤ get_sliced_dim_size start stop step d'.
Proof.
  intros Hstep Hc Hd. rewrite !get_sliced_dim_size_spec.
  apply ceil_div_mono; [done|]. by apply spec_count_mono.
Qed.

Lemma get_sliced_dim_size_range (start stop step dim_size : Z) :
  step ≠ 0 → 0 ≤ dim_size →
  0 ≤ get_sliced_dim_size start stop step dim_size ≤ dim_size.
Proof.
  intros Hstep Hd. rewrite get_sliced_dim_size_spec.
  pose proof (spec_count_range start stop step dim_size Hd).
  pose proof (ceil_div_le (spec_count start stop step dim_size) step ltac:(lia) Hstep).
  lia.
Qed.




(** X3: On an axis without upper bound, with start and stop of opposite signs,
    the dimension [calculate_output_shape] stores has lower bound 0 and an
    upper bound that no sliced size exceeds, whatever length the axis
    takes. *)
Theorem slice_unbounded_mixed_signs_sound (starts stops steps axes : list Z)
    (dims : list Dimension) (i : nat) (start stop step axis : Z) (d : Dimension) :
  let rank := Z.of_nat (length dims) in
  length stops = length starts → length steps = length starts →
  length axes = length starts →
  Forall (λ s, s ≠ 0) steps →
  Forall (λ a, - rank ≤ a < rank) axes →
  NoDup (normalize_axis rank <$> axes) →
  starts !! i = Some start → stops !! i = Some stop →
  steps !! i = Some step → axes !! i = Some axis →
  dims !! Z.to_nat (normalize_axis rank axis) = Some d →
  has_upper_bound d = false → is_static d = false →
  (start < 0 ∧ 0 < stop) ∨ (0 < start ∧ stop < 0) →
  ∃ (out : list Dimension) (o : Dimension),
    calculate_output_shape starts stops steps axes (Ranked dims) = Ok (Ranked out)
    ∧ out !! Z.to_nat (normalize_axis rank axis) = Some o
    ∧ get_min_length o = 0
    ∧ ∀ n, 0 ≤ n ≤ INT64_MAX →
        get_sliced_dim_size start stop step n ≤ get_max_val o.
Proof.
  intros rank Hl1 Hl2 Hl3 Hsteps Haxes Hnd H1 H2 H3 H4 Hd Hub Hdyn Hc. subst rank.
  destruct (calculate_output_shape_valid starts stops steps axes dims
              Hl1 Hl2 Hl3 Hsteps Haxes Hnd) as (out & Hcalc & Hlen & Hat & Hother).
  assert (Hstep : step ≠ 0).
  { rewrite Forall_lookup in Hsteps. by apply (Hsteps i). }
  exists out. eexists. split; [done|]. split; [by eapply Hat|].
  rewrite (list_lookup_total_correct _ _ _ Hd).
  unfold sliced_dimension. rewrite Hdyn, Hub. simpl.
  assert (Hf0 : ∀ n, 0 ≤ n → get_sliced_dim_size start stop step n ≤ n)
    by (intros n Hn; by apply get_sliced_dim_size_range).
  assert (Hcount : ∀ n, 0 ≤ n →
            get_sliced_dim_size start stop step n ≤ spec_count start stop step n).
  { intros n Hn. rewrite get_sliced_dim_size_spec.
    apply ceil_div_le; [|done]. by apply spec_count_range. }
  destruct (_ || _) eqn:Hfull; simpl.
  { split; [done|]. intros n Hn. specialize (Hf0 n ltac:(lia)). lia. }
  destruct ((step <? 0) && (0 <? start) && (stop <? 0)) eqn:Hneg; simpl.
  { split; [done|]. intros n Hn. specialize (Hcount n ltac:(lia)).
    specialize (Hf0 n ltac:(lia)).
    assert (spec_count start stop step n ≤ start + 1).
    { unfold spec_count, spec_clip, spec_normalize.
      replace (step <? 0) with true by lia. replace (start <? 0) with false by lia.
      lia. }
    destruct (INT32_MAX <=? start); lia. }
  replace ((0 <? step) && (0 <? stop) && (start <? 0)) with true by lia. simpl.
  split; [done|]. intros n Hn. specialize (Hcount n ltac:(lia)).
  specialize (Hf0 n ltac:(lia)).
  assert (spec_count start stop step n ≤ stop).
  { unfold spec_count, spec_clip, spec_normalize.
    replace (step <? 0) with false by lia. replace (stop <? 0) with false by lia.
    lia. }
  destruct (INT32_MAX <=? stop); lia.
Qed.

Lemma slice_loop_inv (dims : list Dimension) (ixs : list SliceIndex) :
  ∀ out res, slice_loop dims ixs out = Ok res → Forall (index_valid dims) ixs.
Proof.
  induction ixs as [|ix ixs IH]; intros out res Hrun; [constructor|].
  simpl in Hrun. unfold node_validation_check in Hrun.
  destruct (_ && _) eqn:Hax in Hrun; simpl in Hrun; [|discriminate].
  destruct (negb _) eqn:Hst in Hrun; simpl in Hrun; [|discriminate].
  constructor; [|by eapply IH].
  split; [lia|]. apply negb_true_iff, Z.eqb_neq in Hst. done.
Qed.

Lemma slice_loop_raises (dims : list Dimension) (ixs : list SliceIndex) :
  ∀ out e, slice_loop dims ixs out = Raise e → ∃ msg, e = NodeValidationFailure msg.
Proof.
  induction ixs as [|ix ixs IH]; intros out e Hrun; [discriminate|].
  simpl in Hrun. unfold node_validation_check in Hrun.
  destruct (_ && _) in Hrun; simpl in Hrun; [|injection Hrun as <-; eauto].
  destruct (negb _) in Hrun; simpl in Hrun; [|injection Hrun as <-; eauto].
  by eapply IH.
Qed.

Lemma index_valid_zip (starts stops steps axes : list Z) (dims : list Dimension) :
  length stops = length starts → length steps = length starts →
  length axes = length starts →
  Forall (index_valid dims) (zip_indices starts stops steps axes)
  ↔ Forall (λ a, - Z.of_nat (length dims) ≤ a < Z.of_nat (length dims)) axes
    ∧ Forall (λ s, s ≠ 0) steps.
Proof.
  revert stops steps axes.
  induction starts as [|a starts IH]; intros [|b stops] [|c steps] [|d axes];
    simpl; try discriminate.
  - intros _ _ _. split; [by split|constructor].
  - intros Hl1 Hl2 Hl3. rewrite !Forall_cons, IH by lia.
    unfold index_valid, normalize_axis. simpl.
    destruct (d <? 0) eqn:Hd; intuition lia.
Qed.

(** X4: The outcome of [calculate_output_shape].  It returns exactly when the
    four index vectors have the same size, the values of [axes] are
    pairwise distinct as written and, for a shape of static rank, every
    axis is in [[-rank, rank - 1]] and every step is non-zero; the result
    then has the rank of the input.  For a shape of dynamic rank neither
    the axes' range nor the steps are examined.  Every failure is a
    [NodeValidationFailure]. *)
Theorem calculate_output_shape_outcome (starts stops steps axes : list Z)
    (data_shape : PartialShape) :
  let accepted :=
    length stops = length starts ∧ length steps = length starts
    ∧ length axes = length starts ∧ NoDup axes
    ∧ match data_shape with
      | RankDynamic => True
      | Ranked dims =>
          Forall (λ a, - Z.of_nat (length dims) ≤ a < Z.of_nat (length dims)) axes
          ∧ Forall (λ s, s ≠ 0) steps
      end in
  match calculate_output_shape starts stops steps axes data_shape with
  | Ok out =>
      accepted
      ∧ match data_shape, out with
        | RankDynamic, RankDynamic => True
        | Ranked dims, Ranked o => length o = length dims
        | _, _ => False
        end
  | Raise e => ¬ accepted ∧ ∃ msg, e = NodeValidationFailure msg
  end.
Proof.
  simpl. unfold calculate_output_shape, node_validation_check.
  destruct (bool_decide (length stops = length starts)) eqn:E1; simpl.
  2:{ apply bool_decide_eq_false in E1. split; [tauto|eauto]. }
  destruct (bool_decide (length steps = length starts)) eqn:E2; simpl.
  2:{ apply bool_decide_eq_false in E2. split; [tauto|eauto]. }
  destruct (bool_decide (length axes = length starts)) eqn:E3; simpl.
  2:{ apply bool_decide_eq_false in E3. split; [tauto|eauto]. }
  apply bool_decide_eq_true in E1, E2, E3.
  destruct (bool_decide (size _ = length axes)) eqn:E4; simpl.
  2:{ apply bool_decide_eq_false in E4. split; [|eauto].
      intros (_ & _ & _ & Hnd & _). apply E4. by apply size_list_to_set. }
  apply bool_decide_eq_true, size_list_to_set_NoDup in E4.
  destruct data_shape as [|dims]; [done|].
  destruct (slice_loop dims _ dims) as [o|e] eqn:Hloop; simpl.
  - pose proof (slice_loop_inv _ _ _ _ Hloop) as Hv.
    apply (index_valid_zip _ _ _ _ _ E1 E2 E3) in Hv.
    split; [done|].
    assert (Hok := slice_loop_ok dims _ (slice_loop_inv _ _ _ _ Hloop) dims).
    rewrite Hloop in Hok. injection Hok as ->. apply foldl_insert_length.
  - split; [|by eapply slice_loop_raises].
    intros (_ & _ & _ & _ & Hv). apply (index_valid_zip _ _ _ _ _ E1 E2 E3) in Hv.
    by rewrite (slice_loop_ok dims _ Hv dims) in Hloop.
Qed.

Lemma foldl_insert_last (dims : list Dimension) (ixs : list SliceIndex)
    (out : list Dimension) (i : nat) ix :
  ixs !! i = Some ix →
  (∀ (j : nat) ix', (i < j)%nat → ixs !! j = Some ix' →
     axis_slot dims ix' ≠ axis_slot dims ix) →
  (axis_slot dims ix < length out)%nat →
  foldl (λ o ix, <[axis_slot dims ix := axis_value dims ix]> o) out ixs
    !! axis_slot dims ix = Some (axis_value dims ix).
Proof.
  revert out i. induction ixs as [|ix' ixs IH]; intros out i Hi Hlater Hlen; [done|].
  destruct i as [|i]; simpl in *.
  - simplify_eq. rewrite foldl_insert_other; [by apply list_lookup_insert_eq|].
    intros Hin. apply list_elem_of_fmap in Hin as (ix' & Heq & Hin).
    apply list_elem_of_lookup in Hin as [j Hj].
    apply (Hlater (S j) ix'); [lia|done|done].
  - apply (IH _ i); [done| |by rewrite length_insert].
    intros j ix'' Hj. apply (Hlater (S j)). lia.
Qed.

(** X5: The uniqueness check compares the axes as written.  Two values that
    denote the same axis once normalised (such as [0] and [-rank]) are
    accepted, and the output dimension of that axis is the one computed
    from the last index triple that names it, applied to the input
    dimension. *)
Theorem slice_aliased_axes_last_wins (starts stops steps axes : list Z)
    (dims : list Dimension) (i : nat) (start stop step axis : Z) :
  let rank := Z.of_nat (length dims) in
  length stops = length starts → length steps = length starts →
  length axes = length starts →
  Forall (λ s, s ≠ 0) steps →
  Forall (λ a, - rank ≤ a < rank) axes →
  NoDup axes →
  starts !! i = Some start → stops !! i = Some stop →
  steps !! i = Some step → axes !! i = Some axis →
  (∀ (j : nat) a, (i < j)%nat → axes !! j = Some a →
     normalize_axis rank a ≠ normalize_axis rank axis) →
  ∃ out : list Dimension,
    calculate_output_shape starts stops steps axes (Ranked dims) = Ok (Ranked out)
    ∧ out !! Z.to_nat (normalize_axis rank axis)
      = Some (sliced_dimension start stop step
                (dims !!! Z.to_nat (normalize_axis rank axis))).
Proof.
  intros rank Hl1 Hl2 Hl3 Hsteps Haxes Hnd H1 H2 H3 H4 Hlater. subst rank.
  set (ixs := zip_indices starts stops steps axes).
  assert (Hvalid : Forall (index_valid dims) ixs) by by apply index_valid_zip.
  assert (Hax : si_axis <$> ixs = axes) by by apply zip_indices_axes.
  pose proof (zip_indices_lookup _ _ _ _ _ _ _ _ _ H1 H2 H3 H4) as Hix.
  fold ixs in Hix.
  eexists. split.
  - unfold calculate_output_shape.
    rewrite !bool_decide_eq_true_2 by done. simpl.
    rewrite bool_decide_eq_true_2 by by apply size_list_to_set.
    simpl. fold ixs. rewrite (slice_loop_ok dims ixs Hvalid). simpl. reflexivity.
  - apply (foldl_insert_last dims ixs dims i _ Hix).
    + intros j ix' Hj Hix'. unfold axis_slot. simpl.
      assert (Ha : axes !! j = Some (si_axis ix'))
        by by rewrite <- Hax, list_lookup_fmap, Hix'.
      pose proof (Hlater j _ Hj Ha) as Hne.
      rewrite Forall_lookup in Haxes.
      pose proof (normalize_axis_in_range _ _ (Haxes _ _ Ha)).
      pose proof (normalize_axis_in_range _ _ (Haxes _ _ H4)). lia.
    + unfold axis_slot. simpl. rewrite Forall_lookup in Haxes.
      pose proof (normalize_axis_in_range _ _ (Haxes _ _ H4)). lia.
Qed.

Lemma slice_aliased_axes_last_wins_witness :
  ∃ out : list Dimension,
    calculate_output_shape [1; 2] [5; 8] [1; 1] [0; -2]
      (Ranked [mkDimension 8 8; mkDimension 5 5]) = Ok (Ranked out)
    ∧ out !! 0%nat = Some (mkDimension 6 6).
Proof.
  destruct (slice_aliased_axes_last_wins [1; 2] [5; 8] [1; 1] [0; -2]
              [mkDimension 8 8; mkDimension 5 5] 1%nat 2 8 1 (-2))
    as (out & Hcalc & Hout).
  - reflexivity.
  - reflexivity.
  - reflexivity.
  - repeat constructor; lia.
  - repeat constructor; simpl; lia.
  - apply (bool_decide_unpack _). vm_compute. exact I.
  - reflexivity.
  - reflexivity.
  - reflexivity.
  - reflexivity.
  - intros [|[|j]] a Hj; [lia|lia|discriminate].
  - exists out. split; [exact Hcalc|exact Hout].
Defined.


Lemma slice_unbounded_mixed_signs_sound_witness :
  ∃ (out : list Dimension) (o : Dimension),
    calculate_output_shape [-4] [6] [1] [0] (Ranked [mkDimension 2 INT64_MAX])
    = Ok (Ranked out)
    ∧ out !! 0%nat = Some o
    ∧ get_min_length o = 0
    ∧ ∀ n, 0 ≤ n ≤ INT64_MAX → get_sliced_dim_size (-4) 6 1 n ≤ get_max_val o.
Proof.
  apply (slice_unbounded_mixed_signs_sound [-4] [6] [1] [0]
           [mkDimension 2 INT64_MAX] 0%nat (-4) 6 1 0 (mkDimension 2 INT64_MAX)).
  - reflexivity.
  - reflexivity.
  - reflexivity.
  - repeat constructor; lia.
  - repeat constructor; simpl; lia.
  - apply (bool_decide_unpack _). vm_compute. exact I.
  - reflexivity.
  - reflexivity.
  - reflexivity.
  - reflexivity.
  - reflexivity.
  - reflexivity.
  - reflexivity.
  - left. lia.
Defined.

(** X6: A Slice without [axes] input whose [start] has the static shape [[n]]:
    the default axes are [0, ..., n - 1], so with [n] at most the rank and
    non-zero steps the calculation succeeds, the [i]-th index triple
    slices axis [i], and the axes from [n] on keep their input dimension. *)
Theorem slice_default_axes (starts stops steps : list Z) (dims : list Dimension)
    (d : Dimension) :
  is_static d = true → get_min_length d = Z.of_nat (length starts) →
  length stops = length starts → length steps = length starts →
  Forall (λ s, s ≠ 0) steps →
  (length starts ≤ length dims)%nat →
  ∃ (axes : list Z) (out : list Dimension),
    get_default_const_axes (Ranked [d]) = Some axes
    ∧ calculate_output_shape starts stops steps axes (Ranked dims) = Ok (Ranked out)
    ∧ length out = length dims
    ∧ (∀ (i : nat) start stop step,
         starts !! i = Some start → stops !! i = Some stop → steps !! i = Some step →
         out !! i = Some (sliced_dimension start stop step (dims !!! i)))
    ∧ (∀ k : nat, (length starts ≤ k)%nat → out !! k = dims !! k).
Proof.
  intros Hst Hlen Hl1 Hl2 Hsteps Hrank.
  exists (seqZ 0 (Z.of_nat (length starts))).
  assert (Hl3 : length (seqZ 0 (Z.of_nat (length starts))) = length starts)
    by (rewrite length_seqZ; lia).
  assert (Hrange : Forall (λ a, - Z.of_nat (length dims) ≤ a < Z.of_nat (length dims))
                     (seqZ 0 (Z.of_nat (length starts)))).
  { apply Forall_forall. intros a Ha. apply elem_of_seqZ in Ha. lia. }
  assert (Hnorm : normalize_axis (Z.of_nat (length dims))
                    <$> seqZ 0 (Z.of_nat (length starts))
                  = seqZ 0 (Z.of_nat (length starts))).
  { rewrite <- (list_fmap_id (seqZ _ _)) at 2. apply list_fmap_ext.
    intros i a Ha. apply lookup_seqZ in Ha as [-> _].
    unfold normalize_axis. destruct (_ <? 0) eqn:E; [lia|done]. }
  destruct (calculate_output_shape_valid starts stops steps
              (seqZ 0 (Z.of_nat (length starts))) dims Hl1 Hl2 Hl3 Hsteps Hrange)
    as (out & Hcalc & Hlo & Hat & Hother).
  { rewrite Hnorm. apply NoDup_seqZ. }
  exists out. split; [|split; [done|split; [done|split]]].
  - unfold get_default_const_axes. by rewrite Hst, Hlen.
  - intros i start stop step H1 H2 H3.
    assert (Hi : (i < length starts)%nat) by by eapply lookup_lt_Some.
    assert (Ha : seqZ 0 (Z.of_nat (length starts)) !! i = Some (Z.of_nat i)).
    { apply lookup_seqZ. lia. }
    pose proof (Hat i start stop step _ H1 H2 H3 Ha) as Hout.
    unfold normalize_axis in Hout.
    replace (Z.of_nat i <? 0) with false in Hout by lia.
    by rewrite Nat2Z.id in Hout.
  - intros k Hk. apply Hother. intros a Ha. apply elem_of_seqZ in Ha.
    unfold normalize_axis. replace (a <? 0) with false by lia. lia.
Qed.

Lemma slice_default_axes_witness :
  ∃ (axes : list Z) (out : list Dimension),
    get_default_const_axes (Ranked [mkDimension 2 2]) = Some axes
    ∧ calculate_output_shape [1; 0] [4; 2] [1; 1] axes
        (Ranked [mkDimension 8 8; mkDimension 3 3; mkDimension 5 5]) = Ok (Ranked out)
    ∧ length out = 3%nat
    ∧ (∀ (i : nat) start stop step,
         [1; 0] !! i = Some start → [4; 2] !! i = Some stop → [1; 1] !! i = Some step →
         out !! i = Some (sliced_dimension start stop step
                            ([mkDimension 8 8; mkDimension 3 3; mkDimension 5 5] !!! i)))
    ∧ (∀ k : nat, (2 ≤ k)%nat →
         out !! k = [mkDimension 8 8; mkDimension 3 3; mkDimension 5 5] !! k).
Proof.
  apply (slice_default_axes [1; 0] [4; 2] [1; 1]
           [mkDimension 8 8; mkDimension 3 3; mkDimension 5 5] (mkDimension 2 2)).
  - reflexivity.
  - reflexivity.
  - reflexivity.
  - reflexivity.
  - repeat constructor; lia.
  - simpl. lia.
Defined.




End SliceFacts.

Module ConstWriterFacts.
Import ConstWriter.
Local Open Scope Z_scope.

Example hash_collision_of_the_source :
  hash_combine array_2_2 = hash_combine array_0_128 ∧ array_2_2 ≠ array_0_128.
Proof. split; [vm_compute; reflexivity | discriminate]. Qed.

Lemma write_flags (w : ConstantWriter) (p : list byte) :
  m_enable_compression (write w p).2 = m_enable_compression w
  ∧ m_blob_offset (write w p).2 = m_blob_offset w.
Proof.
  unfold write. destruct (m_enable_compression w) eqn:Hc; simpl; [|by rewrite Hc].
  destruct (m_hash_to_file_positions w !! hash_combine p) as [[pos buf]|];
    [destruct (memcmp_equal p buf)|]; simpl; by rewrite ?Hc.
Qed.

Lemma write_output (w : ConstantWriter) (p : list byte) :
  m_binary_output (write w p).2 = m_binary_output w
  ∨ m_binary_output (write w p).2 = m_binary_output w ++ p.
Proof.
  unfold write. destruct (m_enable_compression w); simpl; [|by right].
  destruct (m_hash_to_file_positions w !! hash_combine p) as [[pos buf]|];
    [destruct (memcmp_equal p buf)|]; simpl; auto.
Qed.

Lemma write_map_kept (w : ConstantWriter) (p : list byte) h e :
  m_hash_to_file_positions w !! h = Some e →
  m_hash_to_file_positions (write w p).2 !! h = Some e.
Proof.
  intros He. unfold write. destruct (m_enable_compression w); simpl; [|done].
  destruct (m_hash_to_file_positions w !! hash_combine p) as [[pos buf]|] eqn:Hf;
    [destruct (memcmp_equal p buf)|]; simpl; try done.
  - unfold map_insert. by rewrite Hf.
  - unfold map_insert. rewrite Hf.
    rewrite lookup_insert_ne; [done|]. intros <-. congruence.
Qed.

Lemma write_map_other (w : ConstantWriter) (p : list byte) h :
  hash_combine p ≠ h →
  m_hash_to_file_positions (write w p).2 !! h = m_hash_to_file_positions w !! h.
Proof.
  intros Hne. unfold write. destruct (m_enable_compression w); simpl; [|done].
  destruct (m_hash_to_file_positions w !! hash_combine p) as [[pos buf]|] eqn:Hf;
    [destruct (memcmp_equal p buf)|]; simpl; try done.
  - unfold map_insert. by rewrite Hf.
  - unfold map_insert. rewrite Hf. by rewrite lookup_insert_ne.
Qed.

(** A payload whose hash is new is appended and becomes the retained
    entry of that hash. *)
Lemma write_fresh (w : ConstantWriter) (p : list byte) :
  m_enable_compression w = true →
  m_hash_to_file_positions w !! hash_combine p = None →
  (write w p).1 = end_offset w
  ∧ m_binary_output (write w p).2 = m_binary_output w ++ p
  ∧ m_hash_to_file_positions (write w p).2 !! hash_combine p = Some (end_offset w, p).
Proof.
  intros Hc Hf. unfold write. rewrite Hc, Hf. simpl.
  repeat split. unfold map_insert. rewrite Hf. by rewrite lookup_insert_eq.
Qed.

Lemma payload_append (out q : list byte) (blob off : Z) (n : nat) :
  0 ≤ blob → 0 ≤ off → blob + off + Z.of_nat n ≤ Z.of_nat (length out) →
  take n (drop (Z.to_nat (blob + off)) (out ++ q))
  = take n (drop (Z.to_nat (blob + off)) out).
Proof.
  intros Hb Ho Hle.
  rewrite drop_app_le by lia.
  rewrite take_app_le; [done|]. rewrite length_drop. lia.
Qed.

Lemma write_end_mono (w : ConstantWriter) (p : list byte) :
  end_offset w ≤ end_offset (write w p).2.
Proof.
  unfold end_offset, tellp. destruct (write_flags w p) as [_ ->].
  destruct (write_output w p) as [-> | ->]; [lia|].
  rewrite length_app. lia.
Qed.

Lemma write_payload_stable (w : ConstantWriter) (p : list byte) (off : Z) (n : nat) :
  0 ≤ m_blob_offset w → 0 ≤ off → off + Z.of_nat n ≤ end_offset w →
  payload_at (write w p).2 off n = payload_at w off n.
Proof.
  intros Hb Ho Hle. unfold payload_at. destruct (write_flags w p) as [_ ->].
  destruct (write_output w p) as [-> | ->]; [done|].
  apply payload_append; try done. unfold end_offset, tellp in Hle. lia.
Qed.

Lemma payload_at_end (w : ConstantWriter) (p : list byte) :
  0 ≤ m_blob_offset w ≤ tellp w →
  take (length p)
    (drop (Z.to_nat (m_blob_offset w + end_offset w)) (m_binary_output w ++ p)) = p.
Proof.
  intros Hb. unfold end_offset, tellp in *.
  replace (Z.to_nat _) with (length (m_binary_output w)) by lia.
  rewrite drop_app_length. apply firstn_all.
Qed.

Lemma write_retained_ok (w : ConstantWriter) (p : list byte) :
  retained_ok w → retained_ok (write w p).2.
Proof.
  intros [Hb Hent]. split.
  - destruct (write_flags w p) as [_ ->].
    pose proof (write_end_mono w p) as Hm. unfold end_offset in Hm.
    destruct (write_flags w p) as [_ Hbo]. rewrite Hbo in Hm. lia.
  - intros h off buf Hl.
    assert (Hold : m_hash_to_file_positions w !! h = Some (off, buf) →
              hash_combine buf = h ∧ 0 ≤ off
              ∧ off + Z.of_nat (length buf) ≤ end_offset (write w p).2
              ∧ payload_at (write w p).2 off (length buf) = buf).
    { intros Hw. destruct (Hent _ _ _ Hw) as (H1 & H2 & H3 & H4).
      repeat split; try done.
      - pose proof (write_end_mono w p). lia.
      - rewrite write_payload_stable; [done|lia|done|done]. }
    revert Hl. unfold write at 1. destruct (m_enable_compression w) eqn:Hc; simpl.
    2:{ intros Hl. apply Hold in Hl. done. }
    destruct (m_hash_to_file_positions w !! hash_combine p) as [[pos rbuf]|] eqn:Hf.
    + destruct (memcmp_equal p rbuf); simpl; [by intros; apply Hold|].
      unfold map_insert. rewrite Hf. by intros; apply Hold.
    + simpl. unfold map_insert. rewrite Hf.
      destruct (decide (hash_combine p = h)) as [<-|Hne].
      * rewrite lookup_insert_eq. intros [= <- <-].
        destruct (write_fresh w p Hc Hf) as (Ho & Hout & _).
        repeat split.
        -- unfold end_offset. lia.
        -- pose proof (write_flags w p) as [_ Hbo].
           unfold end_offset, tellp. rewrite Hbo, Hout, length_app. lia.
        -- unfold payload_at. destruct (write_flags w p) as [_ ->].
           rewrite Hout. by apply payload_at_end.
      * rewrite lookup_insert_ne by done. apply Hold.
Qed.

(** The offset handed back always designates the bytes of the payload. *)
Lemma write_sound (w : ConstantWriter) (p : list byte) :
  retained_ok w →
  0 ≤ (write w p).1
  ∧ (write w p).1 + Z.of_nat (length p) ≤ end_offset (write w p).2
  ∧ payload_at (write w p).2 (write w p).1 (length p) = p.
Proof.
  intros [Hb Hent].
  assert (Happ : ∀ w', m_binary_output w' = m_binary_output w ++ p →
             m_blob_offset w' = m_blob_offset w →
             0 ≤ end_offset w
             ∧ end_offset w + Z.of_nat (length p) ≤ end_offset w'
             ∧ payload_at w' (end_offset w) (length p) = p).
  { intros w' Hout Hbo. repeat split.
    - unfold end_offset. lia.
    - unfold end_offset, tellp. rewrite Hout, Hbo, length_app. lia.
    - unfold payload_at. rewrite Hout, Hbo. by apply payload_at_end. }
  unfold write. destruct (m_enable_compression w) eqn:Hc; simpl.
  2:{ by apply Happ. }
  destruct (m_hash_to_file_positions w !! hash_combine p) as [[pos rbuf]|] eqn:Hf.
  - destruct (memcmp_equal p rbuf) eqn:Hm; simpl; [|by apply Happ].
    destruct (Hent _ _ _ Hf) as (_ & Hpos & Hle & Hat).
    apply bool_decide_eq_true_1 in Hm.
    assert (Hlen : (length p ≤ length rbuf)%nat).
    { rewrite <- Hm at 1. rewrite length_take. lia. }
    repeat split; [done|lia|].
    unfold payload_at in *. etransitivity; [|exact Hm].
    set (n := length rbuf) in *. rewrite <- Hat. rewrite take_take.
    f_equal. subst n. lia.
  - simpl. by apply Happ.
Qed.

Lemma write_all_cons (w : ConstantWriter) (p : list byte) (ps : list (list byte)) :
  (write_all w (p :: ps)).1 = (write w p).1 :: (write_all (write w p).2 ps).1
  ∧ (write_all w (p :: ps)).2 = (write_all (write w p).2 ps).2.
Proof.
  simpl. destruct (write w p) as [o w1]. simpl.
  by destruct (write_all w1 ps) as [os w2].
Qed.

Lemma write_all_length (ps : list (list byte)) (w : ConstantWriter) :
  length (write_all w ps).1 = length ps.
Proof.
  revert w. induction ps as [|p ps IH]; intros w; [done|].
  destruct (write_all_cons w p ps) as [-> _]. simpl. by rewrite IH.
Qed.

Lemma write_all_flags (ps : list (list byte)) (w : ConstantWriter) :
  m_enable_compression (write_all w ps).2 = m_enable_compression w
  ∧ m_blob_offset (write_all w ps).2 = m_blob_offset w.
Proof.
  revert w. induction ps as [|p ps IH]; intros w; [done|].
  destruct (write_all_cons w p ps) as [_ ->].
  destruct (IH (write w p).2) as [-> ->]. apply write_flags.
Qed.

Lemma write_all_retained_ok (ps : list (list byte)) (w : ConstantWriter) :
  retained_ok w → retained_ok (write_all w ps).2.
Proof.
  revert w. induction ps as [|p ps IH]; intros w Hw; [done|].
  destruct (write_all_cons w p ps) as [_ ->]. by apply IH, write_retained_ok.
Qed.

Lemma write_all_map_kept (ps : list (list byte)) (w : ConstantWriter) h e :
  m_hash_to_file_positions w !! h = Some e →
  m_hash_to_file_positions (write_all w ps).2 !! h = Some e.
Proof.
  revert w. induction ps as [|p ps IH]; intros w Hw; [done|].
  destruct (write_all_cons w p ps) as [_ ->]. by apply IH, write_map_kept.
Qed.

Lemma write_all_payload_stable (ps : list (list byte)) (w : ConstantWriter)
    (off : Z) (n : nat) :
  0 ≤ m_blob_offset w → 0 ≤ off → off + Z.of_nat n ≤ end_offset w →
  payload_at (write_all w ps).2 off n = payload_at w off n.
Proof.
  revert w. induction ps as [|p ps IH]; intros w Hb Ho Hle; [done|].
  destruct (write_all_cons w p ps) as [_ ->].
  rewrite IH.
  - by apply write_payload_stable.
  - by destruct (write_flags w p) as [_ ->].
  - done.
  - pose proof (write_end_mono w p). lia.
Qed.

Lemma write_all_sound (ps : list (list byte)) (w : ConstantWriter) :
  retained_ok w →
  ∀ (j : nat) p o, ps !! j = Some p → (write_all w ps).1 !! j = Some o →
    0 ≤ o ∧ payload_at (write_all w ps).2 o (length p) = p.
Proof.
  revert w. induction ps as [|p0 ps IH]; intros w Hw j p o Hp Ho; [done|].
  destruct (write_all_cons w p0 ps) as [E1 E2]. rewrite E1 in Ho. rewrite E2.
  destruct j as [|j]; simpl in *.
  - simplify_eq. destruct (write_sound w p Hw) as (H1 & H2 & H3).
    split; [done|]. rewrite write_all_payload_stable; try done.
    destruct (write_flags w p) as [_ ->]. by destruct Hw as [[? _] _].
  - by apply (IH (write w p0).2 (write_retained_ok w p0 Hw) j).
Qed.

(** The first payload of a run with a given hash is the one retained for
    that hash, at the offset it was written to. *)
Lemma write_all_retained (ps : list (list byte)) (w : ConstantWriter) :
  m_enable_compression w = true →
  ∀ (i : nat) p, ps !! i = Some p →
    m_hash_to_file_positions w !! hash_combine p = None →
    (∀ (k : nat) q, (k < i)%nat → ps !! k = Some q →
                    hash_combine q ≠ hash_combine p) →
    ∃ o, (write_all w ps).1 !! i = Some o
         ∧ m_hash_to_file_positions (write_all w ps).2 !! hash_combine p
           = Some (o, p).
Proof.
  revert w. induction ps as [|p0 ps IH]; intros w Hc i p Hp Hnone Hfirst; [done|].
  destruct (write_all_cons w p0 ps) as [E1 E2]. rewrite E1, E2.
  destruct i as [|i]; simpl in *.
  - simplify_eq. destruct (write_fresh w p Hc Hnone) as (Ho & _ & Hm).
    exists (write w p).1. split; [done|].
    apply write_all_map_kept. by rewrite Ho.
  - apply IH; try done.
    + by destruct (write_flags w p0) as [-> _].
    + rewrite write_map_other; [done|]. apply (Hfirst 0%nat); [lia|done].
    + intros k q Hk Hq. apply (Hfirst (S k)); [lia|done].
Qed.

Lemma new_retained_ok (bin_data : list byte) (c : bool) :
  retained_ok (new bin_data c).
Proof.
  split; [unfold tellp; simpl; lia|].
  intros h off buf. simpl. by rewrite lookup_empty.
Qed.




(** *** Further properties of the constant writer *)

Lemma write_all_uncompressed (ps : list (list byte)) (w : ConstantWriter) :
  m_enable_compression w = false →
  m_binary_output (write_all w ps).2 = m_binary_output w ++ concat ps
  ∧ ∀ j : nat, (j < length ps)%nat →
      (write_all w ps).1 !! j
      = Some (end_offset w + Z.of_nat (length (concat (take j ps)))).
Proof.
  revert w. induction ps as [|p ps IH]; intros w Hc.
  - simpl. split; [by rewrite app_nil_r|]. intros j Hj. lia.
  - destruct (write_all_cons w p ps) as [E1 E2]. rewrite E1, E2.
    assert (Hw : write w p = (end_offset w, stream_write w p)).
    { unfold write. by rewrite Hc. }
    rewrite Hw. simpl.
    destruct (IH (stream_write w p) Hc) as [Hout Hoff].
    split.
    + rewrite Hout. simpl. by rewrite <- app_assoc.
    + intros [|j] Hj; simpl.
      * f_equal. lia.
      * rewrite Hoff by (simpl in Hj; lia). f_equal.
        unfold end_offset, tellp. simpl. rewrite !length_app. lia.
Qed.

(** X7: With compression disabled every payload is appended: after a run of
    writes the stream is the initial content followed by the payloads in
    order, and the offset handed back for a payload is the total size of
    the payloads written before it. *)
Theorem uncompressed_run_layout (bin_data : list byte) (ps : list (list byte)) :
  let run := write_all (new bin_data false) ps in
  m_binary_output run.2 = bin_data ++ concat ps
  ∧ length run.1 = length ps
  ∧ ∀ (j : nat) o, run.1 !! j = Some o →
      o = Z.of_nat (length (concat (take j ps))).
Proof.
  simpl. destruct (write_all_uncompressed ps (new bin_data false) eq_refl)
    as [Hout Hoff].
  split; [done|]. split; [apply write_all_length|].
  intros j o Ho.
  assert (Hj : (j < length ps)%nat).
  { rewrite <- (write_all_length ps (new bin_data false)). by eapply lookup_lt_Some. }
  rewrite Hoff in Ho by done. injection Ho as <-.
  unfold end_offset, tellp. simpl. lia.
Qed.

Lemma write_compare (wc wu : ConstantWriter) (p : list byte) :
  retained_ok wc → m_enable_compression wu = false →
  end_offset wc ≤ end_offset wu →
  0 ≤ (write wc p).1 ≤ (write wu p).1
  ∧ end_offset (write wc p).2 ≤ end_offset (write wu p).2.
Proof.
  intros Hok Hu Hle.
  assert (Hwu : write wu p = (end_offset wu, stream_write wu p)).
  { unfold write. by rewrite Hu. }
  destruct (write_sound wc p Hok) as (H0 & Hend & _).
  rewrite Hwu. simpl.
  assert (Hu' : end_offset (stream_write wu p) = end_offset wu + Z.of_nat (length p)).
  { unfold end_offset, tellp. simpl. rewrite length_app. lia. }
  assert (Hc' : end_offset (write wc p).2 ≤ end_offset wc + Z.of_nat (length p)).
  { unfold end_offset, tellp. destruct (write_flags wc p) as [_ ->].
    destruct (write_output wc p) as [-> | ->]; [lia|]. rewrite length_app. lia. }
  assert (Ho : (write wc p).1 ≤ end_offset wc).
  { destruct Hok as [Hb Hent]. unfold write.
    destruct (m_enable_compression wc); simpl; [|unfold end_offset; lia].
    destruct (m_hash_to_file_positions wc !! hash_combine p) as [[pos buf]|] eqn:Hf;
      simpl; [|unfold end_offset; lia].
    destruct (memcmp_equal p buf); simpl; [|unfold end_offset; lia].
    destruct (Hent _ _ _ Hf) as (_ & _ & ? & _). lia. }
  lia.
Qed.

(** X8: Compression only ever saves space: for the same run of writes the
    stream written with compression is no longer than the one written
    without, and no payload gets a larger offset than it gets without
    compression. *)
Theorem compression_never_grows (bin_data : list byte) (ps : list (list byte)) :
  let compressed := write_all (new bin_data true) ps in
  let plain := write_all (new bin_data false) ps in
  (length (m_binary_output compressed.2) ≤ length (m_binary_output plain.2))%nat
  ∧ ∀ (j : nat) oc ou, compressed.1 !! j = Some oc → plain.1 !! j = Some ou →
      0 ≤ oc ≤ ou.
Proof.
  simpl.
  assert (Hgen : ∀ ps wc wu,
            retained_ok wc → m_enable_compression wu = false →
            end_offset wc ≤ end_offset wu →
            end_offset (write_all wc ps).2 ≤ end_offset (write_all wu ps).2
            ∧ ∀ (j : nat) oc ou, (write_all wc ps).1 !! j = Some oc →
                (write_all wu ps).1 !! j = Some ou → 0 ≤ oc ≤ ou).
  { clear ps. induction ps as [|p ps IH]; intros wc wu Hok Hu Hle.
    - simpl. split; [done|]. intros j oc ou Hc. done.
    - destruct (write_all_cons wc p ps) as [E1 E2].
      destruct (write_all_cons wu p ps) as [F1 F2].
      rewrite E1, E2, F1, F2.
      destruct (write_compare wc wu p Hok Hu Hle) as [Ho He].
      destruct (IH (write wc p).2 (write wu p).2) as [Hend Hoffs].
      + by apply write_retained_ok.
      + by destruct (write_flags wu p) as [-> _].
      + done.
      + split; [done|]. intros [|j] oc ou Hc Hp; simpl in *.
        * by simplify_eq.
        * by eapply Hoffs. }
  destruct (Hgen ps (new bin_data true) (new bin_data false)
              (new_retained_ok _ _) eq_refl ltac:(done)) as [Hend Hoffs].
  split; [|done].
  unfold end_offset, tellp in Hend.
  destruct (write_all_flags ps (new bin_data true)) as [_ H1].
  destruct (write_all_flags ps (new bin_data false)) as [_ H2].
  rewrite H1, H2 in Hend. simpl in Hend. lia.
Qed.

End ConstWriterFacts.

Module SerializerFacts.
Import ConstWriter Serializer.

(** ** File handling *)

(** X9: The version checks come first: an explicit request that differs from
    the version hint of the graph, and a version other than 10 and 11, raise
    an [ngraph_error] before anything is written to the binary stream. *)
Lemma version_errors_write_nothing (bin_file : list byte) (f : Function) (ver : Z)
    (custom_opsets : list (string * OpSet)) (deterministic : bool) :
  let version := default ver (f_rt_version f) in
  (version ≠ ver ∧ ver ≠ UNSPECIFIED)
  ∨ (version ≠ UNSPECIFIED ∧ version ≠ IR_V10 ∧ version ≠ IR_V11) →
  ∃ msg, serializeFunc bin_file f ver custom_opsets deterministic
         = (Raise (ngraph_error msg), bin_file).
Proof.
  intros version Hbad. unfold serializeFunc.
  replace (match f_rt_version f with Some v => v | None => ver end) with version
    by (unfold version; by destruct (f_rt_version f)).
  unfold UNSPECIFIED, IR_V10, IR_V11 in *.
  destruct (Z.eqb_spec version ver) as [Heq|Hne]; simpl.
  - destruct Hbad as [[? _]|(H0 & H10 & H11)]; [done|].
    replace (version =? 0)%Z with false by lia.
    replace (version =? 10)%Z with false by lia.
    replace (version =? 11)%Z with false by lia. simpl. eauto.
  - destruct (Z.eqb_spec ver 0) as [->|Hver]; simpl; [|eauto].
    destruct Hbad as [[_ ?]|(H0 & H10 & H11)]; [done|].
    replace (version =? 0)%Z with false by lia.
    replace (version =? 10)%Z with false by lia.
    replace (version =? 11)%Z with false by lia. simpl. eauto.
Qed.

(** X10: A [CheckFailure] raised while the graph is serialized removes both
    files. *)
Lemma check_failure_removes_files (can_open : string → bool)
    (m_xmlPath m_binPath : string) (m_version : Z)
    (m_custom_opsets : list (string * OpSet)) (f : Function)
    (files : gmap string file_content) (e : exception) :
  can_open m_binPath = true → can_open m_xmlPath = true →
  (serializeFunc [] f m_version m_custom_opsets false).1 = Raise e →
  is_CheckFailure e = true →
  let r := run_on_function can_open m_xmlPath m_binPath m_version
             m_custom_opsets f files in
  r.1 = Raise e ∧ r.2 !! m_xmlPath = None ∧ r.2 !! m_binPath = None.
Proof.
  intros Hbin Hxml Hser Hcheck. unfold run_on_function. rewrite Hbin, Hxml. simpl.
  destruct (serializeFunc [] f m_version m_custom_opsets false) as [[doc|e'] bin];
    simpl in Hser; [discriminate|]. injection Hser as ->. rewrite Hcheck. simpl.
  split; [done|]. split.
  - destruct (decide (m_binPath = m_xmlPath)) as [->|Hne].
    + by rewrite lookup_delete_eq.
    + rewrite lookup_delete_ne by done. by rewrite lookup_delete_eq.
  - by rewrite lookup_delete_eq.
Qed.

(** C6: with a version hint 11 on the graph and the explicit request
    [IR_V10], [run_on_function] raises (an [ngraph_error], which the handler
    for [CheckFailure] lets pass) after both files were created: the empty
    files stay.  When only the XML path cannot be opened, the failure is
    raised outside the handler and the binary file just created stays. *)
Theorem failed_serialization_leaves_files :
  (let r := run_on_function (λ _, true) "model.xml" "model.bin" IR_V10 []
              (empty_function (Some 11%Z)) ∅ in
   r.1 = Raise (ngraph_error "Cannot serialize function to incompatible IR version")
   ∧ r.2 !! "model.xml" = Some (FileBytes [])
   ∧ r.2 !! "model.bin" = Some (FileBytes []))
  ∧ (let r := run_on_function (λ path, String.eqb path "model.bin")
                "model.xml" "model.bin" IR_V11 [] (empty_function None) ∅ in
     r.1 = Raise (CheckFailure "Can't open xml file: model.xml")
     ∧ r.2 !! "model.xml" = None
     ∧ r.2 !! "model.bin" = Some (FileBytes [])).
Proof. vm_compute. repeat split. Qed.

(** ** Attributes of a layer *)

Lemma attribute_append (name k v : string) (attrs : list (string * string)) x :
  attribute name attrs = Some x →
  attribute name (append_attribute k v attrs) = Some x.
Proof.
  unfold append_attribute. induction attrs as [|[k' v'] attrs IH]; simpl; [done|].
  destruct (String.eqb k' name); [done|]. apply IH.
Qed.

Lemma attribute_set_other (name k v : string) (attrs : list (string * string)) :
  k ≠ name → attribute name (set_attribute k v attrs) = attribute name attrs.
Proof.
  intros Hne. induction attrs as [|[k' v'] attrs IH]; simpl; [done|].
  destruct (String.eqb_spec k' k) as [->|Hk]; simpl.
  - by rewrite (proj2 (String.eqb_neq k name) Hne).
  - destruct (String.eqb k' name); [done|]. apply IH.
Qed.

Lemma attribute_remove_other (name k : string) (attrs : list (string * string)) :
  k ≠ name → attribute name (remove_attribute k attrs) = attribute name attrs.
Proof.
  intros Hne. induction attrs as [|[k' v'] attrs IH]; simpl; [done|].
  destruct (String.eqb_spec k' k) as [->|Hk]; simpl.
  - by rewrite (proj2 (String.eqb_neq k name) Hne).
  - destruct (String.eqb k' name); [done|]. apply IH.
Qed.

Lemma on_adapter_keeps_attribute (key type_name name : string) (adapter : Adapter)
    (t t' : VisitorTarget) (w w' : ConstantWriter) :
  key ≠ "type" → key ≠ "version" →
  on_adapter type_name name adapter t w = (Ok t', w') →
  attribute key (vt_layer t') = attribute key (vt_layer t).
Proof.
  intros Ht Hv.
  destruct adapter; simpl; try (by intros [= <- <-]); try discriminate.
  - destruct (_ && _).
    + destruct (write w bytes) as [offset w1]. by intros [= <- <-].
    + by intros [= <- <-].
  - intros [= <- <-]. simpl.
    destruct (negb _).
    + by rewrite !attribute_set_other.
    + by rewrite attribute_remove_other, attribute_set_other.
Qed.

Lemma visit_attributes_keeps_attribute (key type_name : string)
    (adapters : list (string * Adapter)) (t t' : VisitorTarget)
    (w w' : ConstantWriter) :
  key ≠ "type" → key ≠ "version" →
  visit_attributes type_name adapters t w = (Ok t', w') →
  attribute key (vt_layer t') = attribute key (vt_layer t).
Proof.
  intros Ht Hv. revert t w.
  induction adapters as [|[name adapter] adapters IH]; intros t w H.
  - by apply ret_ok in H as [-> _].
  - simpl in H. inv_m. rewrite (IH _ _ Hrest).
    by eapply on_adapter_keeps_attribute.
Qed.

Lemma visit_exec_graph_node_keeps_attribute (key : string) (rt_info : RTMap)
    (t : VisitorTarget) :
  key ≠ "type" →
  attribute key (vt_layer (visit_exec_graph_node rt_info t))
  = attribute key (vt_layer t).
Proof.
  intros Ht. revert t.
  induction rt_info as [|[name param] rt_info IH]; intros t; [done|].
  simpl. rewrite IH. destruct (variant_string param); [|done].
  destruct (String.eqb name "layerType"); simpl; [|done].
  by rewrite attribute_set_other.
Qed.

(** What a written layer is made of. *)
Lemma layer_xml_ok (layer_ids : gmap nat nat) (custom_opsets : list (string * OpSet))
    (version : Z) (deterministic exec_graph : bool) (unique_names : gset string)
    (node : Node) (w w' : ConstantWriter) (layer : xml_node) (names' : gset string) :
  layer_xml layer_ids custom_opsets version deterministic exec_graph
    unique_names node w = (Ok (layer, names'), w') →
  written_layer layer_ids version node layer.
Proof.
  unfold layer_xml. intros H. inv_m.
  destruct (layer_ids !! node_ptr node) as [id|] eqn:Hid; [|discriminate].
  injection Hval3 as <-. injection Hrest0 as -> ->.
  destruct a1 as [inputs port_id]. simpl in *.
  eexists id, _, _, a0, inputs, port_id, a2.
  repeat split; try done.
  assert (Hvis : attribute "id" (vt_layer a3) = Some (to_string (Z.of_nat id))).
  { rewrite (visit_attributes_keeps_attribute "id" _ _ _ _ _ _
               ltac:(done) ltac:(done) Hstep3).
    destruct exec_graph, deterministic, (is_name_auto_generated node);
      reflexivity. }
  destruct exec_graph; [|done].
  by rewrite visit_exec_graph_node_keeps_attribute.
Qed.

(** In deterministic mode the layer of a node with an auto-generated
    name has no [name] attribute. *)
Lemma layer_xml_name_omitted (layer_ids : gmap nat nat)
    (custom_opsets : list (string * OpSet)) (version : Z) (exec_graph : bool)
    (unique_names : gset string) (node : Node) (w w' : ConstantWriter)
    (layer : xml_node) (names' : gset string) :
  layer_xml layer_ids custom_opsets version true exec_graph
    unique_names node w = (Ok (layer, names'), w') →
  is_name_auto_generated node = true →
  attribute "name" (xml_attributes layer) = None.
Proof.
  unfold layer_xml. intros H Hauto. rewrite Hauto in H. simpl in H. inv_m.
  injection Hrest0 as -> ->. simpl.
  assert (Hvis : attribute "name" (vt_layer a3) = None).
  { rewrite (visit_attributes_keeps_attribute "name" _ _ _ _ _ _
               ltac:(done) ltac:(done) Hstep3).
    destruct exec_graph; reflexivity. }
  destruct exec_graph; [|done].
  by rewrite visit_exec_graph_node_keeps_attribute.
Qed.

Lemma layers_loop_ok (layer_ids : gmap nat nat) (custom_opsets : list (string * OpSet))
    (version : Z) (deterministic exec_graph : bool) (nodes : list Node) :
  ∀ (unique_names : gset string) (w w' : ConstantWriter) (layers : list xml_node),
    layers_loop layer_ids custom_opsets version deterministic exec_graph
      unique_names nodes w = (Ok layers, w') →
    Forall2 (written_layer layer_ids version) nodes layers.
Proof.
  induction nodes as [|n nodes IH]; intros names w w' layers H; simpl in H.
  - apply ret_ok in H as [-> _]. constructor.
  - inv_m. subst layers. destruct a as [layer names']. constructor.
    + by eapply layer_xml_ok.
    + by eapply IH.
Qed.

Lemma layers_loop_names_omitted (layer_ids : gmap nat nat)
    (custom_opsets : list (string * OpSet)) (version : Z) (exec_graph : bool)
    (nodes : list Node) :
  ∀ (unique_names : gset string) (w w' : ConstantWriter) (layers : list xml_node),
    layers_loop layer_ids custom_opsets version true exec_graph
      unique_names nodes w = (Ok layers, w') →
    Forall2 (λ node layer, is_name_auto_generated node = true →
                           attribute "name" (xml_attributes layer) = None)
      nodes layers.
Proof.
  induction nodes as [|n nodes IH]; intros names w w' layers H; simpl in H.
  - apply ret_ok in H as [-> _]. constructor.
  - inv_m. subst layers. destruct a as [layer names']. constructor.
    + by eapply layer_xml_name_omitted.
    + by eapply IH.
Qed.

Lemma ngfunction_2_ir_ok (netXml : string) (f : Function)
    (custom_opsets : list (string * OpSet)) (version : Z) (deterministic : bool)
    (w w' : ConstantWriter) (net : xml_node) :
  ngfunction_2_ir netXml f custom_opsets version deterministic w = (Ok net, w') →
  ∃ attrs layers edge_mapping,
    net = Element netXml attrs
            [Element "layers" [] layers;
             Element "edges" [] (edge_node <$> emitted_edges f edge_mapping)]
    ∧ Forall2 (written_layer (create_layer_ids f) version)
        (sorted_ops f version) layers
    ∧ create_edge_mapping (create_layer_ids f) f = Ok edge_mapping.
Proof.
  unfold ngfunction_2_ir. intros H. inv_m. subst net.
  eexists _, a, a0. repeat split; [|done].
  by eapply layers_loop_ok.
Qed.

(** ** Ports *)

Lemma versioned_runtime_info_old (version : Z) (rt_info : RTMap) :
  (version < 11)%Z → versioned_runtime_info version rt_info = Ok [].
Proof.
  intros Hv. unfold versioned_runtime_info.
  by replace (11 <=? version)%Z with false by lia.
Qed.

Lemma versioned_runtime_info_new (version : Z) (rt_info : RTMap) :
  (11 ≤ version)%Z →
  versioned_runtime_info version rt_info = append_runtime_info rt_info.
Proof.
  intros Hv. unfold versioned_runtime_info.
  by replace (11 <=? version)%Z with true by lia.
Qed.

Lemma versioned_runtime_info_shape (version : Z) (rt_info : RTMap)
    (rt : list xml_node) :
  versioned_runtime_info version rt_info = Ok rt →
  rt = [] ∨ ∃ nodes, rt = [Element "rt_info" [] nodes].
Proof.
  unfold versioned_runtime_info, append_runtime_info.
  destruct (11 <=? version)%Z; [|intros [= <-]; by left].
  intros H. inv_m. destruct a; injection Hrest as <-; eauto.
Qed.

Lemma input_ports_ok (version : Z) (is_lstm : bool) (inputs : list Input) :
  ∀ (n : nat) (ports : list xml_node) (port_id : nat),
    input_ports version is_lstm n n inputs = Ok (ports, port_id) →
    port_id = (n + length inputs)%nat
    ∧ Forall2 (λ ki port,
                 ∃ rt, versioned_runtime_info version (in_rt_info ki.2) = Ok rt
                       ∧ port_of ki.1 (in_partial_shape ki.2) rt port)
        (serialized_inputs is_lstm n inputs) ports.
Proof.
  induction inputs as [|i inputs IH]; intros n ports port_id H; simpl in H.
  - injection H as <- <-. split; [simpl; lia | constructor].
  - simpl. destruct (Nat.eqb n 6 && is_lstm).
    + destruct (IH _ _ _ H) as [-> Hf]. split; [lia | done].
    + inv_m. destruct a0 as [rest pid]. simpl in Hrest0.
      injection Hrest0 as <- <-.
      destruct (IH _ _ _ Hstep0) as [-> Hf]. split; [lia|].
      constructor; [|done]. exists a. repeat split; done.
Qed.

Lemma output_ports_ok (version : Z) (outputs : list Output) :
  ∀ (port_id : nat) (ports : list xml_node),
    output_ports version port_id outputs = Ok ports →
    Forall2 (λ ko port,
               ∃ rt, versioned_runtime_info version (out_rt_info ko.2) = Ok rt
                     ∧ port_of ko.1 (out_partial_shape ko.2) rt port)
      (indexed_outputs port_id outputs) ports.
Proof.
  induction outputs as [|o outputs IH]; intros port_id ports H; simpl in H.
  - injection H as <-. constructor.
  - inv_m. injection Hrest0 as <-. simpl. constructor; [|by apply IH].
    exists a. split; [done|]. unfold port_of, id_attribute. simpl.
    by destruct (String.eqb (concat_names _ "") "").
Qed.

Lemma layer_children_blocks (type_name : string) (attrs data : list (string * string))
    (rt : list xml_node) (inputs output : option xml_node) :
  (rt = [] ∨ ∃ nodes, rt = [Element "rt_info" [] nodes]) →
  (inputs = None ∨ ∃ ports, inputs = Some (Element "input" [] ports)) →
  (output = None ∨ ∃ ports, output = Some (Element "output" [] ports)) →
  let layer := Element "layer" attrs
                 (layer_children type_name data rt inputs output) in
  child "input" layer = inputs ∧ child "output" layer = output.
Proof.
  intros [->|[nodes ->]] [->|[ips ->]] [->|[ops ->]];
    unfold layer_children, child; destruct (is_body_op type_name), data;
    split; reflexivity.
Qed.

Lemma input_block_shape (version : Z) (node : Node) inputs (port_id : nat) :
  input_block version node = Ok (inputs, port_id) →
  inputs = None ∨ ∃ ports, inputs = Some (Element "input" [] ports).
Proof.
  unfold input_block. destruct (Nat.ltb 0 (get_input_size node)).
  - intros H. inv_m. injection Hrest as <- _. eauto.
  - intros [= <- _]. by left.
Qed.

Lemma output_block_shape (version : Z) (node : Node) (port_id : nat) output :
  output_block version node port_id = Ok output →
  output = None ∨ ∃ ports, output = Some (Element "output" [] ports).
Proof.
  unfold output_block. destruct (_ && _).
  - intros H. inv_m. injection Hrest as <-. eauto.
  - intros [= <-]. by left.
Qed.

Lemma to_string_inj (a b : Z) : to_string a = to_string b → a = b.
Proof.
  unfold to_string. intros H. apply to_int_inj.
  assert (Hnn : ∀ z, Z.to_int z ≠ Decimal.Pos Decimal.Nil
                     ∧ Z.to_int z ≠ Decimal.Neg Decimal.Nil).
  { intros [|p|p]; simpl; split; try discriminate;
      intros [= Hp]; by apply Unsigned.to_uint_nonnil in Hp. }
  destruct (Hnn a) as [Ha1 Ha2], (Hnn b) as [Hb1 Hb2].
  pose proof (NilZero.isi _ Ha1 Ha2) as Ea.
  pose proof (NilZero.isi _ Hb1 Hb2) as Eb.
  rewrite H in Ea. congruence.
Qed.

Lemma input_block_counter (version : Z) (node : Node) inputs (port_id : nat) :
  input_block version node = Ok (inputs, port_id) →
  port_id = get_input_size node.
Proof.
  unfold input_block, get_input_size.
  destruct (Nat.ltb_spec 0 (length (node_inputs node))) as [Hlt|Hge].
  - intros H. inv_m. destruct a as [ports pid]. injection Hrest as _ <-.
    by destruct (input_ports_ok _ _ _ _ _ _ Hstep) as [-> _].
  - intros [= _ <-]. lia.
Qed.

Lemma written_layer_id (layer_ids : gmap nat nat) (version : Z) (node : Node)
    (layer : xml_node) :
  written_layer layer_ids version node layer →
  xml_name layer = "layer"
  ∧ ∃ id, layer_ids !! node_ptr node = Some id
          ∧ id_attribute layer = Some (to_string (Z.of_nat id)).
Proof.
  intros (id & attrs & data & rt & inputs & pid & output & Hid & -> & Hattr & _).
  split; [done|]. by exists id.
Qed.

(** The ports of the input block: one per serialized input, numbered by
    the index of the input. *)
Lemma written_layer_input_ports (layer_ids : gmap nat nat) (version : Z)
    (node : Node) (layer : xml_node) :
  written_layer layer_ids version node layer →
  Forall2 (λ ki port,
             ∃ rt, versioned_runtime_info version (in_rt_info ki.2) = Ok rt
                   ∧ port_of ki.1 (in_partial_shape ki.2) rt port)
    (serialized_inputs (is_LSTMCell_v0 node) 0 (node_inputs node))
    (block_ports "input" layer).
Proof.
  intros (id & attrs & data & rt & inputs & pid & output
          & Hid & -> & Hattr & Hrt & Hin & Hout).
  destruct (layer_children_blocks (get_type_name node) attrs data rt inputs output
              (versioned_runtime_info_shape _ _ _ Hrt)
              (input_block_shape _ _ _ _ Hin)
              (output_block_shape _ _ _ _ Hout)) as [Hci _].
  unfold block_ports. rewrite Hci. clear Hci.
  unfold input_block, get_input_size in Hin.
  destruct (Nat.ltb_spec 0 (length (node_inputs node))) as [Hlt|Hge].
  - inv_m. destruct a as [ports p]. injection Hrest as <- _. simpl.
    by destruct (input_ports_ok _ _ _ _ _ _ Hstep) as [_ Hf].
  - injection Hin as <- _. destruct (node_inputs node); [constructor|simpl in Hge; lia].
Qed.

(** The ports of the output block continue the numbering after the
    inputs; a Result has no output block. *)
Lemma written_layer_output_ports (layer_ids : gmap nat nat) (version : Z)
    (node : Node) (layer : xml_node) :
  written_layer layer_ids version node layer →
  Forall2 (λ ko port,
             ∃ rt, versioned_runtime_info version (out_rt_info ko.2) = Ok rt
                   ∧ port_of ko.1 (out_partial_shape ko.2) rt port)
    (if is_output node then []
     else indexed_outputs (get_input_size node) (node_outputs node))
    (block_ports "output" layer).
Proof.
  intros (id & attrs & data & rt & inputs & pid & output
          & Hid & -> & Hattr & Hrt & Hin & Hout).
  destruct (layer_children_blocks (get_type_name node) attrs data rt inputs output
              (versioned_runtime_info_shape _ _ _ Hrt)
              (input_block_shape _ _ _ _ Hin)
              (output_block_shape _ _ _ _ Hout)) as [_ Hco].
  unfold block_ports. rewrite Hco. clear Hco.
  apply input_block_counter in Hin as ->.
  unfold output_block, get_output_size in Hout.
  destruct (is_output node); simpl in *.
  - rewrite andb_false_r in Hout. injection Hout as <-. constructor.
  - rewrite andb_true_r in Hout.
    destruct (Nat.ltb_spec 0 (length (node_outputs node))) as [Hlt|Hge].
    + inv_m. injection Hrest as <-. simpl. by apply output_ports_ok.
    + injection Hout as <-.
      destruct (node_outputs node); [constructor|simpl in Hge; lia].
Qed.

(** ** Order of the layers and runtime info of the ports *)

Lemma has_element_children (name : string) (x : xml_node) :
  xml_name x ≠ name →
  Forall (λ c, has_element name c = false) (xml_children x) →
  has_element name x = false.
Proof.
  destruct x as [n attrs children|v]; simpl; [|done].
  intros Hn Hc. rewrite (proj2 (String.eqb_neq n name) Hn). simpl.
  induction Hc as [|c cs Hc _ IH]; simpl; [done|]. by rewrite Hc, IH.
Qed.

Lemma dim_nodes_no_element (name : string) (shape : Slice.PartialShape) :
  name ≠ "dim" → Forall (λ c, has_element name c = false) (dim_nodes shape).
Proof.
  intros Hn. destruct shape as [|dims]; simpl; [constructor|].
  apply Forall_fmap, Forall_forall. intros d _.
  apply has_element_children; [simpl; congruence | repeat constructor].
Qed.

Lemma plain_port_no_rt_info id shape port :
  port_of id shape [] port → has_element "rt_info" port = false.
Proof.
  intros (Hname & _ & Hch). apply has_element_children.
  - by rewrite Hname.
  - rewrite Hch, app_nil_r. by apply dim_nodes_no_element.
Qed.

Lemma layer_children_Forall (P : xml_node → Prop) (type_name : string)
    (data : list (string * string)) (rt : list xml_node)
    (inputs output : option xml_node) :
  P (Element "data" data []) → Forall P rt →
  Forall P (option_nodes inputs) → Forall P (option_nodes output) →
  Forall P (layer_children type_name data rt inputs output).
Proof.
  intros Hd Hrt Hi Ho. unfold layer_children.
  assert (Hdn : Forall P match data with [] => [] | _ => [Element "data" data []] end).
  { destruct data; repeat constructor; done. }
  destruct (is_body_op type_name); [destruct inputs as [i|]; simpl in *|].
  - apply Forall_cons; split; [by inversion Hi|].
    by repeat (apply Forall_app; split).
  - by repeat (apply Forall_app; split).
  - by repeat (apply Forall_app; split).
Qed.

Lemma written_layer_ports (layer_ids : gmap nat nat) (version : Z) (node : Node)
    (layer : xml_node) :
  written_layer layer_ids version node layer →
  ((11 ≤ version)%Z → layer_ports embedded_rt_info node layer)
  ∧ ((version < 11)%Z → layer_ports no_rt_info node layer).
Proof.
  intros Hw.
  pose proof (written_layer_input_ports _ _ _ _ Hw) as Hi.
  pose proof (written_layer_output_ports _ _ _ _ Hw) as Ho.
  split; intros Hv; split.
  - eapply Forall2_impl; [exact Hi|]. intros ki port (rt & Hrt & Hp).
    exists rt. split; [|done]. unfold embedded_rt_info.
    by rewrite <- (versioned_runtime_info_new version).
  - eapply Forall2_impl; [exact Ho|]. intros ko port (rt & Hrt & Hp).
    exists rt. split; [|done]. unfold embedded_rt_info.
    by rewrite <- (versioned_runtime_info_new version).
  - eapply Forall2_impl; [exact Hi|]. intros ki port (rt & Hrt & Hp).
    exists rt. split; [|done]. rewrite versioned_runtime_info_old in Hrt by done.
    by injection Hrt as <-.
  - eapply Forall2_impl; [exact Ho|]. intros ko port (rt & Hrt & Hp).
    exists rt. split; [|done]. rewrite versioned_runtime_info_old in Hrt by done.
    by injection Hrt as <-.
Qed.

Lemma Forall2_right {A B} (R : A → B → Prop) (Q : B → Prop) (l : list A) (k : list B) :
  Forall2 R l k → (∀ x y, R x y → Q y) → Forall Q k.
Proof. induction 1; intros HQ; constructor; eauto. Qed.

Lemma written_layer_no_rt_info (layer_ids : gmap nat nat) (version : Z)
    (node : Node) (layer : xml_node) :
  (version < 11)%Z → written_layer layer_ids version node layer →
  has_element "rt_info" layer = false.
Proof.
  intros Hv (id & attrs & data & rt & inputs & pid & output
             & Hid & -> & Hattr & Hrt & Hin & Hout).
  rewrite versioned_runtime_info_old in Hrt by done. injection Hrt as <-.
  assert (Hplain : ∀ (A : Type) (l : list A) (rt_of : A → RTMap) shape_of id_of ports,
            Forall2 (λ (x : A) port,
                       ∃ rt, versioned_runtime_info version (rt_of x) = Ok rt
                             ∧ port_of (id_of x) (shape_of x) rt port) l ports →
            Forall (λ c, has_element "rt_info" c = false) ports).
  { intros A l rt_of shape_of id_of ports Hf. eapply Forall2_right; [exact Hf|].
    intros x port (rt & Hrt & Hp). simpl in *.
    rewrite versioned_runtime_info_old in Hrt by done. injection Hrt as <-.
    by eapply plain_port_no_rt_info. }
  apply has_element_children; [simpl; congruence|]. simpl.
  apply layer_children_Forall; [done|constructor|..].
  - unfold input_block in Hin. destruct (Nat.ltb 0 (get_input_size node)).
    + inv_m. destruct a as [ports p]. injection Hrest as <- _.
      repeat constructor. apply has_element_children; [simpl; congruence|]. simpl.
      destruct (input_ports_ok _ _ _ _ _ _ Hstep) as [_ Hf].
      by eapply (Hplain _ _ (λ ki, in_rt_info ki.2) (λ ki, in_partial_shape ki.2) fst).
    + injection Hin as <- _. constructor.
  - unfold output_block in Hout. destruct (_ && _).
    + inv_m. injection Hrest as <-.
      repeat constructor. apply has_element_children; [simpl; congruence|]. simpl.
      pose proof (output_ports_ok _ _ _ _ Hstep) as Hf.
      by eapply (Hplain _ _ (λ ko, out_rt_info ko.2) (λ ko, out_partial_shape ko.2) fst).
    + injection Hout as <-. constructor.
Qed.


(** ** Unique names *)

Lemma generate_unique_name_from_used (tries : nat) (unique_names : gset string)
    (base_name : string) (suffix : Z) :
  generate_unique_name_from tries unique_names base_name suffix ∈ unique_names →
  ∀ k : nat, (k ≤ tries)%nat →
    base_name +:+ to_string (suffix + Z.of_nat k) ∈ unique_names.
Proof.
  revert suffix. induction tries as [|tries IH]; intros suffix Hin k Hk; simpl in Hin.
  - replace k with 0%nat by lia. by rewrite Z.add_0_r.
  - destruct (decide (base_name +:+ to_string suffix ∈ unique_names)) as [Hnew|Hnew].
    + rewrite bool_decide_eq_true_2 in Hin by done.
      destruct k as [|k]; [by rewrite Z.add_0_r|].
      replace (suffix + Z.of_nat (S k))%Z with (suffix + 1 + Z.of_nat k)%Z by lia.
      apply IH; [done|lia].
    + rewrite bool_decide_eq_false_2 in Hin by done. done.
Qed.

(** The bound on the recursion is never reached with all names taken:
    the generated name is unused. *)
Lemma generate_unique_name_fresh (unique_names : gset string)
    (base_name : string) (suffix : Z) :
  generate_unique_name unique_names base_name suffix ∉ unique_names.
Proof.
  unfold generate_unique_name. intros Hin.
  pose proof (generate_unique_name_from_used _ _ _ _ Hin) as Hall.
  set (names := (λ k : nat, base_name +:+ to_string (suffix + Z.of_nat k))
                  <$> seq 0 (S (size unique_names))).
  assert (Hnd : NoDup names).
  { apply NoDup_fmap_2; [|apply NoDup_seq].
    intros a b Hab. apply (inj (String.append base_name)) in Hab.
    apply to_string_inj in Hab. lia. }
  assert (Hsub : list_to_set names ⊆ unique_names).
  { intros x Hx. apply elem_of_list_to_set in Hx.
    apply list_elem_of_fmap in Hx as (k & -> & Hk).
    apply Hall. apply elem_of_seq in Hk. lia. }
  apply subseteq_size in Hsub. rewrite size_list_to_set in Hsub by done.
  unfold names in Hsub. rewrite length_fmap, length_seq in Hsub. lia.
Qed.

Lemma get_node_unique_name_fresh (unique_names : gset string) (n : Node) :
  let unique := get_node_unique_name unique_names n in
  (unique.1 ∉ unique_names) ∧ unique.2 = {[unique.1]} ∪ unique_names.
Proof.
  unfold get_node_unique_name. simpl. split; [|done].
  destruct (decide (get_friendly_name n ∈ unique_names)) as [Hin|Hin].
  - rewrite bool_decide_eq_true_2 by done. apply generate_unique_name_fresh.
  - by rewrite bool_decide_eq_false_2.
Qed.

(** ** Layer ids *)

Lemma create_layer_ids_from_absent (ops : list Node) (i : nat)
    (m : gmap nat nat) (p : nat) :
  p ∉ node_ptr <$> ops → create_layer_ids_from i ops m !! p = m !! p.
Proof.
  revert i m. induction ops as [|a ops IH]; intros i m Hp; simpl; [done|].
  rewrite fmap_cons in Hp. apply not_elem_of_cons in Hp as [Hne Hp].
  rewrite IH by done. by rewrite lookup_insert_ne.
Qed.

Lemma create_layer_ids_from_lookup (ops : list Node) (i k : nat)
    (m : gmap nat nat) (n : Node) :
  NoDup (node_ptr <$> ops) → ops !! k = Some n →
  create_layer_ids_from i ops m !! node_ptr n = Some (i + k)%nat.
Proof.
  revert i k m. induction ops as [|a ops IH]; intros i k m Hnd Hk; [done|].
  rewrite fmap_cons in Hnd. apply NoDup_cons in Hnd as [Hnotin Hnd].
  destruct k as [|k]; simpl in *.
  - simplify_eq. rewrite create_layer_ids_from_absent by done.
    rewrite lookup_insert_eq. f_equal. lia.
  - rewrite (IH (S i) k _ Hnd Hk). f_equal. lia.
Qed.

Lemma create_layer_ids_from_inv (ops : list Node) (i : nat) (m : gmap nat nat)
    (p id : nat) :
  create_layer_ids_from i ops m !! p = Some id →
  m !! p = Some id
  ∨ ∃ k n, ops !! k = Some n ∧ node_ptr n = p ∧ id = (i + k)%nat.
Proof.
  revert i m. induction ops as [|a ops IH]; intros i m H; simpl in H; [by left|].
  destruct (IH _ _ H) as [Hm|(k & n & Hk & Hp & ->)].
  - destruct (decide (node_ptr a = p)) as [<-|Hne].
    + rewrite lookup_insert_eq in Hm. injection Hm as <-.
      right. exists 0%nat, a. repeat split; try done; lia.
    + rewrite lookup_insert_ne in Hm by done. by left.
  - right. exists (S k), n. repeat split; try done; lia.
Qed.

Lemma same_ptr_same_node (ops : list Node) (a b : Node) :
  NoDup (node_ptr <$> ops) → a ∈ ops → b ∈ ops → node_ptr a = node_ptr b → a = b.
Proof.
  intros Hnd Ha Hb Hp.
  apply list_elem_of_lookup in Ha as [i Hi], Hb as [j Hj].
  assert (i = j) as ->; [|congruence].
  eapply NoDup_lookup; [exact Hnd|..]; rewrite list_lookup_fmap.
  - by rewrite Hi.
  - rewrite Hj. simpl. by rewrite Hp.
Qed.

Lemma node_at_Some (ptr : nat) (ops : list Node) (n : Node) :
  node_at ptr ops = Some n → n ∈ ops ∧ node_ptr n = ptr.
Proof.
  unfold node_at. intros H. apply find_some in H as [Hin Hp].
  split; [by apply list_elem_of_In | by apply Nat.eqb_eq].
Qed.

(** In a graph with distinct nodes, the layer id of a node is its
    position in the ordered operations. *)
Lemma create_layer_ids_position (f : Function) (n : Node) (id : nat) :
  NoDup (node_ptr <$> f_ordered_ops f) → n ∈ f_ordered_ops f →
  create_layer_ids f !! node_ptr n = Some id → f_ordered_ops f !! id = Some n.
Proof.
  intros Hnd Hn Hid. unfold create_layer_ids in Hid.
  apply create_layer_ids_from_inv in Hid as [Hm|(k & n' & Hk & Hp & ->)].
  - by rewrite lookup_empty in Hm.
  - simpl. rewrite Hk. f_equal.
    eapply same_ptr_same_node; eauto. eapply list_elem_of_lookup_2; eauto.
Qed.

(** ** Edges *)

Lemma node_edges_ok (layer_ids : gmap nat nat) (ops : list Node) (current : Node)
    (inputs : list Input) :
  ∀ (index : nat) (edges : list Edge),
    node_edges layer_ids ops current index inputs = Ok edges →
    ∀ e, e ∈ edges →
      ∃ i source,
        (index ≤ to_port e)%nat ∧ inputs !! (to_port e - index)%nat = Some i
        ∧ node_at (in_source_node i) ops = Some source
        ∧ layer_ids !! in_source_node i = Some (from_layer e)
        ∧ from_port e = (get_input_size source + in_source_index i)%nat
        ∧ layer_ids !! node_ptr current = Some (to_layer e).
Proof.
  induction inputs as [|i inputs IH]; intros index edges H e He; simpl in H.
  - injection H as <-. by apply elem_of_nil in He.
  - destruct (layer_ids !! in_source_node i) as [from|] eqn:Hfrom; [|done].
    destruct (node_at (in_source_node i) ops) as [source|] eqn:Hsrc; [|done].
    destruct (layer_ids !! node_ptr current) as [to|] eqn:Hto; [|done].
    inv_m. simplify_eq.
    apply elem_of_cons in He as [->|He].
    + exists i, source. simpl. rewrite Nat.sub_diag. repeat split; done.
    + destruct (IH _ _ Hstep e He) as (i' & source' & Hle & Hl & Hrest).
      exists i', source'. split; [lia|]. split; [|done].
      replace (to_port e - index)%nat with (S (to_port e - S index)) by lia.
      done.
Qed.

Lemma all_edges_ok (layer_ids : gmap nat nat) (ops nodes : list Node) :
  ∀ edges, all_edges layer_ids ops nodes = Ok edges →
    ∀ e, e ∈ edges →
      ∃ consumer i source,
        consumer ∈ nodes ∧ is_parameter consumer = false
        ∧ node_inputs consumer !! to_port e = Some i
        ∧ node_at (in_source_node i) ops = Some source
        ∧ layer_ids !! in_source_node i = Some (from_layer e)
        ∧ from_port e = (get_input_size source + in_source_index i)%nat
        ∧ layer_ids !! node_ptr consumer = Some (to_layer e).
Proof.
  induction nodes as [|n nodes IH]; intros edges H e He; simpl in H.
  - injection H as <-. by apply elem_of_nil in He.
  - assert (Hrestcase : ∀ edges', all_edges layer_ids ops nodes = Ok edges' →
              e ∈ edges' → ∃ consumer i source,
                consumer ∈ n :: nodes ∧ is_parameter consumer = false
                ∧ node_inputs consumer !! to_port e = Some i
                ∧ node_at (in_source_node i) ops = Some source
                ∧ layer_ids !! in_source_node i = Some (from_layer e)
                ∧ from_port e = (get_input_size source + in_source_index i)%nat
                ∧ layer_ids !! node_ptr consumer = Some (to_layer e)).
    { intros edges' H' He'.
      destruct (IH _ H' e He') as (c & i & src & Hc & Hrest).
      exists c, i, src. split; [by apply elem_of_cons; right | done]. }
    destruct (is_parameter n) eqn:Hp; [by eapply Hrestcase|].
    inv_m. simplify_eq.
    apply elem_of_app in He as [He|He]; [|by eapply Hrestcase].
    destruct (node_edges_ok _ _ _ _ _ _ Hstep e He) as (i & src & _ & Hl & Hrest).
    rewrite Nat.sub_0_r in Hl.
    exists n, i, src. split; [by apply elem_of_cons; left | done].
Qed.

Global Instance edge_le_total : Total edge_le.
Proof. intros a b. unfold edge_le. lia. Qed.

Global Instance edge_le_trans : Transitive edge_le.
Proof. intros a b c. unfold edge_le. lia. Qed.

Lemma StronglySorted_filter {A} (R : relation A) (P : A → Prop)
    `{∀ x, Decision (P x)} (l : list A) :
  StronglySorted R l → StronglySorted R (filter P l).
Proof.
  induction 1 as [|x l Hs IH Hx]; [constructor|].
  rewrite filter_cons. destruct (decide (P x)); [|done].
  constructor; [done|].
  rewrite Forall_forall in Hx. apply Forall_forall. intros y Hy.
  apply Hx. by apply list_elem_of_filter in Hy as [_ Hy].
Qed.

(** The written edges are sorted by source layer, and each one is the
    edge of an input of a node of the graph. *)
Lemma emitted_edges_ok (f : Function) (edge_mapping : list Edge) :
  create_edge_mapping (create_layer_ids f) f = Ok edge_mapping →
  Sorted edge_le (emitted_edges f edge_mapping)
  ∧ ∀ e, e ∈ emitted_edges f edge_mapping →
      edge_skipped f e = false
      ∧ edge_of (create_layer_ids f) (f_ordered_ops f) e.
Proof.
  unfold create_edge_mapping. intros H. inv_m. simplify_eq. split.
  - apply StronglySorted_Sorted, StronglySorted_filter.
    apply StronglySorted_merge_sort; apply _.
  - intros e He. unfold emitted_edges in He.
    apply list_elem_of_filter in He as [Hskip He]. split; [done|].
    rewrite merge_sort_Permutation in He.
    destruct (all_edges_ok _ _ _ _ Hstep e He) as (c & i & src & Hrest).
    by exists c, i, src.
Qed.

(** ** Port numbering *)

Lemma serialized_inputs_indices (inputs : list Input) (n : nat) :
  (serialized_inputs true n inputs).*1
  = filter (λ j, j ≠ 6%nat) (seq n (length inputs)).
Proof.
  revert n. induction inputs as [|i inputs IH]; intros n; simpl; [done|].
  rewrite filter_cons. rewrite andb_true_r.
  destruct (Nat.eqb_spec n 6) as [->|Hne].
  - rewrite decide_False by (intros H; by apply H). apply IH.
  - rewrite decide_True by done. rewrite fmap_cons. simpl. by rewrite IH.
Qed.

Lemma indexed_outputs_indices (outputs : list Output) (n : nat) :
  (indexed_outputs n outputs).*1 = seq n (length outputs).
Proof.
  revert n. induction outputs as [|o outputs IH]; intros n; simpl; [done|].
  by rewrite IH.
Qed.

Lemma indexed_outputs_lookup (outputs : list Output) (n k : nat) (o : Output) :
  outputs !! k = Some o → indexed_outputs n outputs !! k = Some ((n + k)%nat, o).
Proof.
  revert n k. induction outputs as [|o' outputs IH]; intros n k H; [done|].
  destruct k as [|k]; simpl in *.
  - simplify_eq. do 2 f_equal. lia.
  - rewrite (IH (S n) k H). do 2 f_equal. lia.
Qed.

Lemma port_ids {A} (l : list (nat * A)) (ports : list xml_node)
    (R : nat * A → list xml_node → Prop) (shape : nat * A → Slice.PartialShape) :
  Forall2 (λ ki port, ∃ rt, R ki rt ∧ port_of ki.1 (shape ki) rt port) l ports →
  id_attribute <$> ports = (λ j, Some (to_string (Z.of_nat j))) <$> l.*1.
Proof.
  induction 1 as [|ki port l ports (rt & _ & _ & Hid & _) _ IH]; [done|].
  rewrite !fmap_cons. by rewrite Hid, IH.
Qed.

(** C9: for a version-0 LSTMCell node, whatever the format version, the
    input block of its layer has no port for the input of index 6: the port
    ids are the input indices other than 6, while the output ports are
    numbered from the input count on, so the counter has advanced past the
    skipped input; and no written edge has that node as its target with
    to-port 6. *)
Theorem lstm_peephole_input_skipped (f : Function)
    (custom_opsets : list (string * OpSet)) (version : Z) (deterministic : bool)
    (w w' : ConstantWriter) (net : xml_node) (node : Node) (k : nat) :
  NoDup (node_ptr <$> f_ordered_ops f) →
  ngfunction_2_ir "net" f custom_opsets version deterministic w = (Ok net, w') →
  node ∈ f_ordered_ops f →
  sorted_ops f version !! k = Some node →
  node_class node = LSTMCell_v0 →
  type_info_name node = "LSTMCell" → type_info_version node = 0%Z →
  ∃ attrs layers edges layer id,
    net = Element "net" attrs
            [Element "layers" [] layers; Element "edges" [] (edge_node <$> edges)]
    ∧ layers !! k = Some layer
    ∧ create_layer_ids f !! node_ptr node = Some id
    ∧ id_attribute layer = Some (to_string (Z.of_nat id))
    ∧ id_attribute <$> block_ports "input" layer
      = (λ j, Some (to_string (Z.of_nat j)))
          <$> filter (λ j, j ≠ 6%nat) (seq 0 (get_input_size node))
    ∧ id_attribute <$> block_ports "output" layer
      = (λ j, Some (to_string (Z.of_nat j)))
          <$> seq (get_input_size node) (get_output_size node)
    ∧ ∀ e, e ∈ edges → ¬ (to_layer e = id ∧ to_port e = 6%nat).
Proof.
  intros Hnd H Hin Hk Hclass Hname Hver.
  destruct (ngfunction_2_ir_ok _ _ _ _ _ _ _ _ H)
    as (attrs & layers & edge_mapping & -> & Hlayers & Hedges).
  destruct (Forall2_lookup_l _ _ _ _ _ Hlayers Hk) as (layer & Hl & Hw).
  destruct (written_layer_id _ _ _ _ Hw) as (_ & id & Hid & Hattr).
  exists attrs, layers, (emitted_edges f edge_mapping), layer, id.
  repeat split; try done.
  - pose proof (written_layer_input_ports _ _ _ _ Hw) as Hp.
    unfold is_LSTMCell_v0 in Hp. rewrite bool_decide_eq_true_2 in Hp by done.
    rewrite (port_ids _ _ (λ ki rt, versioned_runtime_info version (in_rt_info ki.2) = Ok rt)
               (λ ki, in_partial_shape ki.2) Hp).
    by rewrite serialized_inputs_indices.
  - pose proof (written_layer_output_ports _ _ _ _ Hw) as Hp.
    unfold is_output in Hp. rewrite bool_decide_eq_false_2 in Hp by congruence.
    rewrite (port_ids _ _ (λ ko rt, versioned_runtime_info version (out_rt_info ko.2) = Ok rt)
               (λ ko, out_partial_shape ko.2) Hp).
    by rewrite indexed_outputs_indices.
  - intros e He [Hto Hport].
    destruct (emitted_edges_ok f edge_mapping Hedges) as [_ Hall].
    destruct (Hall e He) as [Hskip _].
    unfold edge_skipped in Hskip. rewrite Hport, Hto in Hskip.
    rewrite (create_layer_ids_position f node id Hnd Hin Hid) in Hskip.
    rewrite Hname, Hver in Hskip. discriminate.
Qed.

Lemma sorted_ops_covers (f : Function) (version : Z) (n : Node) :
  well_formed_function f → n ∈ f_ordered_ops f → is_output n = false →
  n ∈ sorted_ops f version.
Proof.
  intros Hwf Hn Hout. unfold sorted_ops. destruct (11 <=? version)%Z; [|done].
  destruct (is_parameter n) eqn:Hp.
  { apply elem_of_app. left.
    pose proof (wf_parameters f Hwf) as Hps. rewrite Forall_forall in Hps.
    by apply Hps. }
  destruct (is_sink n) eqn:Hs.
  { apply elem_of_app. right. apply elem_of_app. right.
    apply elem_of_app. left.
    pose proof (wf_sinks f Hwf) as Hss. rewrite Forall_forall in Hss.
    by apply Hss. }
  apply elem_of_app. right. apply elem_of_app. left.
  by apply list_elem_of_filter.
Qed.



Lemma lstm_peephole_input_skipped_witness :
  let run := ngfunction_2_ir "net" lstm_graph [] IR_V10 false (new [] true) in
  ∃ layer,
    document_layers (document_of run) !! 1%nat = Some layer
    ∧ id_attribute <$> block_ports "input" layer
      = [Some "0"; Some "1"; Some "2"; Some "3"; Some "4"; Some "5"]
    ∧ id_attribute <$> block_ports "output" layer = [Some "7"; Some "8"].
Proof.
  intros run.
  destruct (lstm_peephole_input_skipped lstm_graph [] IR_V10 false (new [] true)
              run.2 (document_of run) lstm_node 1)
    as (attrs & layers & edges & layer & id & Hnet & Hl & Hid & Hattr
        & Hin & Hout & Hedges).
  - apply (bool_decide_unpack _). vm_compute. exact I.
  - vm_compute. reflexivity.
  - apply (bool_decide_unpack _). vm_compute. exact I.
  - reflexivity.
  - reflexivity.
  - reflexivity.
  - reflexivity.
  - exists layer. unfold document_layers. rewrite Hnet. simpl.
    split; [exact Hl|]. split; [exact Hin | exact Hout].
Defined.



(** ** Determinism *)

Section determinism.
Context (sigma : nat → nat) `{!Inj (=) (=) sigma}.

Lemma ids_rel_insert (m1 m2 : gmap nat nat) (p id : nat) :
  ids_rel sigma m1 m2 → ids_rel sigma (<[p := id]> m1) (<[sigma p := id]> m2).
Proof.
  intros Hrel q. destruct (decide (p = q)) as [->|Hne].
  - by rewrite !lookup_insert_eq.
  - rewrite !lookup_insert_ne; [apply Hrel|done|]. intros Heq. by apply Hne, (inj sigma).
Qed.

Lemma create_layer_ids_from_rel (ops1 ops2 : list Node) :
  Forall2 (node_rel sigma) ops1 ops2 →
  ∀ (i : nat) (m1 m2 : gmap nat nat), ids_rel sigma m1 m2 →
    ids_rel sigma (create_layer_ids_from i ops1 m1) (create_layer_ids_from i ops2 m2).
Proof.
  induction 1 as [|n1 n2 ops1 ops2 Hn _ IH]; intros i m1 m2 Hm; simpl; [done|].
  apply IH. rewrite (nr_ptr _ _ _ Hn). by apply ids_rel_insert.
Qed.

Lemma create_layer_ids_rel (f1 f2 : Function) :
  function_rel sigma f1 f2 →
  ids_rel sigma (create_layer_ids f1) (create_layer_ids f2).
Proof.
  intros Hf. apply create_layer_ids_from_rel; [apply Hf|].
  intros p. by rewrite !lookup_empty.
Qed.

Lemma input_ports_rel (version : Z) (is_lstm : bool) (inputs1 inputs2 : list Input) :
  Forall2 (input_rel sigma) inputs1 inputs2 →
  ∀ index port_id,
    input_ports version is_lstm index port_id inputs2
    = input_ports version is_lstm index port_id inputs1.
Proof.
  induction 1 as [|i1 i2 l1 l2 Hi _ IH]; intros index port_id; simpl; [done|].
  rewrite IH. by rewrite (ir_rt_info _ _ _ Hi), (ir_type _ _ _ Hi), (ir_shape _ _ _ Hi).
Qed.

Lemma get_opset_name_rel (n1 n2 : Node) (custom_opsets : list (string * OpSet)) :
  node_rel sigma n1 n2 →
  get_opset_name n2 custom_opsets = get_opset_name n1 custom_opsets.
Proof.
  intros Hn. unfold get_opset_name, contains_op_type.
  by rewrite (nr_type_version_id _ _ _ Hn), (nr_rt_info _ _ _ Hn),
    (nr_type_name _ _ _ Hn), (nr_type_version _ _ _ Hn).
Qed.

Lemma layer_xml_rel (ids1 ids2 : gmap nat nat) (custom_opsets : list (string * OpSet))
    (version : Z) (exec_graph : bool) (unique_names : gset string) (n1 n2 : Node) :
  ids_rel sigma ids1 ids2 → node_rel sigma n1 n2 →
  layer_xml ids2 custom_opsets version true exec_graph unique_names n2
  = layer_xml ids1 custom_opsets version true exec_graph unique_names n1.
Proof.
  intros Hids Hn. unfold layer_xml.
  rewrite (nr_ptr _ _ _ Hn), Hids.
  unfold input_block, output_block, get_type_name, get_input_size, get_output_size,
    is_LSTMCell_v0, is_output.
  rewrite (get_opset_name_rel n1 n2 _ Hn).
  rewrite (input_ports_rel version _ _ _ (nr_inputs _ _ _ Hn)).
  rewrite <- (Forall2_length _ _ _ (nr_inputs _ _ _ Hn)).
  rewrite (nr_class _ _ _ Hn), (nr_type_name _ _ _ Hn), (nr_outputs _ _ _ Hn),
    (nr_rt_info _ _ _ Hn), (nr_adapters _ _ _ Hn), (nr_visitable _ _ _ Hn),
    (nr_auto _ _ _ Hn).
  destruct (is_name_auto_generated n1) eqn:Hauto; simpl; [done|].
  unfold get_node_unique_name. by rewrite (nr_name _ _ _ Hn Hauto).
Qed.

Lemma layers_loop_rel (ids1 ids2 : gmap nat nat) (custom_opsets : list (string * OpSet))
    (version : Z) (exec_graph : bool) (nodes1 nodes2 : list Node) :
  ids_rel sigma ids1 ids2 → Forall2 (node_rel sigma) nodes1 nodes2 →
  ∀ unique_names w,
    layers_loop ids2 custom_opsets version true exec_graph unique_names nodes2 w
    = layers_loop ids1 custom_opsets version true exec_graph unique_names nodes1 w.
Proof.
  intros Hids. induction 1 as [|n1 n2 l1 l2 Hn _ IH]; intros names w; simpl; [done|].
  unfold bind. rewrite (layer_xml_rel ids1 ids2 _ _ _ _ n1 n2 Hids Hn).
  destruct (layer_xml ids1 custom_opsets version true exec_graph names n1 w)
    as [[layer|e] w1]; [|done].
  by rewrite IH.
Qed.

Lemma node_at_rel (ops1 ops2 : list Node) (p : nat) :
  Forall2 (node_rel sigma) ops1 ops2 →
  get_input_size <$> node_at (sigma p) ops2 = get_input_size <$> node_at p ops1.
Proof.
  unfold node_at. induction 1 as [|n1 n2 l1 l2 Hn _ IH]; simpl; [done|].
  rewrite (nr_ptr _ _ _ Hn).
  destruct (Nat.eqb_spec (node_ptr n1) p) as [->|Hne].
  - rewrite Nat.eqb_refl. simpl. unfold get_input_size.
    by rewrite (Forall2_length _ _ _ (nr_inputs _ _ _ Hn)).
  - rewrite (proj2 (Nat.eqb_neq _ _)); [done|].
    intros Heq. by apply Hne, (inj sigma).
Qed.

Lemma node_edges_rel (ids1 ids2 : gmap nat nat) (ops1 ops2 : list Node)
    (c1 c2 : Node) (inputs1 inputs2 : list Input) :
  ids_rel sigma ids1 ids2 → Forall2 (node_rel sigma) ops1 ops2 →
  node_ptr c2 = sigma (node_ptr c1) →
  Forall2 (input_rel sigma) inputs1 inputs2 →
  ∀ index, node_edges ids2 ops2 c2 index inputs2
           = node_edges ids1 ops1 c1 index inputs1.
Proof.
  intros Hids Hops Hc. induction 1 as [|i1 i2 l1 l2 Hi _ IH]; intros index;
    simpl; [done|].
  rewrite (ir_source _ _ _ Hi), (ir_index _ _ _ Hi), Hc, !Hids, IH.
  pose proof (node_at_rel ops1 ops2 (in_source_node i1) Hops) as Hat.
  destruct (node_at (sigma (in_source_node i1)) ops2) as [s2|],
    (node_at (in_source_node i1) ops1) as [s1|]; simpl in Hat; try done.
  by injection Hat as ->.
Qed.

Lemma is_parameter_rel (n1 n2 : Node) :
  node_rel sigma n1 n2 → is_parameter n2 = is_parameter n1.
Proof. intros Hn. unfold is_parameter. by rewrite (nr_class _ _ _ Hn). Qed.

Lemma is_output_rel (n1 n2 : Node) :
  node_rel sigma n1 n2 → is_output n2 = is_output n1.
Proof. intros Hn. unfold is_output. by rewrite (nr_class _ _ _ Hn). Qed.

Lemma is_sink_rel (n1 n2 : Node) :
  node_rel sigma n1 n2 → is_sink n2 = is_sink n1.
Proof. intros Hn. unfold is_sink. by rewrite (nr_class _ _ _ Hn). Qed.

Lemma all_edges_rel (ids1 ids2 : gmap nat nat) (ops1 ops2 nodes1 nodes2 : list Node) :
  ids_rel sigma ids1 ids2 → Forall2 (node_rel sigma) ops1 ops2 →
  Forall2 (node_rel sigma) nodes1 nodes2 →
  all_edges ids2 ops2 nodes2 = all_edges ids1 ops1 nodes1.
Proof.
  intros Hids Hops. induction 1 as [|n1 n2 l1 l2 Hn _ IH]; simpl; [done|].
  rewrite (is_parameter_rel _ _ Hn), IH.
  by rewrite (node_edges_rel ids1 ids2 ops1 ops2 n1 n2 _ _ Hids Hops
                (nr_ptr _ _ _ Hn) (nr_inputs _ _ _ Hn)).
Qed.

Lemma is_exec_graph_rel (f1 f2 : Function) :
  function_rel sigma f1 f2 → is_exec_graph f2 = is_exec_graph f1.
Proof.
  intros Hf. unfold is_exec_graph.
  induction (fr_ordered_ops _ _ _ Hf) as [|n1 n2 l1 l2 Hn _ IH]; simpl; [done|].
  by rewrite IH, (nr_rt_info _ _ _ Hn).
Qed.

Lemma interior_rel (ops1 ops2 : list Node) :
  Forall2 (node_rel sigma) ops1 ops2 →
  Forall2 (node_rel sigma)
    (filter (λ node, is_parameter node = false ∧ is_output node = false
                     ∧ is_sink node = false) ops1)
    (filter (λ node, is_parameter node = false ∧ is_output node = false
                     ∧ is_sink node = false) ops2).
Proof.
  induction 1 as [|n1 n2 l1 l2 Hn _ IH]; [constructor|].
  rewrite !filter_cons.
  rewrite (is_parameter_rel _ _ Hn), (is_output_rel _ _ Hn), (is_sink_rel _ _ Hn).
  destruct (decide _); [by constructor | done].
Qed.

Lemma sorted_ops_rel (f1 f2 : Function) (version : Z) :
  function_rel sigma f1 f2 →
  Forall2 (node_rel sigma) (sorted_ops f1 version) (sorted_ops f2 version).
Proof.
  intros Hf. unfold sorted_ops. destruct (11 <=? version)%Z; [|apply Hf].
  repeat apply Forall2_app; try apply Hf. apply interior_rel, Hf.
Qed.

Lemma emitted_edges_rel (f1 f2 : Function) (edge_mapping : list Edge) :
  function_rel sigma f1 f2 →
  emitted_edges f2 edge_mapping = emitted_edges f1 edge_mapping.
Proof.
  intros Hf. unfold emitted_edges.
  assert (Hskip : ∀ e, edge_skipped f2 e = edge_skipped f1 e).
  { intros e. unfold edge_skipped. f_equal.
    pose proof (fr_ordered_ops _ _ _ Hf) as Hops.
    destruct (f_ordered_ops f1 !! to_layer e) as [n1|] eqn:H1.
    - destruct (Forall2_lookup_l _ _ _ _ _ Hops H1) as (n2 & -> & Hn).
      by rewrite (nr_type_name _ _ _ Hn), (nr_type_version _ _ _ Hn).
    - destruct (f_ordered_ops f2 !! to_layer e) as [n2|] eqn:H2; [|done].
      destruct (Forall2_lookup_r _ _ _ _ _ Hops H2) as (n1 & Hn1 & _). congruence. }
  induction edge_mapping as [|e edges IH]; [done|].
  rewrite !filter_cons, Hskip, IH. done.
Qed.

Lemma ngfunction_2_ir_rel (netXml : string) (f1 f2 : Function)
    (custom_opsets : list (string * OpSet)) (version : Z) (w : ConstantWriter) :
  function_rel sigma f1 f2 →
  ngfunction_2_ir netXml f2 custom_opsets version true w
  = ngfunction_2_ir netXml f1 custom_opsets version true w.
Proof.
  intros Hf. unfold ngfunction_2_ir, bind, create_edge_mapping, lift.
  pose proof (create_layer_ids_rel f1 f2 Hf) as Hids.
  rewrite (is_exec_graph_rel _ _ Hf).
  rewrite (layers_loop_rel _ _ _ _ _ _ _ Hids (sorted_ops_rel f1 f2 version Hf)).
  rewrite (all_edges_rel _ _ _ _ _ _ Hids (fr_ordered_ops _ _ _ Hf)
             (fr_ordered_ops _ _ _ Hf)).
  destruct (layers_loop _ _ _ _ _ _ _ w) as [[layers|e] w1]; [|done].
  destruct (all_edges _ _ _) as [edges|e]; simpl; [|done].
  rewrite (emitted_edges_rel _ _ _ Hf), (fr_auto _ _ _ Hf).
  destruct (f_is_name_auto_generated f1) eqn:Hauto; simpl; [done|].
  by rewrite (fr_name _ _ _ Hf Hauto).
Qed.

End determinism.

Lemma ngfunction_2_ir_names_omitted (netXml : string) (f : Function)
    (custom_opsets : list (string * OpSet)) (version : Z)
    (w w' : ConstantWriter) (net : xml_node) :
  ngfunction_2_ir netXml f custom_opsets version true w = (Ok net, w') →
  (f_is_name_auto_generated f = true → attribute "name" (xml_attributes net) = None)
  ∧ Forall2 (λ node layer, is_name_auto_generated node = true →
                           attribute "name" (xml_attributes layer) = None)
      (sorted_ops f version) (document_layers net).
Proof.
  unfold ngfunction_2_ir. intros H. inv_m. subst net. split.
  - intros Hauto. rewrite Hauto. reflexivity.
  - unfold document_layers. simpl. by eapply layers_loop_names_omitted.
Qed.


(** Without the deterministic mode the generated names are written, and
    the two documents differ. *)
Example generated_names_written_otherwise :
  (serializeFunc [] lstm_graph UNSPECIFIED [] false).1
  ≠ (serializeFunc [] relabelled_lstm_graph UNSPECIFIED [] false).1.
Proof. vm_compute. discriminate. Qed.


(** ** Further properties of the serializer *)

Import ConstWriterFacts.

Lemma prefix_length (p s : string) :
  String.prefix p s = true → String.length p ≤ String.length s.
Proof.
  revert s. induction p as [|a p IH]; intros [|b s]; simpl; try lia; try discriminate.
  destruct (Ascii.ascii_dec a b); [|discriminate]. intros H. apply IH in H. lia.
Qed.

Lemma prefix_app (p t : string) : String.prefix p (p +:+ t) = true.
Proof.
  induction p as [|a p IH]; simpl; [by destruct t|].
  by destruct (Ascii.ascii_dec a a).
Qed.

Lemma prefix_same_length (p s : string) :
  String.prefix p s = true → String.length s = String.length p → s = p.
Proof.
  revert s. induction p as [|a p IH]; intros [|b s]; simpl; try done.
  destruct (Ascii.ascii_dec a b) as [->|]; [|discriminate].
  intros H Hl. f_equal. apply IH; [done|lia].
Qed.

Lemma rfind_from_ge (pattern s : string) (pos found : nat) :
  rfind_from pattern s pos = Some found → pos ≤ found.
Proof.
  revert pos. induction s as [|c s IH]; intros pos; cbn [rfind_from].
  - destruct (String.prefix _ _); [|done]. intros [= <-]. lia.
  - destruct (rfind_from pattern s (S pos)) as [p|] eqn:Hr.
    + intros [= <-]. apply IH in Hr. lia.
    + destruct (String.prefix _ _); [|done]. intros [= <-]. lia.
Qed.

Lemma rfind_from_short (pattern s : string) (pos : nat) :
  String.length s < String.length pattern → rfind_from pattern s pos = None.
Proof.
  revert pos. induction s as [|c s IH]; intros pos Hl; cbn [rfind_from].
  - destruct (String.prefix pattern "") eqn:Hp; [|done].
    apply prefix_length in Hp. simpl in *. lia.
  - rewrite IH by (simpl in Hl; lia).
    destruct (String.prefix pattern (String c s)) eqn:Hp; [|done].
    apply prefix_length in Hp. lia.
Qed.

Lemma prefix_refl (p : string) : String.prefix p p = true.
Proof. induction p as [|a p IH]; simpl; [done|]. by destruct (Ascii.ascii_dec a a). Qed.

Lemma rfind_from_suffix (pattern stem : string) (pos : nat) :
  pattern ≠ "" →
  rfind_from pattern (stem +:+ pattern) pos = Some (pos + String.length stem).
Proof.
  intros Hne. revert pos. induction stem as [|c stem IH]; intros pos.
  - change ("" +:+ pattern) with pattern.
    destruct pattern as [|a p]; [done|]. cbn [rfind_from].
    rewrite rfind_from_short by (simpl; lia).
    rewrite prefix_refl. f_equal. simpl. lia.
  - change (String c stem +:+ pattern) with (String c (stem +:+ pattern)).
    cbn [rfind_from]. rewrite IH. f_equal. simpl. lia.
Qed.

Lemma rfind_from_last (pattern s : string) (pos : nat) :
  String.length pattern ≤ String.length s →
  rfind_from pattern s pos = Some (pos + (String.length s - String.length pattern)) →
  ∃ stem, s = stem +:+ pattern.
Proof.
  revert pos. induction s as [|c s IH]; intros pos Hl; cbn [rfind_from].
  - intros _. exists "". destruct pattern; [done|simpl in Hl; lia].
  - destruct (rfind_from pattern s (S pos)) as [p|] eqn:Hr.
    + intros [= ->]. pose proof (rfind_from_ge _ _ _ _ Hr) as Hge.
      cbn [String.length] in *.
      destruct (IH (S pos)) as [stem ->]; [lia| |by exists (String c stem)].
      rewrite Hr. f_equal. lia.
    + destruct (String.prefix pattern (String c s)) eqn:Hp; [|done].
      intros [= Hpos]. exists "". change ("" +:+ pattern) with pattern.
      apply prefix_same_length; [done|]. cbn [String.length] in *. lia.
Qed.

Lemma length_append (a b : string) :
  String.length (a +:+ b) = String.length a + String.length b.
Proof. induction a as [|c a IH]; simpl; [done|]. by rewrite IH. Qed.

Lemma valid_xml_path_ok (path accepted : string) :
  valid_xml_path path = Ok accepted →
  accepted = path ∧ ∃ stem, stem ≠ "" ∧ path = stem +:+ ".xml".
Proof.
  unfold valid_xml_path, ngraph_check.
  destruct (Nat.ltb 4 (String.length path)) eqn:Hlen; simpl; [|discriminate].
  apply Nat.ltb_lt in Hlen.
  destruct (bool_decide _) eqn:Hext; simpl; [|discriminate].
  intros [= <-]. split; [done|].
  apply bool_decide_eq_true in Hext.
  destruct (rfind_from_last ".xml" path 0) as [stem ->]; [simpl; lia|done|].
  exists stem. split; [|done]. intros ->. simpl in Hlen. lia.
Qed.

(** X13: [valid_xml_path] accepts exactly the paths that consist of a
    non-empty stem followed by [.xml], and hands them back unchanged;
    every other path (too short, or without the extension at its end) is
    refused with a [CheckFailure]. *)
Theorem valid_xml_path_outcome (path : string) :
  match valid_xml_path path with
  | Ok accepted =>
      accepted = path ∧ ∃ stem, stem ≠ "" ∧ path = stem +:+ ".xml"
  | Raise e =>
      (∃ msg, e = CheckFailure msg) ∧ ¬ ∃ stem, stem ≠ "" ∧ path = stem +:+ ".xml"
  end.
Proof.
  destruct (valid_xml_path path) as [accepted|e] eqn:Hvalid.
  { by apply valid_xml_path_ok. }
  revert Hvalid. unfold valid_xml_path, ngraph_check.
  destruct (Nat.ltb 4 (String.length path)) eqn:Hlen; simpl.
  2:{ intros [= <-]. split; [eauto|]. intros (stem & Hne & ->).
      apply Nat.ltb_ge in Hlen. rewrite length_append in Hlen.
      destruct stem; [done|]. simpl in Hlen. lia. }
  destruct (bool_decide _) eqn:Hext; simpl; [discriminate|].
  intros [= <-]. apply bool_decide_eq_false in Hext. split; [eauto|].
  intros (stem & Hne & ->). apply Hext.
  unfold rfind. rewrite rfind_from_suffix by done.
  f_equal. rewrite length_append. simpl. lia.
Qed.

Lemma substring_append (a b : string) :
  String.substring 0 (String.length a) (a +:+ b) = a.
Proof.
  induction a as [|c a IH]; simpl; [by destruct b|]. by rewrite IH.
Qed.

Lemma append_assoc (a b c : string) : (a +:+ b) +:+ c = a +:+ (b +:+ c).
Proof.
  induction a as [|x a IH]; [done|].
  change (String x (a +:+ b) +:+ c = String x (a +:+ (b +:+ c))).
  change (String x ((a +:+ b) +:+ c) = String x (a +:+ (b +:+ c))).
  by rewrite IH.
Qed.

(** X14: For an accepted XML path [stem.xml] the constructor keeps the XML
    path, takes the binary path as given when it is not empty and derives
    [stem.bin] otherwise; the derived binary path differs from the XML
    path. *)
Theorem Serialize_paths_outcome (xmlPath binPath accepted : string) :
  valid_xml_path xmlPath = Ok accepted →
  ∃ stem,
    xmlPath = stem +:+ ".xml"
    ∧ Serialize_paths xmlPath binPath
      = Ok (xmlPath, if decide (binPath = "") then stem +:+ ".bin" else binPath)
    ∧ provide_bin_path xmlPath "" ≠ xmlPath.
Proof.
  intros Hvalid.
  destruct (valid_xml_path_ok _ _ Hvalid) as (-> & stem & Hne & Hpath).
  subst xmlPath.
  exists stem. split; [done|].
  assert (Hxml : stem +:+ ".xml" = (stem +:+ ".") +:+ "xml")
    by (symmetry; apply append_assoc).
  assert (Hbin : provide_bin_path (stem +:+ ".xml") "" = stem +:+ ".bin").
  { unfold provide_bin_path. cbn [String.eqb negb].
    rewrite Hxml.
    replace (String.length ((stem +:+ ".") +:+ "xml") - String.length "bin")
      with (String.length (stem +:+ "."))
      by (rewrite (length_append (stem +:+ ".")); simpl; lia).
    rewrite substring_append. apply append_assoc. }
  split.
  - unfold Serialize_paths. rewrite Hvalid. simpl. f_equal. f_equal.
    destruct (decide (binPath = "")) as [->|Hb]; [done|].
    unfold provide_bin_path. destruct (String.eqb_spec binPath ""); done.
  - rewrite Hbin. intros Heq.
    apply (f_equal (λ s, String.substring (String.length stem) 4 s)) in Heq.
    revert Heq. clear. induction stem as [|c stem IH]; simpl; [discriminate|done].
Qed.

Lemma Serialize_paths_outcome_witness :
  ∃ stem,
    "out/model.xml" = stem +:+ ".xml"
    ∧ Serialize_paths "out/model.xml" ""
      = Ok ("out/model.xml", if decide ("" = "") then stem +:+ ".bin" else "")
    ∧ provide_bin_path "out/model.xml" "" ≠ "out/model.xml".
Proof.
  apply (Serialize_paths_outcome "out/model.xml" "" "out/model.xml").
  vm_compute. reflexivity.
Defined.

(** X15: The precision names identify the element types: two types with the
    same name are equal, except for [undefined] and [dynamic], which are
    both written as UNSPECIFIED. *)
Theorem get_precision_name_inj (a b : Type_t) :
  get_precision_name a = get_precision_name b →
  a = b ∨ (get_precision_name a = "UNSPECIFIED" ∧ get_precision_name b = "UNSPECIFIED").
Proof. destruct a, b; simpl; intros H; try discriminate H; auto. Qed.

Lemma get_precision_name_inj_witness :
  get_precision_name u8 = "U8"
  ∧ ∀ elem_type, get_precision_name elem_type = "U8" → elem_type = u8.
Proof.
  split; [reflexivity|]. intros elem_type Hname.
  destruct (get_precision_name_inj elem_type u8 Hname) as [->|[_ Hu8]];
    [done|discriminate Hu8].
Defined.

Lemma generate_unique_name_from_first (tries : nat) (unique_names : gset string)
    (base_name : string) (suffix : Z) :
  ∃ k : nat,
    (k ≤ tries)%nat
    ∧ generate_unique_name_from tries unique_names base_name suffix
      = base_name +:+ to_string (suffix + Z.of_nat k)
    ∧ ∀ j : nat, (j < k)%nat →
        base_name +:+ to_string (suffix + Z.of_nat j) ∈ unique_names.
Proof.
  revert suffix. induction tries as [|tries IH]; intros suffix; simpl.
  - exists 0%nat. rewrite Z.add_0_r. repeat split; [lia|]. intros j Hj. lia.
  - destruct (decide (base_name +:+ to_string suffix ∈ unique_names)) as [Hin|Hin].
    + rewrite bool_decide_eq_true_2 by done.
      destruct (IH (suffix + 1)%Z) as (k & Hk & Heq & Hused).
      exists (S k). split; [lia|]. split.
      * rewrite Heq. do 2 f_equal. lia.
      * intros [|j] Hj; [by rewrite Z.add_0_r|].
        replace (suffix + Z.of_nat (S j))%Z with (suffix + 1 + Z.of_nat j)%Z by lia.
        apply Hused. lia.
    + rewrite bool_decide_eq_false_2 by done.
      exists 0%nat. rewrite Z.add_0_r. repeat split; [lia|]. intros j Hj. lia.
Qed.

(** X17: [generate_unique_name] returns the base name followed by the first
    suffix, counting up from the given one, for which the name is not in
    use: the result is unused and every smaller suffix is taken. *)
Theorem generate_unique_name_first_unused (unique_names : gset string)
    (base_name : string) (suffix : Z) :
  ∃ k : nat,
    generate_unique_name unique_names base_name suffix
    = base_name +:+ to_string (suffix + Z.of_nat k)
    ∧ (base_name +:+ to_string (suffix + Z.of_nat k) ∉ unique_names)
    ∧ ∀ j : nat, (j < k)%nat →
        base_name +:+ to_string (suffix + Z.of_nat j) ∈ unique_names.
Proof.
  destruct (generate_unique_name_from_first (size unique_names) unique_names
              base_name suffix) as (k & _ & Heq & Hused).
  exists k. split; [done|]. split; [|done].
  fold (generate_unique_name unique_names base_name suffix) in Heq.
  rewrite <- Heq. apply generate_unique_name_fresh.
Qed.

Lemma layer_xml_name (layer_ids : gmap nat nat)
    (custom_opsets : list (string * OpSet)) (version : Z)
    (deterministic exec_graph : bool)
    (unique_names : gset string) (node : Node) (w w' : ConstantWriter)
    (layer : xml_node) (names' : gset string) :
  layer_xml layer_ids custom_opsets version deterministic exec_graph
    unique_names node w = (Ok (layer, names'), w') →
  match attribute "name" (xml_attributes layer) with
  | Some name => (name ∉ unique_names) ∧ names' = {[name]} ∪ unique_names
  | None => names' = unique_names ∧ deterministic = true
  end.
Proof.
  unfold layer_xml. intros H. inv_m.
  injection Hrest0 as -> ->. simpl.
  assert (Hexec : ∀ t, attribute "name"
            (vt_layer (if exec_graph
                       then visit_exec_graph_node (node_rt_info node) t else t))
            = attribute "name" (vt_layer t)).
  { intros t. destruct exec_graph; [|done].
    by apply visit_exec_graph_node_keeps_attribute. }
  rewrite Hexec. simpl.
  rewrite (visit_attributes_keeps_attribute "name" _ _ _ _ _ _
             ltac:(done) ltac:(done) Hstep3). simpl.
  pose proof (get_node_unique_name_fresh unique_names node) as [Hfresh Hset].
  destruct (negb deterministic || negb (is_name_auto_generated node)) eqn:Hnamed.
  - destruct exec_graph; simpl; by split.
  - apply orb_false_iff in Hnamed as [Hdet _]. apply negb_false_iff in Hdet.
    destruct exec_graph; simpl; by split.
Qed.

Lemma layers_loop_names (layer_ids : gmap nat nat)
    (custom_opsets : list (string * OpSet)) (version : Z)
    (deterministic exec_graph : bool) (nodes : list Node) :
  ∀ (unique_names : gset string) (w w' : ConstantWriter) (layers : list xml_node),
    layers_loop layer_ids custom_opsets version deterministic exec_graph
      unique_names nodes w = (Ok layers, w') →
    let names := omap (λ layer, attribute "name" (xml_attributes layer)) layers in
    NoDup names
    ∧ (∀ name, name ∈ names → name ∉ unique_names)
    ∧ (deterministic = false → length names = length layers).
Proof.
  induction nodes as [|n nodes IH]; intros names w w' layers H; simpl in H.
  - apply ret_ok in H as [-> _]. simpl. repeat split; [constructor|].
    intros name Hin. by apply elem_of_nil in Hin.
  - inv_m. subst layers. destruct a as [layer names']. simpl in *.
    pose proof (layer_xml_name _ _ _ _ _ _ _ _ _ _ _ Hstep) as Hname.
    destruct (IH _ _ _ _ Hstep0) as (Hnd & Hnew & Hall).
    destruct (attribute "name" (xml_attributes layer)) as [name|].
    + destruct Hname as [Hfresh ->]. repeat split.
      * constructor; [|done]. intros Hin. apply Hnew in Hin.
        apply Hin, elem_of_union_l. by apply elem_of_singleton.
      * intros x Hx. apply elem_of_cons in Hx as [->|Hx]; [done|].
        apply Hnew in Hx. intros HU. apply Hx. by apply elem_of_union_r.
      * intros Hdet. simpl. f_equal. by apply Hall.
    + destruct Hname as [-> Hdet]. repeat split; [done|done|].
      intros Hd. congruence.
Qed.

(** X18: The [name] attributes of the layers of a document are pairwise
    distinct, also when nodes share a friendly name; when determinism is
    not asked for, every layer has one. *)
Theorem layer_names_distinct (netXml : string) (f : Function)
    (custom_opsets : list (string * OpSet)) (version : Z) (deterministic : bool)
    (w w' : ConstantWriter) (net : xml_node) :
  ngfunction_2_ir netXml f custom_opsets version deterministic w = (Ok net, w') →
  let names :=
    omap (λ layer, attribute "name" (xml_attributes layer)) (document_layers net) in
  NoDup names
  ∧ (deterministic = false → length names = length (sorted_ops f version)).
Proof.
  unfold ngfunction_2_ir. intros H. inv_m. subst net.
  unfold document_layers, child. simpl.
  destruct (layers_loop_names _ _ _ _ _ _ _ _ _ _ Hstep) as (Hnd & _ & Hall).
  split; [done|]. intros Hdet. rewrite (Hall Hdet).
  symmetry. eapply Forall2_length, layers_loop_ok, Hstep.
Qed.

(** X19: [create_layer_ids] numbers the nodes by their position in
    [get_ordered_ops]: for pairwise distinct nodes, a node has the layer
    id [k] exactly when it is the [k]-th ordered operation. *)
Theorem create_layer_ids_positions (f : Function) (p k : nat) :
  NoDup (node_ptr <$> f_ordered_ops f) →
  create_layer_ids f !! p = Some k
  ↔ ∃ n, f_ordered_ops f !! k = Some n ∧ node_ptr n = p.
Proof.
  intros Hnd. unfold create_layer_ids. split.
  - intros Hid. apply create_layer_ids_from_inv in Hid as [Hid|(k' & n & Hk & Hp & ->)].
    + by rewrite lookup_empty in Hid.
    + by exists n.
  - intros (n & Hk & <-). by apply (create_layer_ids_from_lookup _ 0 k).
Qed.

Lemma node_edges_lookup (layer_ids : gmap nat nat) (ops : list Node) (current : Node)
    (inputs : list Input) :
  ∀ (index : nat) (edges : list Edge),
    node_edges layer_ids ops current index inputs = Ok edges →
    ∀ (j : nat) i, inputs !! j = Some i →
      ∃ e source,
        edges !! j = Some e ∧ to_port e = (index + j)%nat
        ∧ node_at (in_source_node i) ops = Some source
        ∧ layer_ids !! in_source_node i = Some (from_layer e)
        ∧ from_port e = (get_input_size source + in_source_index i)%nat
        ∧ layer_ids !! node_ptr current = Some (to_layer e).
Proof.
  induction inputs as [|i0 inputs IH]; intros index edges H j i Hj; [done|].
  simpl in H.
  destruct (layer_ids !! in_source_node i0) as [from|] eqn:Hfrom; [|done].
  destruct (node_at (in_source_node i0) ops) as [source|] eqn:Hsrc; [|done].
  destruct (layer_ids !! node_ptr current) as [to|] eqn:Hto; [|done].
  inv_m. simplify_eq. destruct j as [|j]; simpl in *.
  - simplify_eq. eexists _, source. split; [done|]. simpl.
    repeat split; try done; lia.
  - destruct (IH _ _ Hstep j i Hj) as (e & src & He & Hport & Hrest).
    exists e, src. split; [done|]. split; [lia|done].
Qed.

Lemma all_edges_complete (layer_ids : gmap nat nat) (ops nodes : list Node) :
  ∀ edges, all_edges layer_ids ops nodes = Ok edges →
    ∀ consumer (j : nat) i,
      consumer ∈ nodes → is_parameter consumer = false →
      node_inputs consumer !! j = Some i →
      ∃ e source,
        e ∈ edges ∧ to_port e = j
        ∧ node_at (in_source_node i) ops = Some source
        ∧ layer_ids !! in_source_node i = Some (from_layer e)
        ∧ from_port e = (get_input_size source + in_source_index i)%nat
        ∧ layer_ids !! node_ptr consumer = Some (to_layer e).
Proof.
  induction nodes as [|n nodes IH]; intros edges H consumer j i Hc Hp Hj.
  - by apply elem_of_nil in Hc.
  - simpl in H. apply elem_of_cons in Hc as [->|Hc].
    + rewrite Hp in H. inv_m. simplify_eq.
      destruct (node_edges_lookup _ _ _ _ _ _ Hstep j i Hj)
        as (e & src & He & Hport & Hrest).
      exists e, src. split; [|done].
      apply elem_of_app. left. by eapply list_elem_of_lookup_2.
    + destruct (is_parameter n).
      * by eapply IH.
      * inv_m. simplify_eq.
        destruct (IH _ Hstep0 consumer j i Hc Hp Hj) as (e & src & He & Hrest).
        exists e, src. split; [|done]. apply elem_of_app. by right.
Qed.

(** X21: Every input of every node that is not a parameter gets an edge in
    the document, the peephole input (index 6) of a version-0 LSTMCell
    excepted: the edge leads from the layer of the producer, at the port
    numbered after the producer's inputs, to the layer of the consumer at
    the port of the input's index. *)
Theorem every_input_has_an_edge (f : Function)
    (custom_opsets : list (string * OpSet)) (version : Z) (deterministic : bool)
    (w w' : ConstantWriter) (net : xml_node) (consumer : Node) (j : nat) (i : Input) :
  NoDup (node_ptr <$> f_ordered_ops f) →
  ngfunction_2_ir "net" f custom_opsets version deterministic w = (Ok net, w') →
  consumer ∈ f_ordered_ops f → is_parameter consumer = false →
  node_inputs consumer !! j = Some i →
  ¬ (j = 6%nat ∧ type_info_name consumer = "LSTMCell"
     ∧ type_info_version consumer = 0%Z) →
  ∃ e source,
    edge_node e ∈ document_edges net
    ∧ to_port e = j
    ∧ create_layer_ids f !! node_ptr consumer = Some (to_layer e)
    ∧ create_layer_ids f !! in_source_node i = Some (from_layer e)
    ∧ node_at (in_source_node i) (f_ordered_ops f) = Some source
    ∧ from_port e = (get_input_size source + in_source_index i)%nat.
Proof.
  intros Hnd Hrun Hc Hp Hj Hskip.
  destruct (ngfunction_2_ir_ok _ _ _ _ _ _ _ _ Hrun)
    as (attrs & layers & edge_mapping & -> & _ & Hedges).
  unfold create_edge_mapping in Hedges. inv_m. simplify_eq.
  destruct (all_edges_complete _ _ _ _ Hstep consumer j i Hc Hp Hj)
    as (e & src & He & Hport & Hsrc & Hfrom & Hfp & Hto).
  exists e, src. split; [|done].
  unfold document_edges, child. simpl.
  apply list_elem_of_fmap. exists e. split; [done|].
  unfold emitted_edges. apply list_elem_of_filter. split.
  - unfold edge_skipped. rewrite Hport.
    rewrite (create_layer_ids_position f consumer _ Hnd Hc Hto).
    destruct (Nat.eqb_spec j 6) as [->|]; [|done].
    destruct (String.eqb_spec (type_info_name consumer) "LSTMCell"); [|done].
    destruct (Z.eqb_spec (type_info_version consumer) 0); [|done].
    exfalso. by apply Hskip.
  - by rewrite merge_sort_Permutation.
Qed.

Lemma rt_on_adapter_key (name : string) (adapter : Adapter)
    (m_node m_node' : list (string * string)) :
  rt_on_adapter name adapter m_node = Ok m_node' →
  name ≠ "name" ∧ name ≠ "version" ∧ ∃ value, m_node' = m_node ++ [(name, value)].
Proof.
  unfold rt_on_adapter, check_attribute_name. intros H.
  destruct (String.eqb_spec name "name") as [->|Hn]; simpl in H; [done|].
  destruct (String.eqb_spec name "version") as [->|Hv]; simpl in H; [done|].
  split; [done|]. split; [done|].
  destruct adapter; simpl in H; try discriminate; injection H as <-; eauto.
Qed.

Lemma rt_visit_attributes_keys (adapters : list (string * Adapter)) :
  ∀ m_node m_node',
    rt_visit_attributes adapters m_node = Ok m_node' →
    ∃ rest, m_node' = m_node ++ rest ∧ rest.*1 = adapters.*1
            ∧ Forall (λ kv, kv.1 ≠ "name" ∧ kv.1 ≠ "version") rest.
Proof.
  induction adapters as [|[name adapter] adapters IH]; intros m_node m_node' H;
    simpl in H.
  - injection H as <-. exists []. by rewrite app_nil_r.
  - inv_m. apply rt_on_adapter_key in Hstep as (Hn & Hv & value & ->).
    destruct (IH _ _ Hrest) as (rest & -> & Hkeys & Hall).
    exists ((name, value) :: rest). rewrite <- app_assoc. simpl.
    split; [done|]. split; [by f_equal|]. by constructor.
Qed.

(** X22: The [attribute] elements under [rt_info] correspond, in order, to the
    runtime attributes whose [visit_attributes] succeeds; each starts with
    [name] and [version] of the attribute's type info, followed by one
    attribute per visited value, none of which is called [name] or
    [version]. *)
Theorem rt_info_attribute_keys (attributes : RTMap) (rt : list xml_node) :
  append_runtime_info attributes = Ok rt →
  ∃ nodes,
    rt = match nodes with [] => [] | _ => [Element "rt_info" [] nodes] end
    ∧ Forall2 (λ item node,
         ∃ rest,
           node = Element "attribute"
                    (("name", variant_type_name item)
                     :: ("version", variant_type_version item) :: rest) []
           ∧ rest.*1 = (variant_adapters item).*1
           ∧ Forall (λ kv, kv.1 ≠ "name" ∧ kv.1 ≠ "version") rest)
        (filter (λ item, variant_visitable item = true) attributes.*2) nodes.
Proof.
  unfold append_runtime_info. intros H. inv_m. exists a. split.
  { destruct a; by injection Hrest as <-. }
  clear Hrest rt. revert a Hstep.
  induction attributes as [|[key item] attributes IH]; intros nodes H; simpl in H.
  - injection H as <-. constructor.
  - inv_m. apply rt_visit_attributes_keys in Hstep as (rest & -> & Hkeys & Hall).
    specialize (IH _ Hstep0). simpl. rewrite filter_cons.
    destruct (variant_visitable item) eqn:Hvis; injection Hrest0 as <-.
    + rewrite decide_True by done. constructor; [|done]. by exists rest.
    + rewrite decide_False by done. done.
Qed.

Lemma create_layer_ids_from_present (ops : list Node) (i : nat) (m : gmap nat nat)
    (p : nat) :
  p ∈ node_ptr <$> ops → is_Some (create_layer_ids_from i ops m !! p).
Proof.
  revert i m. induction ops as [|n ops IH]; intros i m Hp; simpl in *.
  - by apply elem_of_nil in Hp.
  - destruct (decide (p ∈ node_ptr <$> ops)) as [Hin|Hnin]; [by apply IH|].
    apply elem_of_cons in Hp as [->|Hp]; [|done].
    rewrite create_layer_ids_from_absent by done.
    rewrite lookup_insert_eq. by eexists.
Qed.

Lemma node_at_present (ptr : nat) (ops : list Node) :
  ptr ∈ node_ptr <$> ops → is_Some (node_at ptr ops).
Proof.
  unfold node_at. induction ops as [|n ops IH]; simpl; intros Hp.
  - by apply elem_of_nil in Hp.
  - destruct (Nat.eqb_spec (node_ptr n) ptr) as [Heq|Hne]; [by eexists|].
    apply IH. apply elem_of_cons in Hp as [->|Hp]; done.
Qed.

Lemma node_edges_outcome (f : Function) (current : Node) (inputs : list Input) :
  current ∈ f_ordered_ops f →
  ∀ index : nat,
    match node_edges (create_layer_ids f) (f_ordered_ops f) current index inputs with
    | Ok edges =>
        Forall (λ i, in_source_node i ∈ node_ptr <$> f_ordered_ops f) inputs
        ∧ length edges = length inputs
    | Raise e =>
        e = CheckFailure "Internal error"
        ∧ ¬ Forall (λ i, in_source_node i ∈ node_ptr <$> f_ordered_ops f) inputs
    end.
Proof.
  intros Hcur. induction inputs as [|i inputs IH]; intros index; simpl; [done|].
  destruct (decide (in_source_node i ∈ node_ptr <$> f_ordered_ops f)) as [Hin|Hnin].
  - destruct (create_layer_ids_from_present (f_ordered_ops f) 0 ∅ _ Hin)
      as [from Hfrom].
    destruct (node_at_present _ _ Hin) as [source Hsrc].
    destruct (create_layer_ids_from_present (f_ordered_ops f) 0 ∅ (node_ptr current))
      as [to Hto].
    { apply list_elem_of_fmap. by exists current. }
    unfold create_layer_ids. rewrite Hfrom, Hsrc, Hto.
    specialize (IH (S index)). unfold create_layer_ids in IH.
    destruct (node_edges _ _ _ _ inputs) as [edges|e]; simpl.
    + destruct IH as [Hall Hlen]. split; [by constructor|]. by rewrite Hlen.
    + destruct IH as [-> Hall]. split; [done|]. intros Hc.
      apply Forall_cons in Hc as [_ Hc]. done.
  - unfold create_layer_ids.
    rewrite create_layer_ids_from_absent by done. rewrite lookup_empty.
    split; [done|]. intros Hc. apply Forall_cons in Hc as [Hc _]. done.
Qed.

(** X20: [create_edge_mapping] returns exactly when every input of every
    node that is not a parameter reads a node of [get_ordered_ops]; it
    then holds one edge per such input.  Otherwise it fails with the
    [CheckFailure] "Internal error". *)
Theorem create_edge_mapping_outcome (f : Function) :
  let closed :=
    Forall (λ n, is_parameter n = false →
                 Forall (λ i, in_source_node i ∈ node_ptr <$> f_ordered_ops f)
                   (node_inputs n)) (f_ordered_ops f) in
  match create_edge_mapping (create_layer_ids f) f with
  | Ok edges =>
      closed
      ∧ length edges
        = length (concat (node_inputs <$>
                   filter (λ n, is_parameter n = false) (f_ordered_ops f)))
  | Raise e => e = CheckFailure "Internal error" ∧ ¬ closed
  end.
Proof.
  simpl. unfold create_edge_mapping.
  assert (Hgen : ∀ nodes, nodes ⊆ f_ordered_ops f →
    match all_edges (create_layer_ids f) (f_ordered_ops f) nodes with
    | Ok edges =>
        Forall (λ n, is_parameter n = false →
                     Forall (λ i, in_source_node i ∈ node_ptr <$> f_ordered_ops f)
                       (node_inputs n)) nodes
        ∧ length edges
          = length (concat (node_inputs <$> filter (λ n, is_parameter n = false) nodes))
    | Raise e =>
        e = CheckFailure "Internal error"
        ∧ ¬ Forall (λ n, is_parameter n = false →
                     Forall (λ i, in_source_node i ∈ node_ptr <$> f_ordered_ops f)
                       (node_inputs n)) nodes
    end).
  { induction nodes as [|n nodes IH]; intros Hsub; simpl; [done|].
    assert (Hn : n ∈ f_ordered_ops f) by (apply Hsub; by left).
    assert (Hsub' : nodes ⊆ f_ordered_ops f).
    { intros x Hx. apply Hsub. by right. }
    specialize (IH Hsub'). rewrite filter_cons.
    destruct (is_parameter n) eqn:Hp.
    - rewrite decide_False by done.
      destruct (all_edges _ _ nodes) as [edges|e].
      + destruct IH as [Hall Hlen]. split; [|done]. constructor; [|done].
        intros Hc. congruence.
      + destruct IH as [-> Hall]. split; [done|]. intros Hc.
        apply Forall_cons in Hc as [_ Hc]. done.
    - rewrite decide_True by done.
      pose proof (node_edges_outcome f n (node_inputs n) Hn 0) as Hne.
      destruct (node_edges _ _ n 0 _) as [edges|e]; simpl.
      + destruct Hne as [Hins Hlen1].
        destruct (all_edges _ _ nodes) as [rest|e]; simpl.
        * destruct IH as [Hall Hlen]. split; [by constructor|].
          rewrite !length_app. by rewrite Hlen1, Hlen.
        * destruct IH as [-> Hall]. split; [done|]. intros Hc.
          apply Forall_cons in Hc as [_ Hc]. done.
      + destruct Hne as [-> Hins]. split; [done|]. intros Hc.
        apply Forall_cons in Hc as [Hc _]. by apply Hins, Hc. }
  specialize (Hgen (f_ordered_ops f) ltac:(done)).
  destruct (all_edges _ _ _) as [edges|e]; simpl; [|done].
  destruct Hgen as [Hall Hlen]. split; [done|].
  by rewrite merge_sort_Permutation.
Qed.


(** X12: When [serializeFunc] succeeds, the version hint of the graph agrees
    with the explicit request unless the request is UNSPECIFIED, the
    version in effect (the hint, else the request, UNSPECIFIED standing
    for 11) is 10 or 11, and the root element [net] carries it as its
    [version] attribute. *)
Theorem serializeFunc_version (bin_file : list byte) (f : Function) (ver : Z)
    (custom_opsets : list (string * OpSet)) (deterministic : bool)
    (net : xml_node) (bytes : list byte) :
  serializeFunc bin_file f ver custom_opsets deterministic = (Ok net, bytes) →
  let requested := default ver (f_rt_version f) in
  let version := if (requested =? UNSPECIFIED)%Z then IR_V11 else requested in
  (ver = UNSPECIFIED ∨ requested = ver)
  ∧ (version = IR_V10 ∨ version = IR_V11)
  ∧ xml_name net = "net"
  ∧ attribute "version" (xml_attributes net) = Some (to_string version).
Proof.
  intros H requested version. unfold serializeFunc in H. cbv zeta in H.
  replace (match f_rt_version f with Some v => v | None => ver end) with requested
    in H by (unfold requested; by destruct (f_rt_version f)).
  change (if (requested =? UNSPECIFIED)%Z then IR_V11 else requested)
    with version in H.
  destruct (negb (requested =? ver)%Z && negb (ver =? UNSPECIFIED)%Z) eqn:Hm;
    [discriminate|].
  destruct (negb (version =? IR_V10)%Z && negb (version =? IR_V11)%Z) eqn:Hs;
    [discriminate|].
  split.
  { apply andb_false_iff in Hm as [Hm|Hm]; apply negb_false_iff in Hm.
    - right. by apply Z.eqb_eq.
    - left. by apply Z.eqb_eq. }
  split.
  { apply andb_false_iff in Hs as [Hs|Hs]; apply negb_false_iff in Hs.
    - left. by apply Z.eqb_eq.
    - right. by apply Z.eqb_eq. }
  destruct (ngfunction_2_ir "net" f custom_opsets version deterministic
              (new bin_file true)) as [[doc|e] w'] eqn:Hrun; simpl in H;
    [|discriminate].
  injection H as <- <-.
  unfold ngfunction_2_ir in Hrun. inv_m. subst doc. simpl. split; [done|].
  by destruct (negb deterministic || negb (f_is_name_auto_generated f)).
Qed.

Lemma append_nil_r (a : string) : a +:+ "" = a.
Proof.
  induction a as [|x a IH]; [done|].
  change (String x (a +:+ "") = String x a). by rewrite IH.
Qed.

Lemma split_names_from_escaped (name rest current : string) :
  backslash ∉ String.list_ascii_of_string name →
  split_names_from (escape_delim name +:+ rest) current
  = split_names_from rest (current +:+ name).
Proof.
  revert current. induction name as [|c name IH]; intros current Hno.
  - by rewrite append_nil_r.
  - change (String.list_ascii_of_string (String c name))
      with (c :: String.list_ascii_of_string name) in Hno.
    apply not_elem_of_cons in Hno as [Hc Hno].
    assert (Hnext : current +:+ String c name
                    = (current +:+ String c EmptyString) +:+ name)
      by by rewrite append_assoc.
    cbn [escape_delim].
    destruct (Ascii.eqb_spec c comma) as [->|Hcomma].
    + change (split_names_from
                (String backslash (String comma (escape_delim name +:+ rest)))
                current
              = split_names_from rest (current +:+ String comma name)).
      cbn [split_names_from].
      rewrite Ascii.eqb_refl. rewrite Ascii.eqb_refl.
      rewrite IH by done. by rewrite Hnext.
    + change (split_names_from (String c (escape_delim name +:+ rest)) current
              = split_names_from rest (current +:+ String c name)).
      cbn [split_names_from].
      destruct (Ascii.eqb_spec c backslash) as [->|_]; [done|].
      destruct (Ascii.eqb_spec c comma) as [->|_]; [done|].
      rewrite IH by done. by rewrite Hnext.
Qed.

Lemma split_names_from_rest (names : list string) (current : string) :
  Forall (λ name, backslash ∉ String.list_ascii_of_string name) names →
  split_names_from
    (foldr (λ name rest, String comma (escape_delim name +:+ rest)) "" names)
    current
  = current :: names.
Proof.
  intros Hall. revert current.
  induction Hall as [|name names Hname _ IH]; intros current.
  - done.
  - cbn [foldr split_names_from].
    change (Ascii.eqb comma backslash) with false.
    change (Ascii.eqb comma comma) with true. cbn iota.
    rewrite split_names_from_escaped by done. by rewrite IH.
Qed.

Lemma concat_names_rest (names : list string) (acc : string) :
  acc ≠ "" →
  concat_names names acc
  = acc +:+ foldr (λ name rest, String comma (escape_delim name +:+ rest)) "" names.
Proof.
  revert acc. induction names as [|name names IH]; intros acc Hacc.
  - cbn [concat_names foldr]. by rewrite append_nil_r.
  - cbn [concat_names foldr].
    destruct (String.eqb_spec acc "") as [->|_]; [done|].
    rewrite IH.
    + rewrite !append_assoc. done.
    + destruct acc; done.
Qed.

Lemma escape_delim_nonempty (name : string) : name ≠ "" → escape_delim name ≠ "".
Proof. destruct name as [|c name]; [done|]. simpl. by destruct (Ascii.eqb c comma). Qed.

Lemma split_names_concat_names (names : list string) :
  Forall (λ name, name ≠ "" ∧ backslash ∉ String.list_ascii_of_string name) names →
  split_names (concat_names names "") = names.
Proof.
  intros Hall. destruct names as [|name names]; [done|].
  apply Forall_cons in Hall as [[Hne Hno] Hall].
  cbn [concat_names]. change (String.eqb "" "") with true. cbn iota.
  change ("" +:+ escape_delim name) with (escape_delim name).
  rewrite concat_names_rest by by apply escape_delim_nonempty.
  unfold split_names.
  match goal with |- context [escape_delim name +:+ ?r] => set (rest := r) end.
  destruct (String.eqb_spec (escape_delim name +:+ rest) "") as [E|_].
  { exfalso. apply (escape_delim_nonempty name Hne).
    by destruct (escape_delim name). }
  rewrite split_names_from_escaped by done.
  change ("" +:+ name) with name.
  apply split_names_from_rest.
  eapply Forall_impl; [exact Hall|]. by intros n [_ ?].
Qed.

(** X16: Tensor names are joined with escaped delimiters: two lists of
    non-empty names without backslash that give the same [names]
    attribute are equal. *)
Theorem concat_names_inj (names1 names2 : list string) :
  Forall (λ name, name ≠ "" ∧ backslash ∉ String.list_ascii_of_string name) names1 →
  Forall (λ name, name ≠ "" ∧ backslash ∉ String.list_ascii_of_string name) names2 →
  concat_names names1 "" = concat_names names2 "" →
  names1 = names2.
Proof.
  intros H1 H2 Heq.
  rewrite <- (split_names_concat_names names1 H1).
  rewrite <- (split_names_concat_names names2 H2).
  by rewrite Heq.
Qed.

Lemma concat_names_inj_witness :
  concat_names ["a,b"; "c"] "" = "a\,b,c"
  ∧ ∀ names,
      Forall (λ name, name ≠ "" ∧ backslash ∉ String.list_ascii_of_string name)
        names →
      concat_names names "" = "a\,b,c" → names = ["a,b"; "c"].
Proof.
  split; [reflexivity|]. intros names Hnames Heq.
  apply (concat_names_inj names ["a,b"; "c"]); [done| |done].
  repeat constructor; try done; vm_compute; intros H;
    repeat (apply elem_of_cons in H as [H|H]; [discriminate H|]);
    by apply elem_of_nil in H.
Defined.

Lemma write_all_app (ps qs : list (list byte)) (w : ConstantWriter) :
  (write_all w (ps ++ qs)).2 = (write_all (write_all w ps).2 qs).2.
Proof.
  revert w. induction ps as [|p ps IH]; intros w; [done|].
  rewrite <- app_comm_cons.
  destruct (write_all_cons w p (ps ++ qs)) as [_ ->].
  destruct (write_all_cons w p ps) as [_ ->]. apply IH.
Qed.

Lemma only_writes_ret {A} (a : A) : only_writes (ret a).
Proof. intros w r w' [= <- <-]. by exists []. Qed.

Lemma only_writes_throw {A} (e : exception) : only_writes (throw (A:=A) e).
Proof. intros w r w' [= <- <-]. by exists []. Qed.

Lemma only_writes_lift {A} (r : result A) : only_writes (lift r).
Proof. intros w r' w' [= <- <-]. by exists []. Qed.

Lemma only_writes_bind {A B} (m : M A) (k : A → M B) :
  only_writes m → (∀ a, only_writes (k a)) → only_writes (bind m k).
Proof.
  intros Hm Hk w r w'. unfold bind.
  destruct (m w) as [[a|e] w1] eqn:Hmw.
  - intros Hka. destruct (Hm _ _ _ Hmw) as [ps ->].
    destruct (Hk a _ _ _ Hka) as [qs ->].
    exists (ps ++ qs). by rewrite write_all_app.
  - intros [= <- <-]. by eapply Hm.
Qed.

Lemma only_writes_on_adapter (type_name name : string) (adapter : Adapter)
    (t : VisitorTarget) :
  only_writes (on_adapter type_name name adapter t).
Proof.
  destruct adapter; simpl;
    try apply only_writes_ret; try apply only_writes_throw.
  destruct (_ && _); [|apply only_writes_ret].
  intros w r w'. destruct (write w bytes) as [o w1] eqn:Hw. intros [= <- <-].
  exists [bytes]. simpl. by rewrite Hw.
Qed.

Lemma only_writes_visit_attributes (type_name : string)
    (adapters : list (string * Adapter)) :
  ∀ t, only_writes (visit_attributes type_name adapters t).
Proof.
  induction adapters as [|[name adapter] adapters IH]; intros t; simpl.
  - apply only_writes_ret.
  - apply only_writes_bind; [apply only_writes_on_adapter|done].
Qed.

Lemma only_writes_layer_xml layer_ids custom_opsets version deterministic
    exec_graph unique_names node :
  only_writes (layer_xml layer_ids custom_opsets version deterministic
                 exec_graph unique_names node).
Proof.
  unfold layer_xml.
  repeat first
    [ apply only_writes_bind; [|intros ?]
    | apply only_writes_lift
    | apply only_writes_visit_attributes
    | apply only_writes_ret ].
Qed.

Lemma only_writes_layers_loop layer_ids custom_opsets version deterministic
    exec_graph (nodes : list Node) :
  ∀ unique_names,
    only_writes (layers_loop layer_ids custom_opsets version deterministic
                   exec_graph unique_names nodes).
Proof.
  induction nodes as [|n nodes IH]; intros unique_names; simpl.
  - apply only_writes_ret.
  - apply only_writes_bind; [apply only_writes_layer_xml|]. intros layer.
    apply only_writes_bind; [apply IH|]. intros rest. apply only_writes_ret.
Qed.

Lemma attribute_app_Some (name : string) (attrs extra : list (string * string)) x :
  attribute name attrs = Some x → attribute name (attrs ++ extra) = Some x.
Proof.
  induction attrs as [|[k v] attrs IH]; simpl; [done|].
  destruct (String.eqb k name); [done|apply IH].
Qed.

Lemma attribute_app_None (name : string) (attrs extra : list (string * string)) :
  attribute name attrs = None →
  attribute name (attrs ++ extra) = attribute name extra.
Proof.
  induction attrs as [|[k v] attrs IH]; simpl; [done|].
  destruct (String.eqb k name); [done|apply IH].
Qed.

Lemma on_adapter_plain (key type_name name : string) (adapter : Adapter)
    (t t' : VisitorTarget) (w w' : ConstantWriter) :
  name ≠ key → name ≠ "value" →
  (∀ tn on attrs, adapter ≠ AdFrameworkNodeAttrs tn on attrs) →
  on_adapter type_name name adapter t w = (Ok t', w') →
  attribute key (vt_data t') = attribute key (vt_data t).
Proof.
  intros Hk Hv Hfw.
  assert (Happ : ∀ v, attribute key (vt_data (data_append name v t))
                      = attribute key (vt_data t)).
  { intros v. unfold data_append, append_attribute. simpl.
    destruct (attribute key (vt_data t)) as [x|] eqn:Hx.
    - by apply attribute_app_Some.
    - rewrite attribute_app_None by done. simpl.
      by destruct (String.eqb_spec name key). }
  destruct adapter; simpl; try (by intros [= <- <-]); try discriminate.
  - destruct (String.eqb_spec name "value"); [done|]. simpl. by intros [= <- <-].
  - by destruct (Hfw type_name0 opset_name attrs).
Qed.

Lemma visit_attributes_plain (key type_name : string)
    (adapters : list (string * Adapter)) :
  Forall (λ na, na.1 ≠ key ∧ na.1 ≠ "value"
                ∧ ∀ tn on attrs, na.2 ≠ AdFrameworkNodeAttrs tn on attrs) adapters →
  ∀ t t' w w',
    visit_attributes type_name adapters t w = (Ok t', w') →
    attribute key (vt_data t') = attribute key (vt_data t).
Proof.
  induction 1 as [|[name adapter] adapters (Hk & Hv & Hfw) _ IH];
    intros t t' w w' H; simpl in H.
  - by apply ret_ok in H as [-> _].
  - inv_m. rewrite (IH _ _ _ _ Hrest). by eapply on_adapter_plain.
Qed.

Lemma on_adapter_data_grows (type_name name : string) (adapter : Adapter)
    (t t' : VisitorTarget) (w w' : ConstantWriter) :
  on_adapter type_name name adapter t w = (Ok t', w') →
  ∃ extra, vt_data t' = vt_data t ++ extra.
Proof.
  destruct adapter; simpl;
    try (intros [= <- <-]; simpl; unfold append_attribute; by eauto);
    try discriminate.
  destruct (_ && _).
  - destruct (write w bytes) as [o w1]. intros [= <- <-]. simpl.
    unfold append_attribute. rewrite <- app_assoc. by eauto.
  - intros [= <- <-]. exists []. by rewrite app_nil_r.
Qed.

Lemma visit_attributes_data_grows (type_name : string)
    (adapters : list (string * Adapter)) :
  ∀ t t' w w',
    visit_attributes type_name adapters t w = (Ok t', w') →
    ∃ extra, vt_data t' = vt_data t ++ extra.
Proof.
  induction adapters as [|[name adapter] adapters IH]; intros t t' w w' H;
    simpl in H.
  - apply ret_ok in H as [-> _]. exists []. by rewrite app_nil_r.
  - inv_m. destruct (on_adapter_data_grows _ _ _ _ _ _ _ Hstep) as [e1 He1].
    destruct (IH _ _ _ _ Hrest) as [e2 ->]. rewrite He1.
    exists (e1 ++ e2). by rewrite app_assoc.
Qed.

Lemma rt_xml_serialize_grows (names : list string) (rt_info : RTMap) :
  ∀ data, ∃ extra, rt_xml_serialize names rt_info data = data ++ extra.
Proof.
  induction names as [|n names IH]; intros data; simpl.
  - exists []. by rewrite app_nil_r.
  - destruct (rt_find n rt_info) as [v|]; [|apply IH].
    destruct (variant_string v) as [s|]; [|apply IH].
    destruct (IH (append_attribute n s data)) as [e ->].
    unfold append_attribute. rewrite <- app_assoc. by eauto.
Qed.

Lemma visit_exec_graph_node_grows (rt_info : RTMap) :
  ∀ t, ∃ extra, vt_data (visit_exec_graph_node rt_info t) = vt_data t ++ extra.
Proof.
  induction rt_info as [|[name param] rt_info IH]; intros t; simpl.
  - exists []. by rewrite app_nil_r.
  - destruct (variant_string param) as [value|]; [|apply IH].
    destruct (String.eqb name "layerType").
    + destruct (IH (mkVisitorTarget (set_attribute "type" value (vt_layer t))
                      (vt_data t))) as [e ->]. by eauto.
    + destruct (IH (data_append name value t)) as [e ->]. simpl.
      unfold append_attribute. rewrite <- app_assoc. by eauto.
Qed.

Lemma final_data_grows (exec_graph : bool) (rt_info : RTMap)
    (layer data : list (string * string)) :
  ∃ extra,
    vt_data (if exec_graph
             then visit_exec_graph_node rt_info (mkVisitorTarget layer data)
             else mkVisitorTarget layer data) = data ++ extra.
Proof.
  destruct exec_graph.
  - apply visit_exec_graph_node_grows.
  - exists []. by rewrite app_nil_r.
Qed.

Lemma visit_attributes_app (type_name : string)
    (l1 l2 : list (string * Adapter)) :
  ∀ t t' w w',
    visit_attributes type_name (l1 ++ l2) t w = (Ok t', w') →
    ∃ t1 w1, visit_attributes type_name l1 t w = (Ok t1, w1)
             ∧ visit_attributes type_name l2 t1 w1 = (Ok t', w').
Proof.
  induction l1 as [|[name adapter] l1 IH]; intros t t' w w' H; simpl in H.
  - by exists t, w.
  - inv_m. destruct (IH _ _ _ _ Hrest) as (t1 & w1 & H1 & H2).
    exists t1, w1. split; [|done]. simpl. unfold bind. by rewrite Hstep.
Qed.

Local Open Scope Z_scope.
Lemma write_all_end_mono (ps : list (list byte)) (w : ConstantWriter) :
  end_offset w ≤ end_offset (write_all w ps).2.
Proof.
  revert w. induction ps as [|p ps IH]; intros w; [done|].
  destruct (write_all_cons w p ps) as [_ ->].
  pose proof (write_end_mono w p). pose proof (IH (write w p).2). lia.
Qed.

Lemma constant_at_stable (w : ConstantWriter) (ps : list (list byte))
    (payload : list byte) (layer : xml_node) :
  retained_ok w → constant_at w payload layer →
  constant_at (write_all w ps).2 payload layer.
Proof.
  intros [[Hb _] _] (data & o & Hc & Ho & Hs & H0 & Hend & Hat).
  exists data, o. repeat split; try done.
  - pose proof (write_all_end_mono ps w). lia.
  - by rewrite write_all_payload_stable.
Qed.

Lemma constant_at_layer (w : ConstantWriter) (payload : list byte)
    (type_name : string) (attrs data : list (string * string))
    (rt : list xml_node) (inputs output : option xml_node) (o : Z) :
  is_body_op type_name = false →
  attribute "offset" data = Some (to_string o) →
  attribute "size" data = Some (to_string (Z.of_nat (length payload))) →
  0 ≤ o → o + Z.of_nat (length payload) ≤ end_offset w →
  payload_at w o (length payload) = payload →
  constant_at w payload
    (Element "layer" attrs (layer_children type_name data rt inputs output)).
Proof.
  intros Hbody Ho Hs H0 Hend Hat. exists data, o. repeat split; try done.
  unfold layer_children. rewrite Hbody. by destruct data.
Qed.

Lemma layer_xml_constant (layer_ids : gmap nat nat)
    (custom_opsets : list (string * OpSet)) (version : Z)
    (deterministic exec_graph : bool) (unique_names : gset string) (node : Node)
    (w w' : ConstantWriter) (layer : xml_node) (names' : gset string)
    (pre post : list (string * Adapter)) (payload : list byte) :
  layer_xml layer_ids custom_opsets version deterministic exec_graph
    unique_names node w = (Ok (layer, names'), w') →
  retained_ok w →
  translate_type_name (get_type_name node) = "Const" →
  node_adapters node = pre ++ ("value", AdAlignedBuffer payload) :: post →
  Forall plain_adapter pre →
  constant_at w' payload layer.
Proof.
  unfold layer_xml. intros H Hok Htrans Hadapters Hplain. inv_m.
  apply (f_equal fst) in Hrest0. cbn [fst] in Hrest0. subst layer.
  rewrite Hadapters in Hstep3.
  apply visit_attributes_app in Hstep3 as (t1 & w1 & Hpre & Hvalue).
  simpl in Hvalue. inv_m. rewrite Htrans in Hstep. simpl in Hstep.
  destruct (write w1 payload) as [o w2] eqn:Hw. injection Hstep as <- <-.
  assert (Hnone : ∀ key, key = "offset" ∨ key = "size" →
                         attribute key (vt_data t1) = None).
  { intros key Hkey.
    assert (Hf : Forall (λ na : string * Adapter,
                   na.1 ≠ key ∧ na.1 ≠ "value"
                   ∧ ∀ tn on attrs, na.2 ≠ AdFrameworkNodeAttrs tn on attrs) pre).
    { eapply Forall_impl; [exact Hplain|]. intros [n ad] (H1 & H2 & H3 & H4).
      simpl in *. destruct Hkey as [-> | ->]; done. }
    exact (visit_attributes_plain key _ pre Hf _ _ _ _ Hpre). }
  destruct (visit_attributes_data_grows _ _ _ _ _ _ Hrest) as [e1 He1].
  simpl in He1. unfold append_attribute in He1.
  destruct (rt_xml_serialize_grows list_of_names (node_rt_info node) (vt_data a3))
    as [e2 He2].
  destruct (final_data_grows exec_graph (node_rt_info node) (vt_layer a3)
              (rt_xml_serialize list_of_names (node_rt_info node) (vt_data a3)))
    as [e3 He3].
  assert (Hdata : vt_data
            (if exec_graph
             then visit_exec_graph_node (node_rt_info node)
                    (mkVisitorTarget (vt_layer a3)
                       (rt_xml_serialize list_of_names (node_rt_info node)
                          (vt_data a3)))
             else mkVisitorTarget (vt_layer a3)
                    (rt_xml_serialize list_of_names (node_rt_info node)
                       (vt_data a3)))
          = vt_data t1 ++ [("offset", to_string o);
                           ("size", to_string (Z.of_nat (length payload)))]
            ++ e1 ++ e2 ++ e3).
  { rewrite He3, He2, He1. by rewrite <- !app_assoc. }
  destruct (only_writes_visit_attributes _ _ _ _ _ _ Hpre) as [ps ->].
  pose proof (write_all_retained_ok ps w Hok) as Hok1.
  destruct (write_sound _ payload Hok1) as (H0 & Hend & Hat).
  rewrite Hw in H0, Hend, Hat. simpl in H0, Hend, Hat.
  assert (Hok2 : retained_ok w2).
  { pose proof (write_retained_ok _ payload Hok1) as H2. by rewrite Hw in H2. }
  destruct (only_writes_visit_attributes _ _ _ _ _ _ Hrest) as [qs ->].
  apply constant_at_stable; [done|].
  apply (constant_at_layer _ _ _ _ _ _ _ _ o); try done.
  - unfold is_body_op.
    destruct (String.eqb_spec (get_type_name node) "TensorIterator") as [E|_];
      [by rewrite E in Htrans|].
    destruct (String.eqb_spec (get_type_name node) "Loop") as [E|_];
      [by rewrite E in Htrans|]. done.
  - rewrite Hdata, attribute_app_None by (apply Hnone; by left). done.
  - rewrite Hdata, attribute_app_None by (apply Hnone; by right). done.
Qed.

Lemma layers_loop_constant (layer_ids : gmap nat nat)
    (custom_opsets : list (string * OpSet)) (version : Z)
    (deterministic exec_graph : bool) (nodes : list Node) :
  ∀ (unique_names : gset string) (w w' : ConstantWriter) (layers : list xml_node)
    (k : nat) (node : Node) pre post payload,
    layers_loop layer_ids custom_opsets version deterministic exec_graph
      unique_names nodes w = (Ok layers, w') →
    retained_ok w →
    nodes !! k = Some node →
    translate_type_name (get_type_name node) = "Const" →
    node_adapters node = pre ++ ("value", AdAlignedBuffer payload) :: post →
    Forall plain_adapter pre →
    ∃ layer, layers !! k = Some layer ∧ constant_at w' payload layer.
Proof.
  induction nodes as [|n nodes IH];
    intros names w w' layers k node pre post payload H Hok Hk Ht Ha Hp; [done|].
  simpl in H. inv_m. subst layers. destruct a as [layer names'].
  destruct (only_writes_layer_xml _ _ _ _ _ _ _ _ _ _ Hstep) as [ps Hps].
  destruct (only_writes_layers_loop _ _ _ _ _ _ _ _ _ _ Hstep0) as [qs Hqs].
  destruct k as [|k]; simpl in *.
  - simplify_eq. exists layer. split; [done|].
    apply constant_at_stable; [by apply write_all_retained_ok|].
    by eapply layer_xml_constant.
  - eapply IH; eauto. subst. by apply write_all_retained_ok.
Qed.

Lemma ngfunction_2_ir_layers (netXml : string) (f : Function)
    (custom_opsets : list (string * OpSet)) (version : Z) (deterministic : bool)
    (w w' : ConstantWriter) (net : xml_node) :
  ngfunction_2_ir netXml f custom_opsets version deterministic w = (Ok net, w') →
  layers_loop (create_layer_ids f) custom_opsets version deterministic
    (is_exec_graph f) ∅ (sorted_ops f version) w
  = (Ok (document_layers net), w').
Proof.
  unfold ngfunction_2_ir. intros H.
  apply bind_ok in H as (layers & w1 & Hloop & H).
  apply bind_ok in H as (edges & w2 & Hedges & H).
  apply lift_ok in Hedges as [_ ->]. apply ret_ok in H as [-> ->].
  by rewrite Hloop.
Qed.


Lemma write_shifted (pre p : list byte) (w1 w2 : ConstantWriter) :
  shifted pre w1 w2 →
  (write w1 p).1 = (write w2 p).1 ∧ shifted pre (write w1 p).2 (write w2 p).2.
Proof.
  intros Hs. pose proof Hs as (Hmap & Hc & Hout & Hblob).
  assert (Hoff : tellp w1 - m_blob_offset w1 = tellp w2 - m_blob_offset w2).
  { unfold tellp. rewrite Hout, Hblob, length_app. lia. }
  assert (Hsw : shifted pre (stream_write w1 p) (stream_write w2 p)).
  { repeat split; simpl; try done. by rewrite Hout, app_assoc. }
  unfold write. rewrite Hc, Hmap, Hoff.
  destruct (m_enable_compression w2) eqn:Hc2; simpl; [|done].
  destruct (m_hash_to_file_positions w2 !! hash_combine p) as [[pos buf]|];
    [destruct (memcmp_equal p buf)|]; simpl.
  - done.
  - split; [done|]. repeat split; simpl;
      [by rewrite Hmap|congruence|by rewrite Hout, app_assoc|done].
  - split; [done|]. repeat split; simpl;
      [by rewrite Hmap|congruence|by rewrite Hout, app_assoc|done].
Qed.

Lemma shift_invariant_ret {A} (a : A) : shift_invariant (ret a).
Proof. by intros pre w1 w2 H. Qed.

Lemma shift_invariant_throw {A} (e : exception) : shift_invariant (throw (A:=A) e).
Proof. by intros pre w1 w2 H. Qed.

Lemma shift_invariant_lift {A} (r : result A) : shift_invariant (lift r).
Proof. by intros pre w1 w2 H. Qed.

Lemma shift_invariant_bind {A B} (m : M A) (k : A → M B) :
  shift_invariant m → (∀ a, shift_invariant (k a)) → shift_invariant (bind m k).
Proof.
  intros Hm Hk pre w1 w2 Hs. unfold bind.
  destruct (Hm pre w1 w2 Hs) as [Hr Hw].
  destruct (m w1) as [[a1|e1] w1'], (m w2) as [[a2|e2] w2']; simpl in *;
    try discriminate.
  - injection Hr as ->. by apply Hk.
  - by injection Hr as ->.
Qed.

Lemma shift_invariant_on_adapter (type_name name : string) (adapter : Adapter)
    (t : VisitorTarget) :
  shift_invariant (on_adapter type_name name adapter t).
Proof.
  destruct adapter; simpl;
    try apply shift_invariant_ret; try apply shift_invariant_throw.
  destruct (_ && _); [|apply shift_invariant_ret].
  intros pre w1 w2 Hs. destruct (write_shifted pre bytes w1 w2 Hs) as [Ho Hw].
  destruct (write w1 bytes) as [o1 w1'], (write w2 bytes) as [o2 w2'].
  simpl in *. by subst.
Qed.

Lemma shift_invariant_visit_attributes (type_name : string)
    (adapters : list (string * Adapter)) :
  ∀ t, shift_invariant (visit_attributes type_name adapters t).
Proof.
  induction adapters as [|[name adapter] adapters IH]; intros t; simpl.
  - apply shift_invariant_ret.
  - apply shift_invariant_bind; [apply shift_invariant_on_adapter|done].
Qed.

Lemma shift_invariant_layer_xml layer_ids custom_opsets version deterministic
    exec_graph unique_names node :
  shift_invariant (layer_xml layer_ids custom_opsets version deterministic
                     exec_graph unique_names node).
Proof.
  unfold layer_xml.
  repeat first
    [ apply shift_invariant_bind; [|intros ?]
    | apply shift_invariant_lift
    | apply shift_invariant_visit_attributes
    | apply shift_invariant_ret ].
Qed.

Lemma shift_invariant_layers_loop layer_ids custom_opsets version deterministic
    exec_graph (nodes : list Node) :
  ∀ unique_names,
    shift_invariant (layers_loop layer_ids custom_opsets version deterministic
                       exec_graph unique_names nodes).
Proof.
  induction nodes as [|n nodes IH]; intros unique_names; simpl.
  - apply shift_invariant_ret.
  - apply shift_invariant_bind; [apply shift_invariant_layer_xml|]. intros layer.
    apply shift_invariant_bind; [apply IH|]. intros rest. apply shift_invariant_ret.
Qed.

Lemma shift_invariant_ngfunction_2_ir netXml f custom_opsets version deterministic :
  shift_invariant (ngfunction_2_ir netXml f custom_opsets version deterministic).
Proof.
  unfold ngfunction_2_ir.
  apply shift_invariant_bind; [apply shift_invariant_layers_loop|]. intros layers.
  apply shift_invariant_bind; [apply shift_invariant_lift|]. intros edges.
  apply shift_invariant_ret.
Qed.

Lemma length_store_bytes (n : nat) (z : Z) : length (store_bytes n z) = n.
Proof. revert z. induction n as [|n IH]; intros z; simpl; [done|]. by rewrite IH. Qed.

Lemma length_header_bytes (hdr : DataHeader) : length (header_bytes hdr) = sizeof_hdr.
Proof.
  unfold header_bytes, store_size_t. rewrite !length_app, !length_store_bytes.
  reflexivity.
Qed.

Lemma writeHeader_at_end (hdr : DataHeader) (m_stream : list byte) :
  writeHeader hdr (length m_stream) m_stream = m_stream ++ header_bytes hdr.
Proof.
  unfold writeHeader. rewrite firstn_all, drop_ge by lia. by rewrite app_nil_r.
Qed.

Lemma writeHeader_in_place (hdr hdr0 : DataHeader) (m_stream rest : list byte) :
  writeHeader hdr (length m_stream) (m_stream ++ header_bytes hdr0 ++ rest)
  = m_stream ++ header_bytes hdr ++ rest.
Proof.
  unfold writeHeader. rewrite take_app_length. f_equal. f_equal.
  rewrite drop_app_ge by lia.
  replace (length m_stream + sizeof_hdr - length m_stream)%nat with sizeof_hdr by lia.
  rewrite <- (length_header_bytes hdr0). apply drop_app_length.
Qed.

Section stream_container.
Variable save : xml_node → list byte.

(** X24: [StreamSerialize] writes into one stream what [Serialize] writes
    into two: after the bytes already in the stream come the header, the
    custom data, the constants and the saved document, the same constants
    and the same document as [serializeFunc] produces; the header holds
    the offsets and sizes of the three sections, which follow one another
    without gap. *)
Theorem stream_container_layout (m_version : Z)
    (m_custom_opsets : list (string * OpSet))
    (m_custom_data_serializer : option (list byte)) (f : Function)
    (m_stream : list byte) (document : xml_node) (bin : list byte) :
  serializeFunc [] f m_version m_custom_opsets false = (Ok document, bin) →
  let custom := default [] m_custom_data_serializer in
  ∃ hdr,
    StreamSerialize_run_on_function save m_version m_custom_opsets
      m_custom_data_serializer f m_stream
    = (Ok false, m_stream ++ header_bytes hdr ++ custom ++ bin ++ save document)
    ∧ custom_data_offset hdr = Z.of_nat (length m_stream + sizeof_hdr)
    ∧ custom_data_size hdr = Z.of_nat (length custom)
    ∧ consts_offset hdr = custom_data_offset hdr + custom_data_size hdr
    ∧ consts_size hdr = Z.of_nat (length bin)
    ∧ model_offset hdr = consts_offset hdr + consts_size hdr
    ∧ model_size hdr = Z.of_nat (length (save document)).
Proof.
  intros Hser custom. unfold serializeFunc in Hser. cbv zeta in Hser.
  unfold StreamSerialize_run_on_function. cbv zeta.
  set (requested := match f_rt_version f with Some v => v | None => m_version end)
    in *.
  destruct (negb (requested =? m_version) && negb (m_version =? UNSPECIFIED));
    [discriminate|].
  set (version := if requested =? UNSPECIFIED then IR_V11 else requested) in *.
  destruct (negb (version =? IR_V10) && negb (version =? IR_V11)); [discriminate|].
  rewrite writeHeader_at_end.
  set (hdr0 := mkDataHeader 0 0 0 0 0 0).
  set (prefix := match m_custom_data_serializer with
                 | Some data => (m_stream ++ header_bytes hdr0) ++ data
                 | None => m_stream ++ header_bytes hdr0
                 end).
  assert (Hprefix : prefix = m_stream ++ header_bytes hdr0 ++ custom).
  { unfold prefix, custom. destruct m_custom_data_serializer as [data|].
    - by rewrite <- app_assoc.
    - change (default [] None) with (@nil byte). by rewrite app_nil_r. }
  clearbody prefix. subst prefix.
  set (prefix := m_stream ++ header_bytes hdr0 ++ custom).
  assert (Hs : shifted prefix (new prefix true) (new [] true)).
  { repeat split; simpl; [by rewrite app_nil_r|lia]. }
  destruct (shift_invariant_ngfunction_2_ir "net" f m_custom_opsets version false
              prefix _ _ Hs) as [Hr (_ & _ & Hout & _)].
  destruct (ngfunction_2_ir "net" f m_custom_opsets version false (new [] true))
    as [r2 w2]. simpl in Hser. injection Hser as -> <-.
  destruct (ngfunction_2_ir "net" f m_custom_opsets version false (new prefix true))
    as [r1 w1]. simpl in Hr, Hout. subst r1. rewrite Hout.
  match goal with |- context [writeHeader ?h _ _] => exists h end. split.
  - apply (f_equal (pair (Ok false))).
    unfold prefix. rewrite <- !app_assoc. apply writeHeader_in_place.
  - simpl. unfold prefix. rewrite !length_app, length_header_bytes.
    repeat split; lia.
Qed.

End stream_container.

Local Close Scope Z_scope.

Lemma layer_names_distinct_witness :
  let run := ngfunction_2_ir "net" same_name_graph [] IR_V11 false (new [] true) in
  let names := omap (λ layer, attribute "name" (xml_attributes layer))
                 (document_layers (document_of run)) in
  names = ["data"; "data0"] ∧ NoDup names.
Proof.
  intros run names. split; [vm_compute; reflexivity|].
  apply (layer_names_distinct "net" same_name_graph [] IR_V11 false (new [] true)
           run.2 (document_of run)).
  vm_compute. reflexivity.
Defined.

Lemma create_layer_ids_positions_witness :
  create_layer_ids lstm_graph !! 2%nat = Some 1%nat.
Proof.
  apply (create_layer_ids_positions lstm_graph 2 1).
  - apply (bool_decide_unpack _). vm_compute. exact I.
  - exists lstm_node. split; reflexivity.
Defined.

Lemma every_input_has_an_edge_witness :
  let run := ngfunction_2_ir "net" lstm_graph [] IR_V11 false (new [] true) in
  ∃ e source,
    edge_node e ∈ document_edges (document_of run)
    ∧ to_port e = 5%nat
    ∧ create_layer_ids lstm_graph !! node_ptr lstm_node = Some (to_layer e)
    ∧ create_layer_ids lstm_graph !! 1%nat = Some (from_layer e)
    ∧ node_at 1 (f_ordered_ops lstm_graph) = Some source
    ∧ from_port e = (get_input_size source + 0)%nat.
Proof.
  intros run.
  apply (every_input_has_an_edge lstm_graph [] IR_V11 false (new [] true)
           run.2 (document_of run) lstm_node 5 (example_input 1)).
  - apply (bool_decide_unpack _). vm_compute. exact I.
  - vm_compute. reflexivity.
  - apply (bool_decide_unpack _). vm_compute. exact I.
  - reflexivity.
  - reflexivity.
  - intros (H & _). discriminate H.
Defined.

Lemma rt_info_attribute_keys_witness :
  let attributes : RTMap :=
    [("fused_names_0", mkVariant "fused_names" "0" (Some "a,b")
                         [("value", AdString "a,b")] true);
     ("hidden_0", mkVariant "hidden" "0" None [("flag", AdBool true)] false)] in
  ∃ nodes,
    [Element "rt_info" []
       [Element "attribute"
          [("name", "fused_names"); ("version", "0"); ("value", "a,b")] []]]
    = match nodes with [] => [] | _ => [Element "rt_info" [] nodes] end
    ∧ Forall2 (λ item node,
         ∃ rest,
           node = Element "attribute"
                    (("name", variant_type_name item)
                     :: ("version", variant_type_version item) :: rest) []
           ∧ rest.*1 = (variant_adapters item).*1
           ∧ Forall (λ kv, kv.1 ≠ "name" ∧ kv.1 ≠ "version") rest)
        (filter (λ item, variant_visitable item = true) attributes.*2) nodes.
Proof.
  intros attributes.
  apply (rt_info_attribute_keys attributes). vm_compute. reflexivity.
Defined.

Lemma serializeFunc_version_witness :
  let run := serializeFunc [] lstm_graph UNSPECIFIED [] false in
  ∃ net, run.1 = Ok net
         ∧ attribute "version" (xml_attributes net) = Some "11".
Proof.
  intros run. exists (document_of (run.1, new [] true)). split.
  - vm_compute. reflexivity.
  - destruct (serializeFunc_version [] lstm_graph UNSPECIFIED [] false
                (document_of (run.1, new [] true)) run.2) as (_ & _ & _ & Hv).
    + vm_compute. reflexivity.
    + exact Hv.
Defined.


Lemma stream_container_layout_witness :
  let save : xml_node → list byte := λ _, [Byte.x3c; Byte.x3e] in
  let bin := (serializeFunc [] constant_graph IR_V11 [] false).2 in
  ∃ hdr,
    (StreamSerialize_run_on_function save IR_V11 [] (Some [Byte.x07])
       constant_graph [Byte.xff]).2
    = [Byte.xff] ++ header_bytes hdr ++ [Byte.x07] ++ bin ++ [Byte.x3c; Byte.x3e]
    ∧ custom_data_offset hdr = 49%Z ∧ custom_data_size hdr = 1%Z
    ∧ consts_offset hdr = 50%Z ∧ consts_size hdr = 4%Z
    ∧ model_offset hdr = 54%Z ∧ model_size hdr = 2%Z.
Proof.
  intros save bin.
  destruct (stream_container_layout save IR_V11 [] (Some [Byte.x07])
              constant_graph [Byte.xff]
              (document_of ((serializeFunc [] constant_graph IR_V11 [] false).1,
                            new [] true)) bin)
    as (hdr & Hrun & H1 & H2 & H3 & H4 & H5 & H6).
  - vm_compute. reflexivity.
  - exists hdr. rewrite Hrun. split; [reflexivity|].
    rewrite H5, H3, H1, H2, H4, H6. vm_compute. repeat split.
Defined.

Lemma version_errors_write_nothing_witness :
  ∃ msg, serializeFunc [Byte.x01] (empty_function (Some 7%Z)) UNSPECIFIED [] false
         = (Raise (ngraph_error msg), [Byte.x01]).
Proof.
  apply (version_errors_write_nothing [Byte.x01] (empty_function (Some 7%Z))
           UNSPECIFIED [] false).
  right. vm_compute. repeat split; discriminate.
Defined.

Lemma check_failure_removes_files_witness :
  let files : gmap string file_content :=
    {["model.xml" := FileBytes [Byte.x01]]} in
  let r := run_on_function (λ _, true) "model.xml" "model.bin" IR_V11 []
             dangling_graph files in
  r.1 = Raise (CheckFailure "Internal error")
  ∧ r.2 !! "model.xml" = None ∧ r.2 !! "model.bin" = None.
Proof.
  intros files.
  apply (check_failure_removes_files (λ _, true) "model.xml" "model.bin" IR_V11 []
           dangling_graph files (CheckFailure "Internal error")).
  - reflexivity.
  - reflexivity.
  - vm_compute. reflexivity.
  - reflexivity.
Defined.

Lemma attribute_set_absent (name value : string) (attrs : list (string * string)) :
  attribute name attrs = None → set_attribute name value attrs = attrs.
Proof.
  induction attrs as [|[k v] attrs IH]; simpl; [done|].
  destruct (String.eqb k name); [done|]. intros H. by rewrite IH.
Qed.

Lemma attribute_remove_absent (name : string) (attrs : list (string * string)) :
  attribute name attrs = None → remove_attribute name attrs = attrs.
Proof.
  induction attrs as [|[k v] attrs IH]; simpl; [done|].
  destruct (String.eqb k name); [done|]. intros H. by rewrite IH.
Qed.

Lemma on_adapter_no_version (type_name name : string) (adapter : Adapter)
    (t t' : VisitorTarget) (w w' : ConstantWriter) :
  attribute "version" (vt_layer t) = None →
  on_adapter type_name name adapter t w = (Ok t', w') →
  attribute "version" (vt_layer t') = None.
Proof.
  intros Hnone.
  destruct adapter; simpl; try (by intros [= <- <-]); try discriminate.
  - destruct (_ && _).
    + destruct (write w bytes) as [offset w1]. by intros [= <- <-].
    + by intros [= <- <-].
  - intros [= <- <-]. simpl.
    assert (Htype : attribute "version" (set_attribute "type" type_name0 (vt_layer t))
                    = None) by by rewrite attribute_set_other.
    destruct (negb _).
    + by rewrite attribute_set_absent.
    + by rewrite attribute_remove_absent.
Qed.

Lemma visit_attributes_no_version (type_name : string)
    (adapters : list (string * Adapter)) :
  ∀ t t' w w',
    attribute "version" (vt_layer t) = None →
    visit_attributes type_name adapters t w = (Ok t', w') →
    attribute "version" (vt_layer t') = None.
Proof.
  induction adapters as [|[name adapter] adapters IH]; intros t t' w w' Hnone H;
    simpl in H.
  - by apply ret_ok in H as [-> _].
  - inv_m. eapply IH; [|done]. by eapply on_adapter_no_version.
Qed.

Lemma layer_xml_no_version (layer_ids : gmap nat nat)
    (custom_opsets : list (string * OpSet)) (version : Z) (deterministic : bool)
    (unique_names : gset string) (node : Node) (w w' : ConstantWriter)
    (layer : xml_node) (names' : gset string) :
  layer_xml layer_ids custom_opsets version deterministic true
    unique_names node w = (Ok (layer, names'), w') →
  attribute "version" (xml_attributes layer) = None.
Proof.
  unfold layer_xml. intros H. inv_m.
  apply (f_equal fst) in Hrest0. cbn [fst] in Hrest0. subst layer.
  cbn [xml_attributes].
  rewrite visit_exec_graph_node_keeps_attribute by done. cbn [vt_layer].
  eapply visit_attributes_no_version; [|exact Hstep3]. cbn [vt_layer negb].
  by destruct (negb deterministic || negb (is_name_auto_generated node)).
Qed.

(** X28: In the document of an execution graph (a function one of whose
    nodes carries [execTimeMcs]) no layer has a [version] attribute: the
    opset is not written, and the attributes of framework nodes cannot
    bring it back. *)
Theorem exec_graph_layers_have_no_version (netXml : string) (f : Function)
    (custom_opsets : list (string * OpSet)) (version : Z) (deterministic : bool)
    (w w' : ConstantWriter) (net : xml_node) :
  ngfunction_2_ir netXml f custom_opsets version deterministic w = (Ok net, w') →
  is_exec_graph f = true →
  Forall (λ layer, attribute "version" (xml_attributes layer) = None)
    (document_layers net).
Proof.
  intros H Hexec. apply ngfunction_2_ir_layers in H. rewrite Hexec in H.
  revert H. generalize (document_layers net) (∅ : gset string) w.
  induction (sorted_ops f version) as [|n nodes IH]; intros layers names w0 H;
    simpl in H.
  - apply ret_ok in H as [-> _]. constructor.
  - inv_m. subst layers. destruct a as [layer names']. constructor.
    + by eapply layer_xml_no_version.
    + by eapply IH.
Qed.

Lemma exec_graph_layers_have_no_version_witness :
  let run := ngfunction_2_ir "net" exec_graph_example [] IR_V10 false (new [] true) in
  xml_attributes <$> document_layers (document_of run)
  = [[("id", "0"); ("name", "in"); ("type", "Input")]]
  ∧ Forall (λ layer, attribute "version" (xml_attributes layer) = None)
      (document_layers (document_of run)).
Proof.
  intros run. split; [vm_compute; reflexivity|].
  apply (exec_graph_layers_have_no_version "net" exec_graph_example [] IR_V10 false
           (new [] true) run.2 (document_of run)).
  - vm_compute. reflexivity.
  - reflexivity.
Defined.

End SerializerFacts.

Module AddFQFusionFacts.
Import Serializer AddFQFusion.

Section callback_facts.
Context {V : Type}.
Variable bitwidth : Type_t → nat.
Variable get_single_value : @GNode V → option V.
Variable u64_values : list nat → list V.
Variable get_constant_from_source : nat → @Graph V → option nat * @Graph V.
Variable copy_runtime_info : list nat → list nat → @Graph V → @Graph V.
Variable replace_node : nat → nat → @Graph V → @Graph V.

Lemma get_node_state (id : nat) (g g' : @Graph V) (n : GNode) :
  get_node id g = (Ok n, g') → g' = g.
Proof. unfold get_node. destruct (g_nodes g !! id); by intros [= _ <-]. Qed.

Lemma input_value_state (n : @GNode V) (index : nat) (g g' : @Graph V) v :
  input_value n index g = (Ok v, g') → g' = g.
Proof.
  unfold input_value. destruct (gn_inputs n !! index); [|discriminate].
  by intros [= _ <-].
Qed.

(** Once the replacement is under construction the callback reports a
    change. *)
Lemma fuse_returns_true (m : Match) (fq add_const : @GNode V) (new_const : nat)
    (g g' : @Graph V) (b : bool) :
  fuse get_constant_from_source copy_runtime_info replace_node
    m fq add_const new_const g = (Ok b, g') →
  b = true.
Proof. unfold fuse. intros H. inv_m. done. Qed.

Ltac callback_step :=
  match goal with
  | H : ret false ?g = (Ok false, ?g') |- _ => apply ret_ok in H as [_ ->]
  | H : ret _ _ = (Ok _, _) |- _ => apply ret_ok in H as [H ->]
  | H : get_node _ _ = (Ok _, _) |- _ => apply get_node_state in H as ->
  | H : input_value _ _ _ = (Ok _, _) |- _ => apply input_value_state in H as ->
  | H : fuse _ _ _ _ _ _ _ _ = (Ok false, _) |- _ =>
      apply fuse_returns_true in H; discriminate
  | H : throw _ _ = (Ok _, _) |- _ => discriminate H
  | H : bind _ _ _ = (Ok _, _) |- _ =>
      let a := fresh "a" in let g := fresh "g" in
      let H1 := fresh "Hstep" in let H2 := fresh "Hrest" in
      apply bind_ok in H as (a & g & H1 & H2)
  | H : (if ?c then _ else _) _ = (Ok _, _) |- _ => destruct c eqn:?
  | H : match ?x with Some _ => _ | None => _ end _ = (Ok _, _) |- _ =>
      destruct x eqn:?
  | H : (_, _) = (_, _) |- _ => injection H as ? ?; subst
  end.

(** C8: whenever the matcher callback of AddFakeQuantizeFusion returns
    false, it hands back the graph it was given: no node was created, no
    input was rewired, no attribute was touched, whatever the helper
    routines do when they are reached. *)
Theorem callback_false_leaves_graph (m : Match) (g g' : @Graph V) :
  callback bitwidth get_single_value u64_values get_constant_from_source
    copy_runtime_info replace_node m g = (Ok false, g') →
  g' = g.
Proof.
  unfold callback. intros H.
  repeat callback_step; simpl in *; repeat callback_step; try done;
    subst; simpl in *; discriminate.
Qed.

Lemma get_node_lookup (id : nat) (g g' : @Graph V) (n : GNode) :
  get_node id g = (Ok n, g') → g_nodes g !! id = Some n ∧ g' = g.
Proof. unfold get_node. destruct (g_nodes g !! id); by intros [= <- <-]. Qed.

Lemma input_value_lookup (n : @GNode V) (index : nat) (g g' : @Graph V) v :
  input_value n index g = (Ok v, g') → gn_inputs n !! index = Some v ∧ g' = g.
Proof.
  unfold input_value. destruct (gn_inputs n !! index); [|discriminate].
  by intros [= <- <-].
Qed.

Lemma fuse_result (m : Match) (fq add_const : @GNode V) (new_const : nat)
    (g g' : @Graph V) (b : bool) :
  fuse get_constant_from_source copy_runtime_info replace_node
    m fq add_const new_const g = (Ok b, g') →
  ∃ (g1 : @Graph V) (new_fq new_input_low new_input_high : nat)
    (output_low output_high : nat * nat),
    gn_inputs fq !! 3%nat = Some output_low
    ∧ gn_inputs fq !! 4%nat = Some output_high
    ∧ g_nodes g1 !! new_fq
      = Some (mkGNode FakeQuantize
                [pm_input m; (new_input_low, 0%nat); (new_input_high, 0%nat);
                 output_low; output_high]
                (gn_element_type fq) (gn_shape fq) (gn_rank fq) []
                (gn_levels fq) (gn_friendly_name fq) [])
    ∧ g' = replace_node (pm_fq m).1 new_fq
             (copy_runtime_info [(pm_add m).1; (pm_fq m).1]
                [new_input_low; new_input_high; new_fq] g1).
Proof.
  unfold fuse. intros H.
  apply bind_ok in H as (low & g0 & Hlow & H).
  apply bind_ok in H as (input_low_sub & g2 & Hls & H).
  apply bind_ok in H as (folded_low & g3 & Hfl & H).
  apply bind_ok in H as (high & g4 & Hhigh & H).
  apply bind_ok in H as (input_high_sub & g5 & Hhs & H).
  apply bind_ok in H as (folded_high & g6 & Hfh & H).
  apply bind_ok in H as (output_low & g7 & Hol & H).
  apply bind_ok in H as (output_high & g8 & Hoh & H).
  apply bind_ok in H as (new_fq & g9 & Hfq & H).
  apply bind_ok in H as (copied & g10 & Hcp & H).
  apply bind_ok in H as (replaced & g11 & Hrp & H).
  apply ret_ok in H as [_ ->].
  apply input_value_lookup in Hol as [Hol ->], Hoh as [Hoh ->].
  unfold make_node in Hfq. injection Hfq as <- <-.
  unfold update in Hcp, Hrp. injection Hcp as _ <-. injection Hrp as _ <-.
  eexists _, _, _, _, output_low, output_high.
  split; [done|]. split; [done|]. split; [|reflexivity].
  simpl. apply lookup_insert_eq.
Qed.

Ltac callback_true_step :=
  match goal with
  | H : ret _ _ = (Ok true, _) |- _ => by apply ret_ok in H as [? _]
  | H : ret _ _ = (Ok _, _) |- _ => apply ret_ok in H as [H ->]
  | H : get_node _ _ = (Ok _, _) |- _ => apply get_node_lookup in H as [H ->]
  | H : input_value _ _ _ = (Ok _, _) |- _ => apply input_value_state in H as ->
  | H : throw _ _ = (Ok _, _) |- _ => discriminate H
  | H : bind _ _ _ = (Ok _, _) |- _ =>
      let a := fresh "a" in let g := fresh "g" in
      let H1 := fresh "Hstep" in let H2 := fresh "Hrest" in
      apply bind_ok in H as (a & g & H1 & H2)
  | H : (if ?c then _ else _) _ = (Ok _, _) |- _ => destruct c eqn:?
  | H : match ?x with Some _ => _ | None => _ end _ = (Ok _, _) |- _ =>
      destruct x eqn:?
  end.

(** X25: When the callback returns [true], the graph it leaves is the one in
    which the matched FakeQuantize was replaced by a FakeQuantize created
    by the callback: the new node reads the input of the Add directly,
    then the two shifted input bounds, then the output bounds of the old
    node, and it takes over the levels and the friendly name of the old
    node.  The runtime info is copied and the old node replaced only
    after that node exists. *)
Theorem callback_true_builds_fake_quantize (m : Match) (g g' : @Graph V) :
  callback bitwidth get_single_value u64_values get_constant_from_source
    copy_runtime_info replace_node m g = (Ok true, g') →
  ∃ (fq : @GNode V) (g1 : @Graph V) (new_fq new_input_low new_input_high : nat)
    (output_low output_high : nat * nat),
    g_nodes g !! (pm_fq m).1 = Some fq
    ∧ gn_kind fq = FakeQuantize
    ∧ gn_inputs fq !! 3%nat = Some output_low
    ∧ gn_inputs fq !! 4%nat = Some output_high
    ∧ g_nodes g1 !! new_fq
      = Some (mkGNode FakeQuantize
                [pm_input m; (new_input_low, 0%nat); (new_input_high, 0%nat);
                 output_low; output_high]
                (gn_element_type fq) (gn_shape fq) (gn_rank fq) []
                (gn_levels fq) (gn_friendly_name fq) [])
    ∧ g' = replace_node (pm_fq m).1 new_fq
             (copy_runtime_info [(pm_add m).1; (pm_fq m).1]
                [new_input_low; new_input_high; new_fq] g1).
Proof.
  unfold callback. intros H.
  apply bind_ok in H as (input & g0 & Hin & H).
  apply get_node_lookup in Hin as [Hin ->].
  destruct (Nat.ltb _ _); [by apply ret_ok in H as [? _]|].
  apply bind_ok in H as (fq & g0 & Hfq & H).
  apply get_node_lookup in Hfq as [Hfq ->].
  destruct (bool_decide (gn_kind fq = FakeQuantize)) eqn:Hkind; simpl in H;
    [|by apply ret_ok in H as [? _]].
  apply bool_decide_eq_true in Hkind.
  assert (Hfuse : ∀ new_const g2,
            fuse get_constant_from_source copy_runtime_info replace_node
              m fq new_const.1 new_const.2 g2 = (Ok true, g') →
            ∃ (fq : @GNode V) (g1 : @Graph V)
              (new_fq new_input_low new_input_high : nat)
              (output_low output_high : nat * nat),
              g_nodes g !! (pm_fq m).1 = Some fq
              ∧ gn_kind fq = FakeQuantize
              ∧ gn_inputs fq !! 3%nat = Some output_low
              ∧ gn_inputs fq !! 4%nat = Some output_high
              ∧ g_nodes g1 !! new_fq
                = Some (mkGNode FakeQuantize
                          [pm_input m; (new_input_low, 0%nat);
                           (new_input_high, 0%nat); output_low; output_high]
                          (gn_element_type fq) (gn_shape fq) (gn_rank fq) []
                          (gn_levels fq) (gn_friendly_name fq) [])
              ∧ g' = replace_node (pm_fq m).1 new_fq
                       (copy_runtime_info [(pm_add m).1; (pm_fq m).1]
                          [new_input_low; new_input_high; new_fq] g1)).
  { intros [c1 c2] g2 Hf. simpl in Hf.
    destruct (fuse_result _ _ _ _ _ _ _ Hf)
      as (g1 & nf & nl & nh & ol & oh & H3 & H4 & Hn & Hg).
    by exists fq, g1, nf, nl, nh, ol, oh. }
  repeat callback_true_step; simpl in *; repeat callback_true_step;
    try (by eapply (Hfuse (_, _))).
Qed.

(** X26: The callback declines for three reasons only: the input type is
    narrower than [f32], the matched nodes are not a FakeQuantize and a
    Constant, or the constant is not a single value (neither by its shape
    nor by its values).  A constant that holds a single value is fused
    whatever its shape, its producers and the users of the
    FakeQuantize. *)
Theorem callback_false_reasons (m : Match) (g g' : @Graph V) :
  callback bitwidth get_single_value u64_values get_constant_from_source
    copy_runtime_info replace_node m g = (Ok false, g') →
  (∃ input, g_nodes g !! (pm_input m).1 = Some input
            ∧ bitwidth (gn_element_type input) < bitwidth f32)
  ∨ (∃ fq, g_nodes g !! (pm_fq m).1 = Some fq ∧ gn_kind fq ≠ FakeQuantize)
  ∨ (∃ add_const, g_nodes g !! (pm_const m).1 = Some add_const
                  ∧ (gn_kind add_const ≠ Constant
                     ∨ (shape_size (gn_shape add_const) ≠ 1
                        ∧ get_single_value add_const = None))).
Proof.
  unfold callback. intros H.
  apply bind_ok in H as (input & g0 & Hin & H).
  apply get_node_lookup in Hin as [Hin ->].
  destruct (Nat.ltb_spec (bitwidth (gn_element_type input)) (bitwidth f32)) as [Hb|Hb].
  { left. by exists input. }
  apply bind_ok in H as (fq & g0 & Hfq & H).
  apply get_node_lookup in Hfq as [Hfq ->].
  destruct (bool_decide (gn_kind fq = FakeQuantize)) eqn:Hkind; simpl in H.
  2:{ right. left. exists fq. split; [done|]. by apply bool_decide_eq_false in Hkind. }
  apply bind_ok in H as (add_node & g0 & Hadd & H).
  apply get_node_lookup in Hadd as [Hadd ->].
  apply bind_ok in H as (add_const & g0 & Hconst & H).
  apply get_node_lookup in Hconst as [Hconst ->].
  right. right. exists add_const. split; [done|].
  destruct (bool_decide (gn_kind add_const = Constant)) eqn:Hck; simpl in H.
  2:{ left. by apply bool_decide_eq_false in Hck. }
  right.
  destruct (Nat.eqb_spec (shape_size (gn_shape add_const)) 1) as [Hone|Hone];
    simpl in H.
  - apply bind_ok in H as (single & g0 & Hs & H).
    apply ret_ok in Hs as [-> ->]. simpl in H.
    apply fuse_returns_true in H. discriminate.
  - split; [done|].
    destruct (get_single_value add_const) as [v|]; [|done].
    apply bind_ok in H as (single & g0 & Hs & H).
    apply bind_ok in Hs as (new_const & g1 & Hmk & Hs).
    apply ret_ok in Hs as [-> ->]. simpl in H.
    apply fuse_returns_true in H. discriminate.
Qed.

End callback_facts.

(** The constant of shape [2, 3] with distinct values is neither a single
    value nor of shape (N, 1, ...) or (1, C, ...): the callback declines. *)
Lemma callback_false_leaves_graph_witness :
  let g := example_graph [2; 3]%nat [1; 2; 3; 4; 5; 6]%Z in
  (example_callback example_match g).1 = Ok false
  ∧ (example_callback example_match g).2 = g.
Proof.
  intros g. split; [vm_compute; reflexivity|].
  apply (callback_false_leaves_graph example_bitwidth example_get_single_value
           (map Z.of_nat) (λ _ g, (None, g)) (λ _ _ g, g) example_replace_node
           example_match).
  vm_compute. reflexivity.
Defined.

(** With the constant [1, 6] the callback fuses: it reports a change and
    the FakeQuantize created last reads the input directly. *)
Example callback_fuses_row_constant :
  let g := example_graph [1; 6]%nat [1; 2; 3; 4; 5; 6]%Z in
  (example_callback example_match g).1 = Ok true
  ∧ gn_inputs <$> (g_nodes (example_callback example_match g).2 !! 6%nat)
    = Some [(0, 0); (4, 0); (5, 0); (0, 0); (0, 0)]%nat.
Proof. vm_compute. split; reflexivity. Qed.

Lemma callback_true_builds_fake_quantize_witness :
  let g := example_graph [1; 6]%nat [1; 2; 3; 4; 5; 6]%Z in
  ∃ (fq : @GNode Z) (g1 : @Graph Z) (new_fq new_input_low new_input_high : nat)
    (output_low output_high : nat * nat),
    g_nodes g !! 3%nat = Some fq
    ∧ gn_kind fq = FakeQuantize
    ∧ gn_inputs fq !! 3%nat = Some output_low
    ∧ gn_inputs fq !! 4%nat = Some output_high
    ∧ g_nodes g1 !! new_fq
      = Some (mkGNode FakeQuantize
                [(0, 0)%nat; (new_input_low, 0%nat); (new_input_high, 0%nat);
                 output_low; output_high]
                (gn_element_type fq) (gn_shape fq) (gn_rank fq) []
                (gn_levels fq) (gn_friendly_name fq) [])
    ∧ (example_callback example_match g).2
      = example_replace_node 3 new_fq g1.
Proof.
  intros g.
  apply (callback_true_builds_fake_quantize example_bitwidth
           example_get_single_value (map Z.of_nat) (λ _ g, (None, g))
           (λ _ _ g, g) example_replace_node example_match g).
  vm_compute. reflexivity.
Defined.

Lemma callback_false_reasons_witness :
  let g := example_graph [2; 3]%nat [1; 2; 3; 4; 5; 6]%Z in
  (∃ input, g_nodes g !! 0%nat = Some input
            ∧ example_bitwidth (gn_element_type input) < example_bitwidth f32)
  ∨ (∃ fq, g_nodes g !! 3%nat = Some fq ∧ gn_kind fq ≠ FakeQuantize)
  ∨ (∃ add_const, g_nodes g !! 1%nat = Some add_const
                  ∧ (gn_kind add_const ≠ Constant
                     ∨ (shape_size (gn_shape add_const) ≠ 1
                        ∧ example_get_single_value add_const = None))).
Proof.
  intros g.
  apply (callback_false_reasons example_bitwidth example_get_single_value
           (map Z.of_nat) (λ _ g, (None, g)) (λ _ _ g, g) example_replace_node
           example_match g g).
  vm_compute. reflexivity.
Defined.

End AddFQFusionFacts.
